(** * claude-relay-service: translation pipeline and OpenAI-Responses relay

    A shallow embedding of the JavaScript sources

      - [services/translation/codeBlockProtector.js]
      - [services/translation/languageDetector.js]
      - [services/translation/sentenceBuffer.js]
      - [services/translation/translationService.js]
      - [services/translation/requestTranslator.js]
      - [services/translation/responseTranslator.js]
      - [services/openaiResponsesRelayService.js]

    JavaScript strings are sequences of UTF-16 code units, modelled as
    [list N].  Values that are only read (SSE events, account records, usage
    payloads, error bodies) are trees of type [jv]; the request envelope,
    which the request translator copies and mutates, lives in an explicit
    heap of objects and arrays.  Collaborators whose code is outside the
    repository files at hand (the LRU cache, the HTTP call to the translator
    account, the JSON text parser, SHA-256) are fields of type classes; the
    way the promises of the scheduler and of the account service settle,
    and the decoder of [Buffer.toString], are arguments of the functions
    that depend on them. *)

From stdpp Require Import base option list strings.
From Stdlib Require Import NArith ZArith Lia DecimalNat.
From Stdlib Require Floats.

Set Default Proof Using "Type".
Set Warnings "-register-all".
Set Warnings "-inexact-float".

(* ===================================================================== *)
(** * Part I: definitions                                                  *)
(* ===================================================================== *)

(** ** JavaScript strings *)

Abbreviation jsstring := (list N).

(** An ASCII literal as a sequence of code units. *)
Definition str (s : string) : jsstring :=
  (fun a => Ascii.N_of_ascii a) <$> String.list_ascii_of_string s.

(** [s.startsWith(p)] *)
Fixpoint starts_with (p s : jsstring) : bool :=
  match p, s with
  | [], _ => true
  | _ :: _, [] => false
  | a :: p', b :: s' => (a =? b)%N && starts_with p' s'
  end.

(** ECMAScript WhiteSpace and LineTerminator code units: what
    [String.prototype.trim] strips and what [\s] matches. *)
Definition is_ws (c : N) : bool :=
  ((9 <=? c) && (c <=? 13) || (c =? 32) || (c =? 160) || (c =? 5760)
   || (8192 <=? c) && (c <=? 8202) || (c =? 8232) || (c =? 8233)
   || (c =? 8239) || (c =? 8287) || (c =? 12288) || (c =? 65279))%N.

Fixpoint trimStart (s : jsstring) : jsstring :=
  match s with
  | [] => []
  | c :: rest => if is_ws c then trimStart rest else s
  end.

Definition trimEnd (s : jsstring) : jsstring := rev (trimStart (rev s)).

(** [s.trim()] *)
Definition trim (s : jsstring) : jsstring := trimEnd (trimStart s).

(** Length of the longest prefix of [s] whose code units satisfy [p]: a greedy
    [[class]*] of a regular expression. *)
Fixpoint span (p : N -> bool) (s : jsstring) : nat :=
  match s with
  | [] => 0
  | c :: rest => if p c then S (span p rest) else 0
  end.

Definition is_digit (c : N) : bool := ((48 <=? c) && (c <=? 57))%N.

Fixpoint digits_of_uint (u : Decimal.uint) : jsstring :=
  match u with
  | Decimal.Nil => []
  | Decimal.D0 u' => 48%N :: digits_of_uint u'
  | Decimal.D1 u' => 49%N :: digits_of_uint u'
  | Decimal.D2 u' => 50%N :: digits_of_uint u'
  | Decimal.D3 u' => 51%N :: digits_of_uint u'
  | Decimal.D4 u' => 52%N :: digits_of_uint u'
  | Decimal.D5 u' => 53%N :: digits_of_uint u'
  | Decimal.D6 u' => 54%N :: digits_of_uint u'
  | Decimal.D7 u' => 55%N :: digits_of_uint u'
  | Decimal.D8 u' => 56%N :: digits_of_uint u'
  | Decimal.D9 u' => 57%N :: digits_of_uint u'
  end.

(** [String(n)] for a non-negative integer counter. *)
Definition nat_to_string (n : nat) : jsstring := digits_of_uint (Nat.to_uint n).

(** [s.split(sep)]: the pieces between the non-overlapping occurrences of
    [sep], found left to right.  [fuel] bounds the scan; [split] passes the
    length of the input. *)
Fixpoint split_go (fuel : nat) (sep s acc : jsstring) : list jsstring :=
  match fuel with
  | O => [rev acc ++ s]
  | S fuel' =>
      match s with
      | [] => [rev acc]
      | c :: rest =>
          if starts_with sep s
          then rev acc :: split_go fuel' sep (drop (length sep) s) []
          else split_go fuel' sep rest (c :: acc)
      end
  end.

Definition split (sep s : jsstring) : list jsstring :=
  match sep with
  | [] => (fun c => [c]) <$> s
  | _ :: _ => split_go (S (length s)) sep s []
  end.

(** [parts.join(sep)] *)
Fixpoint join (sep : jsstring) (parts : list jsstring) : jsstring :=
  match parts with
  | [] => []
  | [p] => p
  | p :: rest => p ++ sep ++ join sep rest
  end.

(** [s.replace(re, cb)] for a global regular expression [re] none of whose
    matches is empty.  [matcher s] is the length of the match of [re] that
    starts at the head of [s], if there is one; the callback receives the
    matched text and threads the state its closure mutates. *)
Section Replace.
Context {St : Type}.
Variable matcher : jsstring -> option nat.
Variable cb : jsstring -> St -> jsstring * St.

Fixpoint replace_go (fuel : nat) (s : jsstring) (st : St) : jsstring * St :=
  match fuel with
  | O => (s, st)
  | S fuel' =>
      match s with
      | [] => ([], st)
      | c :: rest =>
          match matcher s with
          | Some (S n) =>
              let '(r, st1) := cb (take (S n) s) st in
              let '(out, st2) := replace_go fuel' (drop (S n) s) st1 in
              (r ++ out, st2)
          | _ =>
              let '(out, st2) := replace_go fuel' rest st in
              (c :: out, st2)
          end
      end
  end.

Definition replace_global (s : jsstring) (st : St) : jsstring * St :=
  replace_go (length s) s st.
End Replace.

(** [s.match(re)] for a global regular expression [re] none of whose matches
    is empty: the matched texts, left to right ([null] when there is none,
    which the callers turn into an empty array). *)
Section Match.
Variable matcher : jsstring -> option nat.

Fixpoint match_go (fuel : nat) (s : jsstring) : list jsstring :=
  match fuel with
  | O => []
  | S fuel' =>
      match s with
      | [] => []
      | c :: rest =>
          match matcher s with
          | Some (S n) => take (S n) s :: match_go fuel' (drop (S n) s)
          | _ => match_go fuel' rest
          end
      end
  end.

Definition match_global (s : jsstring) : list jsstring :=
  match_go (length s) s.
End Match.

(** ** codeBlockProtector.js *)

Module CodeBlockProtector.

Definition backtick : N := 96%N.
Definition is_backtick (c : N) : bool := (c =? backtick)%N.

(** Index of the first [```] in [s]. *)
Fixpoint index_of_fence (s : jsstring) : option nat :=
  match s with
  | [] => None
  | _ :: rest =>
      if starts_with [backtick; backtick; backtick] s then Some 0
      else S <$> index_of_fence rest
  end.

(** [codeBlockRegex = /```[\s\S]*?```/]: an opening fence, then lazily
    anything up to the next fence. *)
Definition codeBlockRegex (s : jsstring) : option nat :=
  if starts_with [backtick; backtick; backtick] s
  then (fun k => 3 + k + 3) <$> index_of_fence (drop 3 s)
  else None.

(** [inlineCodeRegex = /`[^`]+`/]: a back-tick, one or more code units that
    are not back-ticks, a back-tick. *)
Definition inlineCodeRegex (s : jsstring) : option nat :=
  match s with
  | c :: rest =>
      if is_backtick c then
        let n := span (fun d => negb (is_backtick d)) rest in
        match n, drop n rest with
        | S _, d :: _ => if is_backtick d then Some (n + 2) else None
        | _, _ => None
        end
      else None
  | [] => None
  end.

(** A [prefix], one or more decimal digits, [__]. *)
Definition numbered (prefix s : jsstring) : option nat :=
  if starts_with prefix s then
    let rest := drop (length prefix) s in
    let d := span is_digit rest in
    match d with
    | S _ => if starts_with (str "__") (drop d rest)
             then Some (length prefix + d + 2) else None
    | O => None
    end
  else None.

(** [/__CODE_BLOCK_\d+__|__INLINE_CODE_\d+__/] *)
Definition placeholderRegex (s : jsstring) : option nat :=
  match numbered (str "__CODE_BLOCK_") s with
  | Some n => Some n
  | None => numbered (str "__INLINE_CODE_") s
  end.

(** [placeholders[key] = value] on an object whose keys keep their insertion
    order. *)
Fixpoint obj_set {V : Type} (key : jsstring) (v : V)
    (o : list (jsstring * V)) : list (jsstring * V) :=
  match o with
  | [] => [(key, v)]
  | (k, w) :: rest =>
      if decide (k = key) then (k, v) :: rest else (k, w) :: obj_set key v rest
  end.

Record extracted := {
  cleanText : jsstring;
  placeholders : list (jsstring * jsstring)
}.

(** The two closures of [extract]: they share the counter [index] and the
    object [placeholders]. *)
Definition protect (tag : jsstring) (m : jsstring)
    (st : nat * list (jsstring * jsstring)) :
    jsstring * (nat * list (jsstring * jsstring)) :=
  let key := str "__" ++ tag ++ str "_" ++ nat_to_string (fst st) ++ str "__" in
  (key, (S (fst st), obj_set key m (snd st))).

(** [extract(text)] for a string [text] (the [typeof] guard holds). *)
Definition extract (text : jsstring) : extracted :=
  match text with
  | [] => {| cleanText := []; placeholders := [] |}
  | _ :: _ =>
      let '(clean1, st1) :=
        replace_global codeBlockRegex (protect (str "CODE_BLOCK")) text (0, []) in
      let '(clean2, st2) :=
        replace_global inlineCodeRegex (protect (str "INLINE_CODE")) clean1 st1 in
      {| cleanText := clean2; placeholders := snd st2 |}
  end.

(** [restore(translatedText, placeholders)] *)
Definition restore (translatedText : jsstring)
    (placeholders : list (jsstring * jsstring)) : jsstring :=
  match translatedText with
  | [] => []
  | _ :: _ =>
      match placeholders with
      | [] => translatedText
      | _ :: _ =>
          foldl (fun result kv => join (snd kv) (split (fst kv) result))
                translatedText placeholders
      end
  end.

(** [cleanText.replace(/__CODE_BLOCK_\d+__|__INLINE_CODE_\d+__/g, '')] *)
Definition stripPlaceholders (cleanText : jsstring) : jsstring :=
  fst (replace_global placeholderRegex (fun _ (u : unit) => ([], u)) cleanText tt).

(** [isCodeOnly(text)] *)
Definition isCodeOnly (text : jsstring) : bool :=
  match text with
  | [] => false
  | _ :: _ =>
      let withoutPlaceholders :=
        trim (stripPlaceholders (cleanText (extract text))) in
      match withoutPlaceholders with [] => true | _ :: _ => false end
  end.

Record counts := {
  codeBlocks : nat;
  inlineCodes : nat
}.

(** [countCodeBlocks(text)] for a string [text]. *)
Definition countCodeBlocks (text : jsstring) : counts :=
  match text with
  | [] => {| codeBlocks := 0; inlineCodes := 0 |}
  | _ :: _ =>
      let textWithoutBlocks :=
        fst (replace_global codeBlockRegex (fun _ (u : unit) => ([], u)) text tt) in
      {| codeBlocks := length (match_global codeBlockRegex text);
         inlineCodes := length (match_global inlineCodeRegex textWithoutBlocks) |}
  end.

End CodeBlockProtector.

(** ** JavaScript values *)

(** Numbers: the integers, NaN and the two infinities.  Token counts, block
    indices and reset delays are integers; fractions are outside the model. *)
Inductive jsnum :=
| NNaN
| NInf (negative : bool)
| NInt (z : Z).

(** Values without identity: what [JSON.parse] returns, read but never
    mutated. *)
Inductive jv :=
| JUndef
| JNull
| JBool (b : bool)
| JNum (n : jsnum)
| JStr (s : jsstring)
| JArr (elems : list jv)
| JObj (props : list (jsstring * jv)).

#[global] Instance jsnum_eq_dec : EqDecision jsnum.
Proof. solve_decision. Defined.

(** ToBoolean *)
Definition num_truthy (n : jsnum) : bool :=
  match n with
  | NNaN => false
  | NInf _ => true
  | NInt z => negb (z =? 0)%Z
  end.

Definition truthy (v : jv) : bool :=
  match v with
  | JUndef | JNull => false
  | JBool b => b
  | JNum n => num_truthy n
  | JStr s => match s with [] => false | _ :: _ => true end
  | JArr _ | JObj _ => true
  end.

Fixpoint assoc {V : Type} (key : jsstring) (o : list (jsstring * V)) : option V :=
  match o with
  | [] => None
  | (k, v) :: rest => if decide (k = key) then Some v else assoc key rest
  end.

(** [v?.key], and [v.key] where [v] is known not to be null or undefined.
    None of the keys read by the sources is an own property of a string or an
    array, or a member of [Object.prototype]. *)
Definition get (key : string) (v : jv) : jv :=
  match v with
  | JObj props => default JUndef (assoc (str key) props)
  | _ => JUndef
  end.

(** [v === 'literal'] *)
Definition is_str (lit : string) (v : jv) : bool :=
  match v with
  | JStr s => bool_decide (s = str lit)
  | _ => false
  end.

(** [a || b] *)
Definition or_else (a b : jv) : jv := if truthy a then a else b.

(** ** languageDetector.js *)

Module LanguageDetector.

(** [chineseRegex = /[一-龥]/] *)
Definition chineseRegex (c : N) : bool := ((19968 <=? c) && (c <=? 40869))%N.

(** [containsChinese(text)] for a string [text]. *)
Definition containsChinese (text : jsstring) : bool := existsb chineseRegex text.

(** [englishRegex = /[a-zA-Z]/] *)
Definition englishRegex (c : N) : bool :=
  ((97 <=? c) && (c <=? 122) || (65 <=? c) && (c <=? 90))%N.

(** [containsEnglish(text)] for a string [text]. *)
Definition containsEnglish (text : jsstring) : bool := existsb englishRegex text.

(** [(text.match(re) || []).length] for a global [re] that is a class of
    code units. *)
Definition count (class : N -> bool) (text : jsstring) : nat :=
  length (List.filter class text).

(** [text.replace(/\s/g, '').length] *)
Definition totalChars (text : jsstring) : nat :=
  count (fun c => negb (is_ws c)) text.

(** A count as a JavaScript number, a binary64 float.  The counts are
    lengths of strings, below 2^53, and convert exactly. *)
Definition number (n : nat) : PrimFloat.float :=
  PrimFloat.of_uint63 (Uint63.of_Z (Z.of_nat n)).

Import PrimFloat.

(** [isPrimarilyChinese(text)] for a string [text]. *)
Definition isPrimarilyChinese (text : jsstring) : bool :=
  match text with
  | [] => false
  | _ :: _ =>
      let chineseChars := count chineseRegex text in
      let totalChars := totalChars text in
      if (totalChars =? 0)%nat then false
      else (0.3 <? number chineseChars / number totalChars)%float
  end.

(** [isPrimarilyEnglish(text)] for a string [text]. *)
Definition isPrimarilyEnglish (text : jsstring) : bool :=
  match text with
  | [] => false
  | _ :: _ =>
      let englishChars := count englishRegex text in
      let totalChars := totalChars text in
      if (totalChars =? 0)%nat then false
      else (0.5 <? number englishChars / number totalChars)%float
  end.

Record languageStats := {
  chinese : nat;
  english : nat;
  total : nat;
  chineseRatio : float;
  englishRatio : float
}.

(** [getLanguageStats(text)] for a string [text]. *)
Definition getLanguageStats (text : jsstring) : languageStats :=
  match text with
  | [] => {| chinese := 0; english := 0; total := 0;
             chineseRatio := 0%float; englishRatio := 0%float |}
  | _ :: _ =>
      let chineseChars := count chineseRegex text in
      let englishChars := count englishRegex text in
      let totalChars := totalChars text in
      {| chinese := chineseChars;
         english := englishChars;
         total := totalChars;
         chineseRatio :=
           if (0 <? totalChars)%nat
           then (number chineseChars / number totalChars)%float else 0%float;
         englishRatio :=
           if (0 <? totalChars)%nat
           then (number englishChars / number totalChars)%float else 0%float |}
  end.

(** What [detectPrimaryLanguage] returns: ['chinese'], ['english'],
    ['mixed'] or ['unknown']. *)
Inductive language :=
| Chinese
| English
| Mixed
| Unknown.

(** [detectPrimaryLanguage(text)] for a string [text]. *)
Definition detectPrimaryLanguage (text : jsstring) : language :=
  match text with
  | [] => Unknown
  | _ :: _ =>
      let stats := getLanguageStats text in
      if (total stats =? 0)%nat then Unknown
      else if (0.3 <? chineseRatio stats)%float then Chinese
      else if (0.5 <? englishRatio stats)%float then English
      else if (0 <? chinese stats)%nat && (0 <? english stats)%nat then Mixed
      else Unknown
  end.

End LanguageDetector.

(** ** sentenceBuffer.js *)

Module SentenceBuffer.

(** [sentenceEnders = /[。？！.?!\n]/] *)
Definition sentenceEnders (c : N) : bool :=
  ((c =? 12290) || (c =? 65311) || (c =? 65281)
   || (c =? 46) || (c =? 63) || (c =? 33) || (c =? 10))%N.

(** Index of the first sentence ender of [s]. *)
Fixpoint search (s : jsstring) : option nat :=
  match s with
  | [] => None
  | c :: rest => if sentenceEnders c then Some 0 else S <$> search rest
  end.

(** [regex.exec(buffer)] with [regex.lastIndex = lastIndex]: the index of the
    match, if any. *)
Definition exec (buffer : jsstring) (lastIndex : nat) : option nat :=
  (fun k => lastIndex + k) <$> search (drop lastIndex buffer).

(** [s.slice(from, to)] for [0 <= from] and [0 <= to]. *)
Definition slice (s : jsstring) (from to : nat) : jsstring :=
  take (to - from) (drop from s).

(** The [while] loop of [add].  Every match is one code unit long, so after
    a match [regex.lastIndex] is [match.index + 1], the value of [lastEnd]:
    one variable stands for both.  Each round moves [lastEnd] forward, so
    [S (length buffer)] rounds are enough. *)
Fixpoint add_loop (fuel : nat) (buffer : jsstring) (lastEnd : nat)
    (sentences : list jsstring) : list jsstring * nat :=
  match fuel with
  | O => (sentences, lastEnd)
  | S fuel' =>
      match exec buffer lastEnd with
      | None => (sentences, lastEnd)
      | Some index =>
          let endIndex := index + 1 in
          let sentence := slice buffer lastEnd endIndex in
          add_loop fuel' buffer endIndex (sentences ++ [sentence])
      end
  end.

(** [add(text)]: the sentences returned and the new [this.buffer]. *)
Definition add (text : jv) (buffer : jsstring) : list jsstring * jsstring :=
  match text with
  | JStr (c :: t) =>
      let buffer1 := buffer ++ c :: t in
      let '(sentences, lastEnd) := add_loop (S (length buffer1)) buffer1 0 [] in
      (sentences, drop lastEnd buffer1)
  | _ => ([], buffer)
  end.

(** [flush()]: the remaining content and the emptied buffer. *)
Definition flush (buffer : jsstring) : jsstring * jsstring := (buffer, []).

(** [reset()] *)
Definition reset (buffer : jsstring) : jsstring := [].

(** A run of [add] calls: every sentence returned, in order, and the final
    buffer. *)
Fixpoint add_all (texts : list jv) (buffer : jsstring) : list jsstring * jsstring :=
  match texts with
  | [] => ([], buffer)
  | t :: rest =>
      let '(s1, b1) := add t buffer in
      let '(s2, b2) := add_all rest b1 in
      (s1 ++ s2, b2)
  end.

(** [peek()] *)
Definition peek (buffer : jsstring) : jsstring := buffer.

(** [isEmpty()] *)
Definition isEmpty (buffer : jsstring) : bool :=
  match buffer with
  | [] => true
  | _ :: _ => false
  end.

(** [get length()] *)
Definition length (buffer : jsstring) : nat := List.length buffer.

End SentenceBuffer.

(** ** Exceptions *)

Inductive error :=
| UnsupportedLanguagePair (sourceLang targetLang : jsstring)
| TranslationRequestFailed
| TypeError
| SyntaxError.

Inductive outcome (A : Type) :=
| Ok (a : A)
| Throw (e : error).
Arguments Ok {A} a.
Arguments Throw {A} e.

(** ** translationService.js *)

(** What the sources use of the JavaScript runtime and of Node, beyond what
    is defined above. *)
Class Builtins := {
  (** [JSON.parse(text)]; [None] when it throws a SyntaxError. *)
  JSON_parse : jsstring -> option jv;
  (** [Number(s)] for a string [s]. *)
  string_to_number : jsstring -> jsnum;
  (** [String(a)] for an array [a] with the given elements. *)
  array_to_string : list jv -> jsstring;
  (** [parseInt(v)] *)
  parseInt : jv -> jsnum;
  (** [crypto.createHash('sha256').update(s).digest('hex')] *)
  sha256_hex : jsstring -> jsstring;
  (** [String(m)] for the member of [Object.prototype] with the given name;
      the text is left to the JavaScript engine. *)
  native_source : jsstring -> jsstring
}.

(** The collaborators of the translation service: the LRU cache of
    [utils/lruCache] and the HTTP exchange with the translator account.
    [world] is the state they keep between calls. *)
Class TranslationEnv := {
  world : Type;
  (** [this.cache.get(key)]: the cached string, or nothing. *)
  cache_get : jsstring -> world -> option jsstring * world;
  (** [this.cache.set(key, value, this.cacheTTLMs)] *)
  cache_set : jsstring -> jsstring -> world -> world;
  (** [_makeOpenAICompatibleRequest(systemPrompt, userPrompt)]: the content of
      the first choice, or a rejection. *)
  makeOpenAICompatibleRequest :
    jsstring -> jsstring -> world -> option jsstring * world
}.

Module TranslationService.

(** What [this.languageNames[code]] evaluates to.  [languageNames] is an
    object literal, so besides its own keys [zh] and [en] the lookup finds
    the members of [Object.prototype], all of them truthy. *)
Inductive member :=
| Own (name : jsstring)
| Inherited
| Missing.

Definition object_prototype_keys : list jsstring :=
  str <$> ["constructor"; "__defineGetter__"; "__defineSetter__";
           "hasOwnProperty"; "__lookupGetter__"; "__lookupSetter__";
           "isPrototypeOf"; "propertyIsEnumerable"; "toString"; "valueOf";
           "__proto__"; "toLocaleString"]%string.

Definition languageNames (code : jsstring) : member :=
  if decide (code = str "zh") then Own (str "Chinese")
  else if decide (code = str "en") then Own (str "English")
  else if bool_decide (code ∈ object_prototype_keys) then Inherited
  else Missing.

Definition member_truthy (m : member) : bool :=
  match m with
  | Own name => match name with [] => false | _ :: _ => true end
  | Inherited => true
  | Missing => false
  end.

Definition systemPrompt : jsstring :=
  str "You are a professional translator. Translate text accurately and naturally.

Rules:
1. Return ONLY the translated text, no explanations or notes
2. Preserve all formatting, line breaks, and whitespace
3. Preserve placeholders like __CODE_BLOCK_0__ and __INLINE_CODE_0__ exactly as-is
4. Maintain the original tone and style
5. For technical terms, prefer commonly used translations".

Section WithEnv.
Context `{Builtins} `{TranslationEnv}.

Definition display (code : jsstring) : jsstring :=
  match languageNames code with
  | Own name => name
  | Inherited => native_source code
  | Missing => str "undefined"
  end.

(** [_getCacheKey(text, sourceLang, targetLang)] *)
Definition getCacheKey (text sourceLang targetLang : jsstring) : jsstring :=
  str "trans:" ++
  take 16 (sha256_hex (sourceLang ++ str ":" ++ targetLang ++ str ":" ++ text)).

(** [_callTranslationAPI(text, sourceLang, targetLang)] *)
Definition callTranslationAPI (text sourceLang targetLang : jsstring)
    (w : world) : outcome jsstring * world :=
  let userPrompt :=
    str "Translate the following from " ++ display sourceLang ++ str " to "
    ++ display targetLang ++ [58%N; 10%N; 10%N] ++ text in
  match makeOpenAICompatibleRequest systemPrompt userPrompt w with
  | (Some response, w1) => (Ok (trim response), w1)
  | (None, w1) => (Throw TranslationRequestFailed, w1)
  end.

(** [translate(text, sourceLang, targetLang)] *)
Definition translate (text sourceLang targetLang : jsstring)
    (w : world) : outcome jsstring * world :=
  match trim text with
  | [] => (Ok text, w)
  | _ :: _ =>
      if negb (member_truthy (languageNames sourceLang))
         || negb (member_truthy (languageNames targetLang))
      then (Throw (UnsupportedLanguagePair sourceLang targetLang), w)
      else if decide (sourceLang = targetLang) then (Ok text, w)
      else
        let cacheKey := getCacheKey text sourceLang targetLang in
        match cache_get cacheKey w with
        | (Some (c :: cached), w1) => (Ok (c :: cached), w1)
        | (_, w1) =>
            match callTranslationAPI text sourceLang targetLang w1 with
            | (Ok translated, w2) =>
                (Ok translated, cache_set cacheKey translated w2)
            | (Throw e, w2) => (Throw e, w2)
            end
        end
  end.

End WithEnv.
End TranslationService.

(** ** responseTranslator.js *)

Module ResponseTranslator.

Record stats := {
  totalEvents : nat;
  textDeltas : nat;
  sentencesTranslated : nat;
  translationErrors : nat;
  passedThrough : nat
}.

(** The output stream: whether it is writable, and the events written so
    far, oldest first.  [_writeSSE] writes [data: <JSON.stringify(event)>]
    and a blank line; the frame is recorded as the event it serialises.  A
    missing stream behaves as one that is not writable. *)
Record stream := {
  writable : bool;
  written : list jv
}.

Record t := {
  enabled : bool;
  outputStream : stream;
  currentBlockType : jv;
  currentBlockIndex : jv;
  sentenceBuffer : jsstring;
  counters : stats
}.

(** [new ResponseTranslator(account, outputStream)] *)
Definition new (account : jv) (outputStream : stream) : t :=
  {| enabled :=
       match get "enableTranslation" account with
       | JBool true => true
       | v => is_str "true" v
       end;
     outputStream := outputStream;
     currentBlockType := JNull;
     currentBlockIndex := JNull;
     sentenceBuffer := [];
     counters := {| totalEvents := 0; textDeltas := 0; sentencesTranslated := 0;
                    translationErrors := 0; passedThrough := 0 |} |}.

Definition with_stats (f : stats -> stats) (tr : t) : t :=
  {| enabled := enabled tr; outputStream := outputStream tr;
     currentBlockType := currentBlockType tr;
     currentBlockIndex := currentBlockIndex tr;
     sentenceBuffer := sentenceBuffer tr; counters := f (counters tr) |}.

Definition with_buffer (b : jsstring) (tr : t) : t :=
  {| enabled := enabled tr; outputStream := outputStream tr;
     currentBlockType := currentBlockType tr;
     currentBlockIndex := currentBlockIndex tr;
     sentenceBuffer := b; counters := counters tr |}.

Definition with_block (ty idx : jv) (tr : t) : t :=
  {| enabled := enabled tr; outputStream := outputStream tr;
     currentBlockType := ty; currentBlockIndex := idx;
     sentenceBuffer := sentenceBuffer tr; counters := counters tr |}.

(** [_writeSSE(event)] *)
Definition writeSSE (event : jv) (tr : t) : t :=
  if writable (outputStream tr) then
    {| enabled := enabled tr;
       outputStream := {| writable := true;
                          written := written (outputStream tr) ++ [event] |};
       currentBlockType := currentBlockType tr;
       currentBlockIndex := currentBlockIndex tr;
       sentenceBuffer := sentenceBuffer tr; counters := counters tr |}
  else tr.

(** [_passthrough(event)] *)
Definition passthrough (event : jv) (tr : t) : t :=
  writeSSE event
    (with_stats (fun s => {| totalEvents := totalEvents s; textDeltas := textDeltas s;
                             sentencesTranslated := sentencesTranslated s;
                             translationErrors := translationErrors s;
                             passedThrough := S (passedThrough s) |}) tr).

(** The event [_emitTextDelta] builds. *)
Definition textDelta (index : jv) (text : jsstring) : jv :=
  JObj [(str "type", JStr (str "content_block_delta"));
        (str "index", index);
        (str "delta", JObj [(str "type", JStr (str "text_delta"));
                            (str "text", JStr text)])].

(** [_emitTextDelta(text)] *)
Definition emitTextDelta (text : jsstring) (tr : t) : t :=
  match text with
  | [] => tr
  | _ :: _ => writeSSE (textDelta (currentBlockIndex tr) text) tr
  end.

(** [_handleBlockStart(event)] *)
Definition handleBlockStart (event : jv) (tr : t) : t :=
  let tr1 := with_block (or_else (get "type" (get "content_block" event)) JNull)
                        (get "index" event) tr in
  let tr2 := with_buffer (SentenceBuffer.reset (sentenceBuffer tr1)) tr1 in
  passthrough event tr2.

Section WithEnv.
Context `{Builtins} `{TranslationEnv}.

(** [_translateSentence(sentence)] *)
Definition translateSentence (sentence : jsstring) (tr : t) (w : world) :
    jsstring * t * world :=
  match sentence with
  | [] => (sentence, tr, w)
  | _ :: _ =>
      let e := CodeBlockProtector.extract sentence in
      match trim (CodeBlockProtector.cleanText e) with
      | [] => (sentence, tr, w)
      | _ :: _ =>
          match TranslationService.translate
                  (CodeBlockProtector.cleanText e) (str "en") (str "zh") w with
          | (Ok translated, w1) =>
              let result :=
                CodeBlockProtector.restore translated
                  (CodeBlockProtector.placeholders e) in
              (result,
               with_stats (fun s =>
                 {| totalEvents := totalEvents s; textDeltas := textDeltas s;
                    sentencesTranslated := S (sentencesTranslated s);
                    translationErrors := translationErrors s;
                    passedThrough := passedThrough s |}) tr,
               w1)
          | (Throw _, w1) =>
              (sentence,
               with_stats (fun s =>
                 {| totalEvents := totalEvents s; textDeltas := textDeltas s;
                    sentencesTranslated := sentencesTranslated s;
                    translationErrors := S (translationErrors s);
                    passedThrough := passedThrough s |}) tr,
               w1)
          end
      end
  end.

(** [const translated = await this._translateSentence(s);
     this._emitTextDelta(translated)] *)
Definition translateAndEmit (sentence : jsstring) (tr : t) (w : world) : t * world :=
  let '(translated, tr1, w1) := translateSentence sentence tr w in
  (emitTextDelta translated tr1, w1).

(** The [for ... of completeSentences] loop of [_handleDelta]. *)
Fixpoint emitSentences (sentences : list jsstring) (tr : t) (w : world) : t * world :=
  match sentences with
  | [] => (tr, w)
  | sentence :: rest =>
      let '(tr1, w1) := translateAndEmit sentence tr w in
      emitSentences rest tr1 w1
  end.

(** [_handleDelta(event)] *)
Definition handleDelta (event : jv) (tr : t) (w : world) : t * world :=
  if is_str "tool_use" (currentBlockType tr) then (passthrough event tr, w)
  else if is_str "text" (currentBlockType tr)
          && truthy (get "text" (get "delta" event)) then
    let tr1 := with_stats (fun s =>
      {| totalEvents := totalEvents s; textDeltas := S (textDeltas s);
         sentencesTranslated := sentencesTranslated s;
         translationErrors := translationErrors s;
         passedThrough := passedThrough s |}) tr in
    let text := get "text" (get "delta" event) in
    let '(completeSentences, buffer1) :=
      SentenceBuffer.add text (sentenceBuffer tr1) in
    emitSentences completeSentences (with_buffer buffer1 tr1) w
  else (passthrough event tr, w).

(** [_handleBlockStop(event)] *)
Definition handleBlockStop (event : jv) (tr : t) (w : world) : t * world :=
  let '(tr1, w1) :=
    if is_str "text" (currentBlockType tr) then
      let '(remaining, buffer1) := SentenceBuffer.flush (sentenceBuffer tr) in
      let tr0 := with_buffer buffer1 tr in
      match remaining, trim remaining with
      | _ :: _, _ :: _ => translateAndEmit remaining tr0 w
      | _, _ => (tr0, w)
      end
    else (tr, w) in
  (passthrough event (with_block JNull JNull tr1), w1).

(** [processEvent(event)], for an event that is an object with the
    properties [props]. *)
Definition processEvent (props : list (jsstring * jv)) (tr : t) (w : world) :
    t * world :=
  let event := JObj props in
  let tr0 := with_stats (fun s =>
    {| totalEvents := S (totalEvents s); textDeltas := textDeltas s;
       sentencesTranslated := sentencesTranslated s;
       translationErrors := translationErrors s;
       passedThrough := passedThrough s |}) tr in
  if negb (enabled tr0) then (passthrough event tr0, w)
  else if is_str "content_block_start" (get "type" event)
  then (handleBlockStart event tr0, w)
  else if is_str "content_block_delta" (get "type" event)
  then handleDelta event tr0 w
  else if is_str "content_block_stop" (get "type" event)
  then handleBlockStop event tr0 w
  else (passthrough event tr0, w).

(** The events of one response, processed in the order received. *)
Fixpoint processEvents (events : list (list (jsstring * jv))) (tr : t) (w : world) :
    t * world :=
  match events with
  | [] => (tr, w)
  | props :: rest =>
      let '(tr1, w1) := processEvent props tr w in
      processEvents rest tr1 w1
  end.

(** [finalize()]: whatever is still buffered is logged and dropped. *)
Definition finalize (tr : t) : t :=
  with_buffer (snd (SentenceBuffer.flush (sentenceBuffer tr))) tr.

End WithEnv.

(** [isEnabled()] *)
Definition isEnabled (tr : t) : bool := enabled tr.

(** What [getStats()] returns: the counters, [enabled] and [bufferLength]. *)
Record report := {
  report_stats : stats;
  report_enabled : bool;
  bufferLength : nat
}.

(** [getStats()] *)
Definition getStats (tr : t) : report :=
  {| report_stats := counters tr;
     report_enabled := enabled tr;
     bufferLength := SentenceBuffer.length (sentenceBuffer tr) |}.

End ResponseTranslator.

(** ** openaiResponsesRelayService.js *)

Module Relay.

Section WithBuiltins.
Context `{Builtins}.













(** *** The 429 path *)

(** [response.data]: a readable stream, with the text of the chunks read
    from it and whether it ended with an [error] event, or the value axios
    decoded. *)
Inductive responseData :=
| DStream (fullResponse : jsstring) (failed : bool)
| DValue (v : jv).

(** What the relay does to the outside, in order: its calls to the
    scheduler and to the account service, [abortController.abort()], and
    [res.status(status).json(body)]. *)
Inductive effect :=
| MarkAccountRateLimited (accountId : jv) (provider : jsstring)
                         (sessionHash : jv) (resetsInSeconds : jv)
| MarkAccountUnauthorized (accountId : jv) (provider : jsstring)
                          (sessionHash : jv) (reason : jsstring)
| UpdateAccount (accountId : jv) (fields : jv)
| Abort
| Respond (status : nat) (body : jv).

(** An error raised by a collaborator or by the runtime: an [Error] with its
    [message] and, for a system error, its [code].  It is not an axios error:
    it has no [response]. *)
Record failure := {
  message : jv;
  code : jv
}.

(** How the promise of a collaborator settles. *)
Inductive settled :=
| Resolves
| Rejects (error : failure).

(** [s.includes(p)] *)
Fixpoint includes (p s : jsstring) : bool :=
  starts_with p s || match s with [] => false | _ :: rest => includes p rest end.



(** The reset delay [_handle429Error] reads off [errorData]. *)
Definition resetsInSeconds (errorData : jv) : jv :=
  if truthy errorData && truthy (get "error" errorData) then
    if truthy (get "resets_in_seconds" (get "error" errorData))
    then get "resets_in_seconds" (get "error" errorData)
    else if truthy (get "resets_in" (get "error" errorData))
    then JNum (parseInt (get "resets_in" (get "error" errorData)))
    else JNull
  else JNull.


(** [sessionHash] as [handleRequest] computes it from the [session_id]
    header and the request body; hashing anything but a string throws. *)
Definition sessionHash (header body : jv) : outcome jv :=
  let sessionId := or_else header (get "session_id" body) in
  if truthy sessionId then
    match sessionId with
    | JStr s => Ok (JStr (sha256_hex s))
    | _ => Throw TypeError
    end
  else Ok JNull.

End WithBuiltins.
End Relay.

(** *** The other error statuses *)

Module ErrorStatus.
Section WithBuiltins.
Context `{Builtins}.

(** [errorData] in the branch for a status of 400 or more: a value, or the
    stream [response.data] itself when nothing took its place.  The stream
    is an object without the properties [error] and [message], and with a
    method [pipe]. *)
Inductive errorData :=
| EStream
| EValue (v : jv).

(** The [for ... of lines] loop inside the [try]: the first [data: ] line
    whose payload is neither empty nor [[DONE]] is parsed, and the loop
    stops there.  [Some None] stands for the SyntaxError of that
    [JSON.parse], [None] for a loop that found no such line. *)
Fixpoint first_payload (lines : list jsstring) : option (option jv) :=
  match lines with
  | [] => None
  | line :: rest =>
      if starts_with (str "data: ") line then
        let jsonStr := trim (drop 6 line) in
        match jsonStr with
        | [] => first_payload rest
        | _ :: _ =>
            if decide (jsonStr = str "[DONE]") then first_payload rest
            else Some (JSON_parse jsonStr)
        end
      else first_payload rest
  end.

(** [{ error: { message: fullResponse || 'Unknown error' } }] *)
Definition unparsed (fullResponse : jsstring) : jv :=
  JObj [(str "error",
         JObj [(str "message",
                JStr (match fullResponse with
                      | [] => str "Unknown error"
                      | _ :: _ => fullResponse
                      end))])].

(** [errorData] after the body of the response was read.  An [error]
    event of the stream resolves the promise that reads it: what was read
    until then is parsed. *)
Definition readErrorData (data : Relay.responseData) : errorData :=
  match data with
  | Relay.DValue v => EValue v
  | Relay.DStream fullResponse _ =>
      if Relay.includes (str "data: ") fullResponse then
        match first_payload (split [10%N] fullResponse) with
        | None => EStream
        | Some (Some v) => EValue v
        | Some None => EValue (unparsed fullResponse)
        end
      else
        match JSON_parse fullResponse with
        | Some v => EValue v
        | None => EValue (unparsed fullResponse)
        end
  end.

(** ['OpenAI Responses账号认证失败（401错误）'] *)
Definition reasonPrefix : jsstring :=
  str "OpenAI Responses"
  ++ [36134; 21495; 35748; 35777; 22833; 36133; 65288]%N
  ++ str "401" ++ [38169; 35823; 65289]%N.

(** [typeof v === 'string' && v.trim()]: the trimmed text, when it is a
    string that is not blank. *)
Definition trimmedString (v : jv) : option jsstring :=
  match v with
  | JStr s => match trim s with [] => None | c :: t => Some (c :: t) end
  | _ => None
  end.

(** The [reason] handed to the scheduler for a 401. *)
Definition unauthorizedReason (e : errorData) : jsstring :=
  match e with
  | EStream => reasonPrefix
  | EValue v =>
      if truthy v then
        match trimmedString v with
        | Some text => reasonPrefix ++ [65306%N] ++ text
        | None =>
            match (if truthy (get "error" v)
                   then trimmedString (get "message" (get "error" v))
                   else None) with
            | Some text => reasonPrefix ++ [65306%N] ++ text
            | None =>
                match trimmedString (get "message" v) with
                | Some text => reasonPrefix ++ [65306%N] ++ text
                | None => reasonPrefix
                end
            end
        end
      else reasonPrefix
  end.

(** The body of the 401 answer. *)
Definition unauthorizedResponse (e : errorData) : jv :=
  let fallback (message : jsstring) :=
    JObj [(str "error",
           JObj [(str "message", JStr message);
                 (str "type", JStr (str "unauthorized"));
                 (str "code", JStr (str "unauthorized"))])] in
  match e with
  | EStream => fallback (str "Unauthorized")
  | EValue v =>
      match v with
      | JObj _ => if truthy (get "pipe" v) then fallback (str "Unauthorized") else v
      | JArr _ => v
      | _ => fallback (default (str "Unauthorized") (trimmedString v))
      end
  end.

End WithBuiltins.
End ErrorStatus.

(** *** [handleRequest] after the upstream has answered with an error *)

Module Handler.
Section WithBuiltins.
Context `{Builtins}.

(** How a call of [handleRequest] ends. *)
Inductive completion :=
| Returned
| Rejected.

(** [{ error: { message: 'Internal server error', type: 'internal_error',
    details: error.message } }] *)
Definition internalError (error : Relay.failure) : jv :=
  JObj [(str "error",
         JObj [(str "message", JStr (str "Internal server error"));
               (str "type", JStr (str "internal_error"));
               (str "details", Relay.message error)])].

(** The [catch] block of [handleRequest], for an error raised before
    anything was sent to the client ([res.headersSent] is false).
    [aborted] is [abortController.signal.aborted] at that moment;
    [updateAccount] is how the promise of
    [openaiResponsesAccountService.updateAccount] settles, should it be
    called.  The error has no [response], so the branch for axios errors is
    not taken. *)
Definition handleRequestCatch (account : jv) (aborted : bool)
    (updateAccount : Relay.settled) (error : Relay.failure) :
    list Relay.effect * completion :=
  let abort := if aborted then [] else [Relay.Abort] in
  if is_str "ECONNREFUSED" (Relay.code error)
     || is_str "ETIMEDOUT" (Relay.code error) then
    let update :=
      Relay.UpdateAccount (get "id" account)
        (JObj [(str "status", JStr (str "error"));
               (str "errorMessage",
                JStr (str "Connection error: "
                      ++ match Relay.code error with
                         | JStr s => s
                         | _ => []
                         end))]) in
    match updateAccount with
    | Relay.Resolves =>
        (abort ++ [update; Relay.Respond 500 (internalError error)], Returned)
    | Relay.Rejects _ => (abort ++ [update], Rejected)
    end
  else (abort ++ [Relay.Respond 500 (internalError error)], Returned).


(** [handleRequest], from the point where the upstream answered with a
    status of 400 or more other than 429.  The promise of
    [markAccountUnauthorized] may reject: the rejection is logged and the
    answer is sent all the same.  When [errorData] is still the stream,
    [res.json] cannot serialise it and throws a TypeError, whose message is
    [circular]; the [catch] block takes over. *)
Definition handleRequestError (status : nat) (account header body : jv)
    (data : Relay.responseData) (circular : jsstring) (aborted : bool) :
    list Relay.effect * completion :=
  match Relay.sessionHash header body with
  | Throw _ => ([], Rejected)
  | Ok hash =>
      let errorData := ErrorStatus.readErrorData data in
      if (status =? 401)%nat then
        ([Relay.MarkAccountUnauthorized (get "id" account)
            (str "openai-responses") hash
            (ErrorStatus.unauthorizedReason errorData);
          Relay.Respond 401 (ErrorStatus.unauthorizedResponse errorData)],
         Returned)
      else
        match errorData with
        | ErrorStatus.EValue v => ([Relay.Respond status v], Returned)
        | ErrorStatus.EStream =>
            handleRequestCatch account aborted Relay.Resolves
              {| Relay.message := JStr circular; Relay.code := JUndef |}
        end
  end.

End WithBuiltins.
End Handler.

(** *** The streamed response *)

Module StreamResponse.
Section WithBuiltins.
Context `{Builtins}.

(** [chunk.toString()] for a [Buffer]: Node's decoder of UTF-8. *)
Variable toString : list Byte.byte -> jsstring.

(** The variables [parseSSEForUsage] assigns to. *)
Record capture := {
  usageData : jv;
  actualModel : jv;
  rateLimitDetected : bool;
  rateLimitResetsInSeconds : jv
}.

Definition isRateLimit (type : jv) : bool :=
  is_str "rate_limit_error" type || is_str "usage_limit_reached" type
  || is_str "rate_limit_exceeded" type.

(** The body of the [for ... of lines] loop of [parseSSEForUsage].  A line
    that does not parse, or that parses to [null], throws inside the [try]
    before anything is assigned. *)
Definition parseLine (c : capture) (line : jsstring) : capture :=
  if starts_with (str "data:") line then
    let jsonStr := trim (drop 5 line) in
    if decide (jsonStr = str "[DONE]") then c
    else
      match JSON_parse jsonStr with
      | None => c
      | Some eventData =>
          let response := get "response" eventData in
          let c1 :=
            if is_str "response.completed" (get "type" eventData) && truthy response
            then
              {| usageData :=
                   if truthy (get "usage" response) then get "usage" response
                   else usageData c;
                 actualModel :=
                   if truthy (get "model" response) then get "model" response
                   else actualModel c;
                 rateLimitDetected := rateLimitDetected c;
                 rateLimitResetsInSeconds := rateLimitResetsInSeconds c |}
            else c in
          let error := get "error" eventData in
          if truthy error && isRateLimit (get "type" error) then
            {| usageData := usageData c1;
               actualModel := actualModel c1;
               rateLimitDetected := true;
               rateLimitResetsInSeconds :=
                 if truthy (get "resets_in_seconds" error)
                 then get "resets_in_seconds" error
                 else rateLimitResetsInSeconds c1 |}
          else c1
      end
  else c.

(** [parseSSEForUsage(data)] *)
Definition parseSSEForUsage (data : jsstring) (c : capture) : capture :=
  foldl parseLine c (split [10%N] data).

(** [for (const event of events) { if (event.trim()) parseSSEForUsage(event) }] *)
Definition parseEvents (events : list jsstring) (c : capture) : capture :=
  foldl (fun c event =>
           match trim event with
           | [] => c
           | _ :: _ => parseSSEForUsage event c
           end) c events.

(** The state of one streamed response: what was captured, the text not yet
    cut into events, [streamEnded], and the chunks written to the client. *)
Record state := {
  captured : capture;
  buffer : jsstring;
  streamEnded : bool;
  forwarded : list (list Byte.byte)
}.

Definition start : state :=
  {| captured := {| usageData := JNull; actualModel := JNull;
                    rateLimitDetected := false;
                    rateLimitResetsInSeconds := JNull |};
     buffer := [];
     streamEnded := false;
     forwarded := [] |}.

(** The handler of [data]: [destroyed] is [res.destroyed] at that moment,
    [chunk] the bytes of the chunk.  Each chunk is decoded on its own. *)
Definition onData (destroyed : bool) (chunk : list Byte.byte) (st : state) :
    state :=
  let chunkStr := toString chunk in
  let forwarded1 :=
    if negb destroyed && negb (streamEnded st) then forwarded st ++ [chunk]
    else forwarded st in
  let buffer1 := buffer st ++ chunkStr in
  if Relay.includes [10; 10]%N buffer1 then
    let events := split [10; 10]%N buffer1 in
    {| captured := parseEvents (removelast events) (captured st);
       buffer := default [] (last events);
       streamEnded := streamEnded st;
       forwarded := forwarded1 |}
  else
    {| captured := captured st; buffer := buffer1;
       streamEnded := streamEnded st; forwarded := forwarded1 |}.

(** The handler of [end], up to the point where the usage is recorded:
    [streamEnded] is set and what is left in the buffer is parsed. *)
Definition onEnd (st : state) : state :=
  {| captured :=
       match trim (buffer st) with
       | [] => captured st
       | _ :: _ => parseSSEForUsage (buffer st) (captured st)
       end;
     buffer := buffer st;
     streamEnded := true;
     forwarded := forwarded st |}.

End WithBuiltins.
End StreamResponse.

(** *** The cost estimate *)

Module Cost.
Import PrimFloat.
Section WithLowerCase.

(** [s.toLowerCase()] *)
Variable toLowerCase : jsstring -> jsstring.

(** Prices per thousand tokens. *)
Record rate := {
  input : float;
  output : float
}.

Definition rates : list (jsstring * rate) :=
  [(str "gpt-4", {| input := 0.03; output := 0.06 |});
   (str "gpt-4-turbo", {| input := 0.01; output := 0.03 |});
   (str "gpt-3.5-turbo", {| input := 0.0005; output := 0.0015 |});
   (str "claude-3-opus", {| input := 0.015; output := 0.075 |});
   (str "claude-3-sonnet", {| input := 0.003; output := 0.015 |});
   (str "claude-3-haiku", {| input := 0.00025; output := 0.00125 |})]%float.

(** The rate the loop over [Object.entries(rates)] settles on: that of the
    first key the lower-cased model name includes, or else
    [rates['gpt-3.5-turbo']]. *)
Definition rateFor (model : jsstring) : rate :=
  match List.find (fun entry : jsstring * rate =>
                     Relay.includes (toLowerCase entry.1) (toLowerCase model))
                  rates with
  | Some entry => entry.2
  | None => default {| input := 0; output := 0 |}
              (assoc (str "gpt-3.5-turbo") rates)
  end.

(** [_estimateCost(model, inputTokens, outputTokens)] for a string [model]
    and two numbers. *)
Definition estimateCost (model : jsstring) (inputTokens outputTokens : float) :
    float :=
  let rate := rateFor model in
  let inputCost := (inputTokens / 1000 * input rate)%float in
  let outputCost := (outputTokens / 1000 * output rate)%float in
  (inputCost + outputCost)%float.

End WithLowerCase.
End Cost.

(** ** requestTranslator.js *)

(** JSON texts: what [JSON.stringify] produces and [JSON.parse] reads. *)
Inductive json :=
| Jnull
| Jbool (b : bool)
| Jnum (z : Z)
| Jstr (s : jsstring)
| Jarr (elems : list json)
| Jobj (props : list (jsstring * json)).

Module RequestTranslator.

(** The request envelope is an object graph: [translateRequest] copies it and
    assigns to properties of the copy.  Objects and arrays are cells of a
    heap, addressed by their index; a new cell goes to the end. *)
Inductive val :=
| VUndef
| VNull
| VBool (b : bool)
| VNum (n : jsnum)
| VStr (s : jsstring)
| VRef (l : nat).

Inductive cell :=
| CObj (props : list (jsstring * val))
| CArr (elems : list val).

Abbreviation heap := (list cell).

Definition vtruthy (v : val) : bool :=
  match v with
  | VUndef | VNull => false
  | VBool b => b
  | VNum n => num_truthy n
  | VStr s => match s with [] => false | _ :: _ => true end
  | VRef _ => true
  end.

(** [v?.key] *)
Definition getv (key : string) (v : val) (h : heap) : val :=
  match v with
  | VRef l =>
      match h !! l with
      | Some (CObj props) => default VUndef (assoc (str key) props)
      | _ => VUndef
      end
  | _ => VUndef
  end.

(** [Array.isArray(v)] *)
Definition isArray (v : val) (h : heap) : bool :=
  match v with
  | VRef l => match h !! l with Some (CArr _) => true | _ => false end
  | _ => false
  end.

Definition vis_str (lit : string) (v : val) : bool :=
  match v with
  | VStr s => bool_decide (s = str lit)
  | _ => false
  end.

(** *** [JSON.stringify] and [JSON.parse] *)

Fixpoint mapM {A B : Type} (f : A -> option B) (l : list A) : option (list B) :=
  match l with
  | [] => Some []
  | a :: rest =>
      match f a, mapM f rest with
      | Some b, Some bs => Some (b :: bs)
      | _, _ => None
      end
  end.

(** A property whose value serialises to nothing (it is [undefined]) is left
    out of an object. *)
Fixpoint stringify_props (f : val -> option (option json))
    (props : list (jsstring * val)) : option (list (jsstring * json)) :=
  match props with
  | [] => Some []
  | (k, v) :: rest =>
      match f v, stringify_props f rest with
      | Some (Some j), Some js => Some ((k, j) :: js)
      | Some None, Some js => Some js
      | _, _ => None
      end
  end.

(** [JSON.stringify(v)], as the JSON it denotes.  The outer [None] is the
    TypeError for a cyclic structure: a chain of nested objects longer than
    the heap visits a cell twice, so [stringify (S (length h))] fails only
    on a cycle.  The inner [None] is [undefined].  In an array [undefined]
    becomes [null]; so do NaN and the infinities everywhere. *)
Fixpoint stringify (fuel : nat) (h : heap) (v : val) : option (option json) :=
  match fuel with
  | O => None
  | S fuel' =>
      match v with
      | VUndef => Some None
      | VNull => Some (Some Jnull)
      | VBool b => Some (Some (Jbool b))
      | VNum (NInt z) => Some (Some (Jnum z))
      | VNum _ => Some (Some Jnull)
      | VStr s => Some (Some (Jstr s))
      | VRef l =>
          match h !! l with
          | Some (CObj props) =>
              (fun js => Some (Jobj js)) <$> stringify_props (stringify fuel' h) props
          | Some (CArr elems) =>
              (fun js => Some (Jarr js)) <$>
                mapM (fun e => default Jnull <$> stringify fuel' h e) elems
          | None => None
          end
      end
  end.

(** [JSON.parse(text)] for the text of [j]: the value and the heap with the
    new cells, children before their parent. *)
Fixpoint parse (j : json) (h : heap) : val * heap :=
  match j with
  | Jnull => (VNull, h)
  | Jbool b => (VBool b, h)
  | Jnum z => (VNum (NInt z), h)
  | Jstr s => (VStr s, h)
  | Jarr elems =>
      let '(vs, h1) :=
        (fix go (l : list json) (h : heap) : list val * heap :=
           match l with
           | [] => ([], h)
           | e :: rest =>
               let '(v, h1) := parse e h in
               let '(vs, h2) := go rest h1 in
               (v :: vs, h2)
           end) elems h in
      (VRef (length h1), h1 ++ [CArr vs])
  | Jobj props =>
      let '(ps, h1) :=
        (fix go (l : list (jsstring * json)) (h : heap) :
             list (jsstring * val) * heap :=
           match l with
           | [] => ([], h)
           | (k, e) :: rest =>
               let '(v, h1) := parse e h in
               let '(ps, h2) := go rest h1 in
               ((k, v) :: ps, h2)
           end) props h in
      (VRef (length h1), h1 ++ [CObj ps])
  end.

Section WithEnv.
Context `{Builtins} `{TranslationEnv}.

(** *** Computations on the heap and the translation service that may throw *)

Definition M (A : Type) : Type := heap -> world -> outcome A * heap * world.

Definition ret {A : Type} (a : A) : M A := fun h w => (Ok a, h, w).

Definition throw {A : Type} (e : error) : M A := fun h w => (Throw e, h, w).

Definition bind {A B : Type} (m : M A) (k : A -> M B) : M B :=
  fun h w =>
    match m h w with
    | (Ok a, h1, w1) => k a h1 w1
    | (Throw e, h1, w1) => (Throw e, h1, w1)
    end.

(** [try { m } catch (error) { handler }] *)
Definition catch {A : Type} (m : M A) (handler : M A) : M A :=
  fun h w =>
    match m h w with
    | (Ok a, h1, w1) => (Ok a, h1, w1)
    | (Throw _, h1, w1) => handler h1 w1
    end.

Definition lift {A : Type} (f : world -> outcome A * world) : M A :=
  fun h w => let '(r, w1) := f w in (r, h, w1).

Definition read {A : Type} (f : heap -> A) : M A := fun h w => (Ok (f h), h, w).

Notation "x <- m ;; k" := (bind m (fun x => k))
  (at level 100, m at next level, k at level 200, right associativity).

(** A new object or array. *)
Definition alloc (c : cell) : M val :=
  fun h w => (Ok (VRef (length h)), h ++ [c], w).

(** [v.key] where [v] may be null or undefined. *)
Definition get_strict (key : string) (v : val) : M val :=
  match v with
  | VUndef | VNull => throw TypeError
  | _ => read (getv key v)
  end.

(** [target.key = v].  The translator assigns to objects only. *)
Definition set_prop (target : val) (key : string) (v : val) : M unit :=
  match target with
  | VRef l =>
      fun h w =>
        (Ok tt,
         alter (fun c => match c with
                         | CObj props => CObj (CodeBlockProtector.obj_set (str key) v props)
                         | CArr elems => CArr elems
                         end) l h,
         w)
  | _ => throw TypeError
  end.

(** [target.push(v)] *)
Definition push (target : val) (v : val) : M unit :=
  match target with
  | VRef l =>
      fun h w =>
        (Ok tt,
         alter (fun c => match c with
                         | CArr elems => CArr (elems ++ [v])
                         | CObj props => CObj props
                         end) l h,
         w)
  | _ => throw TypeError
  end.

(** The elements of an array, for [for ... of]. *)
Definition elements (v : val) : M (list val) :=
  fun h w =>
    match v with
    | VRef l =>
        match h !! l with
        | Some (CArr elems) => (Ok elems, h, w)
        | _ => (Throw TypeError, h, w)
        end
    | _ => (Throw TypeError, h, w)
    end.

(** [{ ...block }] for an object [block]. *)
Definition spread (block : val) : M val :=
  fun h w =>
    match block with
    | VRef l =>
        match h !! l with
        | Some (CObj props) => alloc (CObj props) h w
        | _ => alloc (CObj []) h w
        end
    | _ => alloc (CObj []) h w
    end.

Fixpoint forM {A : Type} (l : list A) (body : A -> M unit) : M unit :=
  match l with
  | [] => ret tt
  | a :: rest => _ <- body a ;; forM rest body
  end.

(** [JSON.parse(JSON.stringify(v))] *)
Definition deepCopy (v : val) : M val :=
  fun h w =>
    match stringify (S (length h)) h v with
    | None => (Throw TypeError, h, w)
    | Some None => (Throw SyntaxError, h, w)
    | Some (Some j) => let '(v', h') := parse j h in (Ok v', h', w)
    end.

(** [_translateText(text)].  [text.trim] is called before the [try]: a
    truthy [text] that is not a string throws. *)
Definition translateText (text : val) : M val :=
  match text with
  | VStr s =>
      match s, trim s with
      | _ :: _, _ :: _ =>
          if negb (LanguageDetector.containsChinese s) then ret text
          else
            let e := CodeBlockProtector.extract s in
            match trim (CodeBlockProtector.cleanText e) with
            | [] => ret text
            | _ :: _ =>
                catch
                  (translatedText <-
                     lift (TranslationService.translate
                             (CodeBlockProtector.cleanText e) (str "zh") (str "en")) ;;
                   ret (VStr (CodeBlockProtector.restore translatedText
                                (CodeBlockProtector.placeholders e))))
                  (ret text)
            end
      | _, _ => ret text
      end
  | _ => if vtruthy text then throw TypeError else ret text
  end.

(** The body of the [for ... of content] loop of [_translateContent]. *)
Definition translateBlock (translatedBlocks block : val) : M unit :=
  type <- get_strict "type" block ;;
  text <- read (getv "text" block) ;;
  if vis_str "text" type && vtruthy text then
    translatedBlock <- spread block ;;
    translated <- translateText text ;;
    _ <- set_prop translatedBlock "text" translated ;;
    push translatedBlocks translatedBlock
  else push translatedBlocks block.

(** [_translateContent(content)] *)
Definition translateContent (content : val) : M val :=
  match content with
  | VStr _ => translateText content
  | _ =>
      isArr <- read (isArray content) ;;
      if isArr : bool then
        translatedBlocks <- alloc (CArr []) ;;
        blocks <- elements content ;;
        _ <- forM blocks (translateBlock translatedBlocks) ;;
        ret translatedBlocks
      else ret content
  end.

(** The body of the [for ... of translatedBody.messages] loop of
    [translateRequest]. *)
Definition translateMessage (message : val) : M unit :=
  role <- get_strict "role" message ;;
  if vis_str "user" role then
    content <- read (getv "content" message) ;;
    translated <- translateContent content ;;
    set_prop message "content" translated
  else ret tt.

(** The [try] block of [translateRequest]. *)
Definition translateMessages (requestBody : val) : M val :=
  translatedBody <- deepCopy requestBody ;;
  messages <- read (getv "messages" translatedBody) ;;
  elems <- elements messages ;;
  _ <- forM elems translateMessage ;;
  ret translatedBody.

(** [translateRequest(requestBody, account)] *)
Definition translateRequest (requestBody : val) (account : jv) : M val :=
  if negb (truthy (get "enableTranslation" account)) then ret requestBody
  else
    messages <- read (getv "messages" requestBody) ;;
    isArr <- read (isArray messages) ;;
    if negb (vtruthy messages) || negb isArr then ret requestBody
    else catch (translateMessages requestBody) (ret requestBody).

End WithEnv.
End RequestTranslator.

(** ** Concrete collaborators, for the examples *)

(** A runtime whose [JSON.parse] knows no text and whose [Number] reads no
    string. *)
Definition bare_builtins : Builtins :=
  {| JSON_parse := fun _ => None;
     string_to_number := fun _ => NNaN;
     array_to_string := fun _ => [];
     parseInt := fun _ => NNaN;
     sha256_hex := fun s => s;
     native_source := fun _ => str "function () { [native code] }" |}.

(** A runtime whose [JSON.parse] reads the texts of a table. *)
Definition builtins_with_json (table : list (jsstring * jv)) : Builtins :=
  {| JSON_parse := fun text => assoc text table;
     string_to_number := fun _ => NNaN;
     array_to_string := fun _ => [];
     parseInt := fun _ => NNaN;
     sha256_hex := fun s => s;
     native_source := fun _ => str "function () { [native code] }" |}.

(** A decoder for 7-bit text: a byte below 128 is the code unit of the same
    number.  The bytes from 128 up, which [toString] decodes together with
    their neighbours, do not occur in the examples; each is read as
    U+FFFD. *)
Definition ascii_toString (bytes : list Byte.byte) : jsstring :=
  (fun b => if (Byte.to_N b <? 128)%N then Byte.to_N b else 65533%N) <$> bytes.

(** A translation service with an association list for a cache and a
    translator that answers every request with [reply]. *)
Definition fixed_reply (reply : option jsstring) : TranslationEnv :=
  {| world := list (jsstring * jsstring);
     cache_get := fun key w => (assoc key w, w);
     cache_set := fun key value w => CodeBlockProtector.obj_set key value w;
     makeOpenAICompatibleRequest := fun _ _ w => (reply, w) |}.

(** A translation service that is not set up: nothing is cached and every
    request to the translator account is rejected. *)
Definition no_service : TranslationEnv :=
  {| world := unit;
     cache_get := fun _ w => (None, w);
     cache_set := fun _ _ w => w;
     makeOpenAICompatibleRequest := fun _ _ w => (None, w) |}.

(** ** Vocabulary of the properties *)

(** A sentence that ends with one of the terminators. *)
Definition ends_with_terminator (sentence : jsstring) : Prop :=
  exists c, last sentence = Some c /\ SentenceBuffer.sentenceEnders c = true.

(** The language codes [languageNames] lists. *)
Definition supported_code (code : jsstring) : Prop :=
  code = str "zh" \/ code = str "en".

(** A code that is the name of a member of [Object.prototype].  The lookup
    [languageNames[code]] finds that member; the properties below say
    nothing of such codes. *)
Definition inherited_name (code : jsstring) : Prop :=
  code ∈ TranslationService.object_prototype_keys.

(** The type of the current block after an event: a [content_block_start]
    sets it to the type of its block (or to [null]), a [content_block_stop]
    clears it, and any other event leaves it. *)
Definition block_after (blockType event : jv) : jv :=
  if is_str "content_block_start" (get "type" event)
  then or_else (get "type" (get "content_block" event)) JNull
  else if is_str "content_block_stop" (get "type" event) then JNull
  else blockType.

(** A text event: a [content_block_delta] with a truthy [delta.text] that
    arrives while the current block has the type ['text'].  These are the
    events [_handleDelta] hands to the sentence buffer; every other event,
    a delta with a text outside a text block included, is a non-text
    event. *)
Definition text_delta_in (blockType event : jv) : bool :=
  is_str "content_block_delta" (get "type" event)
  && (is_str "text" blockType && truthy (get "text" (get "delta" event))).

(** The non-text events among the events received, in the order received;
    [blockType] is the type of the current block when the first arrives. *)
Fixpoint non_text_events (blockType : jv) (events : list (list (jsstring * jv))) :
    list jv :=
  match events with
  | [] => []
  | props :: rest =>
      (if text_delta_in blockType (JObj props) then [] else [JObj props])
      ++ non_text_events (block_after blockType (JObj props)) rest
  end.

(** [written] holds the events [received], in their order, and between them
    nothing but text deltas built by [_emitTextDelta]. *)
Inductive woven : list jv -> list jv -> Prop :=
| woven_nil : woven [] []
| woven_event (event : jv) (received written : list jv) :
    woven received written -> woven (event :: received) (event :: written)
| woven_delta (index : jv) (c : N) (text : jsstring) (received written : list jv) :
    woven received written ->
    woven received (ResponseTranslator.textDelta index (c :: text) :: written).

(** [tr'] is [tr] after the events [new] were written to its stream. *)
Definition wrote (tr tr' : ResponseTranslator.t) (new : list jv) : Prop :=
  ResponseTranslator.writable (ResponseTranslator.outputStream tr') = true
  /\ ResponseTranslator.written (ResponseTranslator.outputStream tr')
     = ResponseTranslator.written (ResponseTranslator.outputStream tr) ++ new
  /\ ResponseTranslator.enabled tr' = ResponseTranslator.enabled tr.




(** ** A sample response: scenarios S5 and S6 *)

Definition ev_block_start (index : Z) (type : string) : list (jsstring * jv) :=
  [(str "type", JStr (str "content_block_start"));
   (str "index", JNum (NInt index));
   (str "content_block", JObj [(str "type", JStr (str type))])].

Definition ev_text (index : Z) (text : string) : list (jsstring * jv) :=
  [(str "type", JStr (str "content_block_delta"));
   (str "index", JNum (NInt index));
   (str "delta", JObj [(str "type", JStr (str "text_delta"));
                       (str "text", JStr (str text))])].

Definition ev_json (index : Z) (partial : string) : list (jsstring * jv) :=
  [(str "type", JStr (str "content_block_delta"));
   (str "index", JNum (NInt index));
   (str "delta", JObj [(str "type", JStr (str "input_json_delta"));
                       (str "partial_json", JStr (str partial))])].

Definition ev_block_stop (index : Z) : list (jsstring * jv) :=
  [(str "type", JStr (str "content_block_stop"));
   (str "index", JNum (NInt index))].

Definition ev_plain (type : string) : list (jsstring * jv) :=
  [(str "type", JStr (str type))].

Definition sample_events : list (list (jsstring * jv)) :=
  [ev_plain "message_start";
   ev_block_start 0 "text";
   ev_text 0 "Here is ";
   ev_text 0 "a server.";
   ev_text 0 " Done";
   ev_block_stop 0;
   ev_plain "ping";
   ev_block_start 1 "tool_use";
   ev_json 1 "{'path':'/tmp'}";
   ev_block_stop 1;
   ev_plain "message_stop"].

Definition open_stream : ResponseTranslator.stream :=
  {| ResponseTranslator.writable := true; ResponseTranslator.written := [] |}.

Definition enabled_account : jv := JObj [(str "enableTranslation", JBool true)].

(** ** The heap of the request translator *)

Module RT := RequestTranslator.

(** [get] on JSON. *)
Definition json_get (key : string) (j : json) : option json :=
  match j with
  | Jobj props => assoc (str key) props
  | _ => None
  end.

(** A message whose [role] is ["user"]. *)
Definition is_user (message : json) : Prop :=
  json_get "role" message = Some (Jstr (str "user")).

(** The values a cell holds. *)
Definition cell_vals (c : RT.cell) : list RT.val :=
  match c with
  | RT.CObj props => props.*2
  | RT.CArr elems => elems
  end.

(** [reach h v l]: the object or array at address [l] can be reached from
    the value [v]; these are the cells an assignment through [v] can hit. *)
Inductive reach (h : list RT.cell) : RT.val -> nat -> Prop :=
| reach_here (l : nat) : reach h (RT.VRef l) l
| reach_step (l : nat) (c : RT.cell) (v : RT.val) (l' : nat) :
    h !! l = Some c -> v ∈ cell_vals c -> reach h v l' ->
    reach h (RT.VRef l) l'.

(** A value that, if it is a reference, points at or above [C]. *)
Definition above (C : nat) (v : RT.val) : Prop :=
  match v with
  | RT.VRef l => C <= l
  | _ => True
  end.

(** The cells at or above [C] refer to cells at or above [C] only. *)
Definition closed_above (C : nat) (h : list RT.cell) : Prop :=
  forall l c, C <= l -> h !! l = Some c -> Forall (above C) (cell_vals c).

(** [h'] has the cells of [h], unchanged below address [F], and maybe more. *)
Definition ext (F : nat) (h h' : list RT.cell) : Prop :=
  length h <= length h' /\ forall l, l < F -> h' !! l = h !! l.

(** [repr h lo hi v j]: in [h] the value [v] is a tree that reads as the JSON
    [j] and occupies exactly the cells [lo] to [hi - 1], each child before
    its parent: the layout [JSON.parse] produces. *)
Inductive repr (h : list RT.cell) : nat -> nat -> RT.val -> json -> Prop :=
| repr_null (lo : nat) : repr h lo lo RT.VNull Jnull
| repr_bool (lo : nat) (b : bool) : repr h lo lo (RT.VBool b) (Jbool b)
| repr_num (lo : nat) (z : Z) : repr h lo lo (RT.VNum (NInt z)) (Jnum z)
| repr_str (lo : nat) (s : jsstring) : repr h lo lo (RT.VStr s) (Jstr s)
| repr_arr (lo l : nat) (vs : list RT.val) (js : list json) :
    reprs h lo l vs js -> h !! l = Some (RT.CArr vs) ->
    repr h lo (S l) (RT.VRef l) (Jarr js)
| repr_obj (lo l : nat) (ps : list (jsstring * RT.val))
      (jps : list (jsstring * json)) :
    reprs h lo l ps.*2 jps.*2 -> ps.*1 = jps.*1 ->
    h !! l = Some (RT.CObj ps) ->
    repr h lo (S l) (RT.VRef l) (Jobj jps)
with reprs (h : list RT.cell) :
    nat -> nat -> list RT.val -> list json -> Prop :=
| reprs_nil (lo : nat) : reprs h lo lo [] []
| reprs_cons (lo mid hi : nat) (v : RT.val) (vs : list RT.val)
      (j : json) (js : list json) :
    repr h lo mid v j -> reprs h mid hi vs js ->
    reprs h lo hi (v :: vs) (j :: js).

Scheme repr_min := Minimality for repr Sort Prop
  with reprs_min := Minimality for reprs Sort Prop.
Combined Scheme repr_mutind from repr_min, reprs_min.

(** The two loops inside [parse]. *)
Definition parse_list : list json -> list RT.cell -> list RT.val * list RT.cell :=
  fix go (l : list json) (h : list RT.cell) : list RT.val * list RT.cell :=
    match l with
    | [] => ([], h)
    | e :: rest =>
        let '(v, h1) := RT.parse e h in
        let '(vs, h2) := go rest h1 in
        (v :: vs, h2)
    end.

Definition parse_props :
    list (jsstring * json) -> list RT.cell ->
    list (jsstring * RT.val) * list RT.cell :=
  fix go (l : list (jsstring * json)) (h : list RT.cell) :
      list (jsstring * RT.val) * list RT.cell :=
    match l with
    | [] => ([], h)
    | (k, e) :: rest =>
        let '(v, h1) := RT.parse e h in
        let '(ps, h2) := go rest h1 in
        ((k, v) :: ps, h2)
    end.

(** What [parse] promises for one JSON text. *)
Definition parse_ok (j : json) : Prop :=
  forall h v h', RT.parse j h = (v, h') ->
    (exists new, h' = h ++ new)
    /\ repr h' (length h) (length h') v j
    /\ forall C, C <= length h -> closed_above C h -> closed_above C h'.


(** ** A sample request: scenario S4 *)

(** [{model: "m", messages: [{role: "system", content: "Be brief"},
     {role: "user", content: "你好"}]}] *)
Definition sample_body : json :=
  Jobj [(str "model", Jstr (str "m"));
        (str "messages",
         Jarr [Jobj [(str "role", Jstr (str "system"));
                     (str "content", Jstr (str "Be brief"))];
               Jobj [(str "role", Jstr (str "user"));
                     (str "content", Jstr [20320%N; 22909%N])]])].

(** The heap and the reference [JSON.parse] yields for it. *)
Definition sample_heap : list RT.cell := snd (RT.parse sample_body []).
Definition sample_request : RT.val := fst (RT.parse sample_body []).

Definition string_false_account : jv :=
  JObj [(str "enableTranslation", JStr (str "false"))].

Definition disabled_account : jv :=
  JObj [(str "enableTranslation", JBool false)].

(** ** Vocabulary of the further properties *)

(** A text without a sentence terminator. *)
Definition no_terminator (s : jsstring) : Prop :=
  forallb (fun c => negb (SentenceBuffer.sentenceEnders c)) s = true.

(** A sentence with one terminator, its last code unit. *)
Definition one_terminator (sentence : jsstring) : Prop :=
  exists pre c,
    sentence = pre ++ [c] /\ SentenceBuffer.sentenceEnders c = true
    /\ no_terminator pre.

(** What [add] appends to the buffer for a value: a string as it is, nothing
    for anything else. *)
Definition text_of (v : jv) : jsstring :=
  match v with
  | JStr s => s
  | _ => []
  end.

(** The key [extract] makes for its [i]-th placeholder. *)
Definition placeholder_key (tag : jsstring) (i : nat) : jsstring :=
  str "__" ++ tag ++ str "_" ++ nat_to_string i ++ str "__".

(** Keys made by [extract] with a counter below [i]. *)
Definition numbered_below (i : nat) (keys : list jsstring) : Prop :=
  Forall (fun k => exists tag j,
            (tag = str "CODE_BLOCK" \/ tag = str "INLINE_CODE")
            /\ j < i /\ k = placeholder_key tag j) keys.

(** A [content_block_delta] event that carries the non-empty text [t]. *)
Definition is_text_event (props : list (jsstring * jv)) (t : jsstring) : Prop :=
  is_str "content_block_delta" (get "type" (JObj props)) = true
  /\ get "text" (get "delta" (JObj props)) = JStr t
  /\ t <> [].


(** [tr'] has the block state, the buffer and the event counters of [tr]. *)
Definition same_block (tr tr' : ResponseTranslator.t) : Prop :=
  ResponseTranslator.enabled tr' = ResponseTranslator.enabled tr
  /\ ResponseTranslator.currentBlockType tr' = ResponseTranslator.currentBlockType tr
  /\ ResponseTranslator.currentBlockIndex tr' = ResponseTranslator.currentBlockIndex tr
  /\ ResponseTranslator.sentenceBuffer tr' = ResponseTranslator.sentenceBuffer tr
  /\ ResponseTranslator.totalEvents (ResponseTranslator.counters tr')
     = ResponseTranslator.totalEvents (ResponseTranslator.counters tr)
  /\ ResponseTranslator.textDeltas (ResponseTranslator.counters tr')
     = ResponseTranslator.textDeltas (ResponseTranslator.counters tr)
  /\ ResponseTranslator.passedThrough (ResponseTranslator.counters tr')
     = ResponseTranslator.passedThrough (ResponseTranslator.counters tr).

(** Two translators with the same stream, the same block and the same
    translation counters: they differ at most in their buffers and in the
    counters of events. *)
Definition agree (tr1 tr2 : ResponseTranslator.t) : Prop :=
  ResponseTranslator.outputStream tr1 = ResponseTranslator.outputStream tr2
  /\ ResponseTranslator.enabled tr1 = ResponseTranslator.enabled tr2
  /\ ResponseTranslator.currentBlockType tr1 = ResponseTranslator.currentBlockType tr2
  /\ ResponseTranslator.currentBlockIndex tr1 = ResponseTranslator.currentBlockIndex tr2
  /\ ResponseTranslator.sentencesTranslated (ResponseTranslator.counters tr1)
     = ResponseTranslator.sentencesTranslated (ResponseTranslator.counters tr2)
  /\ ResponseTranslator.translationErrors (ResponseTranslator.counters tr1)
     = ResponseTranslator.translationErrors (ResponseTranslator.counters tr2).

(** A translator in the middle of the text block of index 0. *)
Definition in_text_block : ResponseTranslator.t :=
  {| ResponseTranslator.enabled := true;
     ResponseTranslator.outputStream := open_stream;
     ResponseTranslator.currentBlockType := JStr (str "text");
     ResponseTranslator.currentBlockIndex := JNum (NInt 0);
     ResponseTranslator.sentenceBuffer := [];
     ResponseTranslator.counters :=
       {| ResponseTranslator.totalEvents := 1;
          ResponseTranslator.textDeltas := 0;
          ResponseTranslator.sentencesTranslated := 0;
          ResponseTranslator.translationErrors := 0;
          ResponseTranslator.passedThrough := 1 |} |}.

(** A stream that is not writable, and an account whose flag is neither
    [true] nor ['true']. *)
Definition closed_stream : ResponseTranslator.stream :=
  {| ResponseTranslator.writable := false; ResponseTranslator.written := [] |}.

Definition numeric_flag_account : jv :=
  JObj [(str "enableTranslation", JNum (NInt 1))].

(** A scanner for blank lines, one code unit at a time: the events cut so
    far and, reversed, the text after the last cut. *)
Definition scan_step (st : list jsstring * jsstring) (c : N) :
    list jsstring * jsstring :=
  match st.2 with
  | d :: racc =>
      if ((d =? 10) && (c =? 10))%N then (st.1 ++ [rev racc], [])
      else (st.1, c :: st.2)
  | [] => (st.1, [c])
  end.

Definition scan (s : jsstring) (st : list jsstring * jsstring) :
    list jsstring * jsstring :=
  foldl scan_step st s.

(** A reversed text the scanner reads back without a cut. *)
Definition uncut (racc : jsstring) : Prop := scan (rev racc) ([], []) = ([], racc).

(** [toLowerCase] on the letters A to Z. *)
Definition ascii_lower (s : jsstring) : jsstring :=
  (fun c => if ((65 <=? c) && (c <=? 90))%N then (c + 32)%N else c) <$> s.

(** A cache that returns what was stored under a key, as long as it was
    neither evicted nor expired: right after it was stored, and again after
    it was returned. *)
Definition cache_keeps `{TranslationEnv} : Prop :=
  (forall key value w, (cache_get key (cache_set key value w)).1 = Some value)
  /\ (forall key value w,
        (cache_get key w).1 = Some value ->
        (cache_get key (cache_get key w).2).1 = Some value).

(** ** The request translator on JSON *)

(** What [translateRequest] does, told on the JSON text of the request
    rather than on the object graph: the same calls to the translation
    service, in the same order. *)
Section OnJson.
Context `{Builtins} `{TranslationEnv}.

(** The text [_translateText] returns for a string, and the state the
    translation service is left in. *)
Definition text_result (s : jsstring) (w : world) : jsstring * world :=
  match s, trim s with
  | _ :: _, _ :: _ =>
      if negb (LanguageDetector.containsChinese s) then (s, w)
      else
        let e := CodeBlockProtector.extract s in
        match trim (CodeBlockProtector.cleanText e) with
        | [] => (s, w)
        | _ :: _ =>
            match TranslationService.translate
                    (CodeBlockProtector.cleanText e) (str "zh") (str "en") w with
            | (Ok translatedText, w1) =>
                (CodeBlockProtector.restore translatedText
                   (CodeBlockProtector.placeholders e), w1)
            | (Throw _, w1) => (s, w1)
            end
        end
  | _, _ => (s, w)
  end.

(** ToBoolean of a JSON value. *)
Definition jtruthy (j : json) : bool :=
  match j with
  | Jnull => false
  | Jbool b => b
  | Jnum z => negb (z =? 0)%Z
  | Jstr s => match s with [] => false | _ :: _ => true end
  | Jarr _ | Jobj _ => true
  end.

Definition json_is_str (lit : string) (j : option json) : bool :=
  match j with
  | Some (Jstr s) => bool_decide (s = str lit)
  | _ => false
  end.

(** A loop that stops at the first exception. *)
Fixpoint each {A B : Type} (f : A -> world -> outcome B * world) (l : list A)
    (w : world) : outcome (list B) * world :=
  match l with
  | [] => (Ok [], w)
  | a :: rest =>
      match f a w with
      | (Ok b, w1) =>
          match each f rest w1 with
          | (Ok bs, w2) => (Ok (b :: bs), w2)
          | (Throw e, w2) => (Throw e, w2)
          end
      | (Throw e, w1) => (Throw e, w1)
      end
  end.

(** One content block: a block with [type] ['text'] and a truthy [text] gets
    its [text] translated; reading [type] off [null] throws, and so does a
    truthy [text] that is not a string. *)
Definition block_result (block : json) (w : world) : outcome json * world :=
  match block with
  | Jnull => (Throw TypeError, w)
  | Jobj props =>
      if json_is_str "text" (assoc (str "type") props) then
        match assoc (str "text") props with
        | Some (Jstr (c :: s)) =>
            let '(translated, w1) := text_result (c :: s) w in
            (Ok (Jobj (CodeBlockProtector.obj_set (str "text") (Jstr translated)
                         props)), w1)
        | Some text => if jtruthy text then (Throw TypeError, w) else (Ok block, w)
        | None => (Ok block, w)
        end
      else (Ok block, w)
  | _ => (Ok block, w)
  end.

(** The content of a user message. *)
Definition content_result (content : json) (w : world) : outcome json * world :=
  match content with
  | Jstr s => let '(translated, w1) := text_result s w in (Ok (Jstr translated), w1)
  | Jarr blocks =>
      match each block_result blocks w with
      | (Ok translatedBlocks, w1) => (Ok (Jarr translatedBlocks), w1)
      | (Throw e, w1) => (Throw e, w1)
      end
  | _ => (Ok content, w)
  end.

(** One message: a message whose [role] is ['user'] gets its [content]
    translated, if it has one. *)
Definition message_result (message : json) (w : world) : outcome json * world :=
  match message with
  | Jnull => (Throw TypeError, w)
  | Jobj props =>
      if json_is_str "user" (assoc (str "role") props) then
        match assoc (str "content") props with
        | Some content =>
            match content_result content w with
            | (Ok translated, w1) =>
                (Ok (Jobj (CodeBlockProtector.obj_set (str "content") translated
                             props)), w1)
            | (Throw e, w1) => (Throw e, w1)
            end
        | None => (Ok message, w)
        end
      else (Ok message, w)
  | _ => (Ok message, w)
  end.

(** The whole request: the messages are translated one after the other; an
    exception anywhere gives the request back as it came. *)
Definition request_result (request : json) (w : world) : json * world :=
  match request with
  | Jobj props =>
      match assoc (str "messages") props with
      | Some (Jarr messages) =>
          match each message_result messages w with
          | (Ok translated, w1) =>
              (Jobj (CodeBlockProtector.obj_set (str "messages") (Jarr translated)
                       props), w1)
          | (Throw _, w1) => (request, w1)
          end
      | _ => (request, w)
      end
  | _ => (request, w)
  end.

End OnJson.

(** [den P h v j]: in [h] the value [v] reads as the JSON [j], through cells
    whose addresses satisfy [P].  An object may end with properties that are
    [undefined]: [JSON.stringify] leaves them out. *)
Inductive den (P : nat -> Prop) (h : list RT.cell) : RT.val -> json -> Prop :=
| den_null : den P h RT.VNull Jnull
| den_bool (b : bool) : den P h (RT.VBool b) (Jbool b)
| den_num (z : Z) : den P h (RT.VNum (NInt z)) (Jnum z)
| den_str (s : jsstring) : den P h (RT.VStr s) (Jstr s)
| den_arr (l : nat) (vs : list RT.val) (js : list json) :
    P l -> h !! l = Some (RT.CArr vs) -> dens P h vs js ->
    den P h (RT.VRef l) (Jarr js)
| den_obj (l : nat) (ps us : list (jsstring * RT.val))
      (jps : list (jsstring * json)) :
    P l -> h !! l = Some (RT.CObj (ps ++ us)) -> ps.*1 = jps.*1 ->
    dens P h ps.*2 jps.*2 -> Forall (fun kv => kv.2 = RT.VUndef) us ->
    den P h (RT.VRef l) (Jobj jps)
with dens (P : nat -> Prop) (h : list RT.cell) :
    list RT.val -> list json -> Prop :=
| dens_nil : dens P h [] []
| dens_cons (v : RT.val) (vs : list RT.val) (j : json) (js : list json) :
    den P h v j -> dens P h vs js -> dens P h (v :: vs) (j :: js).

Scheme den_min := Minimality for den Sort Prop
  with dens_min := Minimality for dens Sort Prop.
Combined Scheme den_mutind from den_min, dens_min.

(** What [push] and an assignment do to the cell they hit. *)
Definition pushed (v : RT.val) (c : RT.cell) : RT.cell :=
  match c with
  | RT.CArr elems => RT.CArr (elems ++ [v])
  | RT.CObj props => RT.CObj props
  end.

Definition assigned (key : string) (v : RT.val) (c : RT.cell) : RT.cell :=
  match c with
  | RT.CObj props => RT.CObj (CodeBlockProtector.obj_set (str key) v props)
  | RT.CArr elems => RT.CArr elems
  end.

(** Every translation from Chinese to English of a text that is not blank
    is rejected. *)
Definition request_translation_fails `{Builtins} `{TranslationEnv} : Prop :=
  forall text w, trim text <> [] ->
    exists e w',
      TranslationService.translate text (str "zh") (str "en") w = (Throw e, w').

(** Every string inside a JSON text, at any depth, satisfies [K]. *)
Fixpoint all_strings (K : jsstring -> bool) (j : json) : bool :=
  match j with
  | Jstr s => K s
  | Jarr elems => forallb (all_strings K) elems
  | Jobj props => forallb (fun kv => let '(_, v) := kv in all_strings K v) props
  | _ => true
  end.

(** A JSON text without a Chinese character in any of its strings. *)
Definition chinese_free (j : json) : bool :=
  all_strings (fun s => negb (LanguageDetector.containsChinese s)) j.

(** [j'] is [j] but for the value of its property [key]: an object with
    the same properties, under the same names and in the same order, each
    with the same value unless its name is [key]; and a JSON text that is
    not an object is the same text. *)
Definition same_but (key : string) (j j' : json) : Prop :=
  match j, j' with
  | Jobj props, Jobj props' =>
      Forall2 (fun kv kv' : jsstring * json =>
                 kv.1 = kv'.1 /\ (kv.1 <> str key -> kv.2 = kv'.2))
        props props'
  | _, _ => j' = j
  end.

(** [{model: "m", messages: [{role: "user", content: [{type: "text", text:
    "Hi there."}]}]}] *)
Definition english_body : json :=
  Jobj [(str "model", Jstr (str "m"));
        (str "messages",
         Jarr [Jobj [(str "role", Jstr (str "user"));
                     (str "content",
                      Jarr [Jobj [(str "type", Jstr (str "text"));
                                  (str "text", Jstr (str "Hi there."))]])]])].

Definition english_heap : list RT.cell := snd (RT.parse english_body []).
Definition english_request : RT.val := fst (RT.parse english_body []).

(** A message and what became of it: the same but for [content], and the
    same altogether when its [role] is not ["user"]. *)
Definition only_content_differs (m m' : json) : Prop :=
  same_but "content" m m' /\ (~ is_user m -> m' = m).

(** A content block the loop of [_translateContent] gets through without
    an exception: it is not [null], and when its [type] is ['text'] and its
    [text] is truthy, that text is a string. *)
Definition block_translates (block : json) : bool :=
  match block with
  | Jnull => false
  | Jobj props =>
      if json_is_str "text" (assoc (str "type") props) then
        match assoc (str "text") props with
        | Some (Jstr _) => true
        | Some text => negb (jtruthy text)
        | None => true
        end
      else true
  | _ => true
  end.

(** A message the loop of [translateRequest] gets through without an
    exception: it is not [null], and when its [role] is ['user'] and its
    [content] is an array, every block of it is as above. *)
Definition message_translates (message : json) : bool :=
  match message with
  | Jnull => false
  | Jobj props =>
      if json_is_str "user" (assoc (str "role") props) then
        match assoc (str "content") props with
        | Some (Jarr blocks) => forallb block_translates blocks
        | _ => true
        end
      else true
  | _ => true
  end.

(** The calls of [translateRequest] that go all the way through the [try]
    block: translation is on for the account, [messages] is an array, the
    request serialises (it has no cycle), and no message raises an
    exception. *)
Definition returns_copy (requestBody : RT.val) (account : jv)
    (h0 : list RT.cell) : Prop :=
  truthy (get "enableTranslation" account) = true
  /\ RT.isArray (RT.getv "messages" requestBody h0) h0 = true
  /\ exists j messages,
       RT.stringify (S (length h0)) h0 requestBody = Some (Some j)
       /\ json_get "messages" j = Some (Jarr messages)
       /\ forallb message_translates messages = true.

(* ===================================================================== *)
(** * Part II: properties                                                  *)
(* ===================================================================== *)

(** ** Strings *)

Lemma trimStart_nil (s : jsstring) :
  trimStart s = [] <-> forallb is_ws s = true.
Proof.
  induction s as [|c s IH]; simpl; [done|].
  destruct (is_ws c); simpl; [done|]. split; discriminate.
Qed.

Lemma forallb_rev (p : N -> bool) (s : jsstring) :
  forallb p (rev s) = forallb p s.
Proof.
  induction s as [|c s IH]; simpl; [done|].
  rewrite forallb_app, IH. simpl. rewrite andb_true_r. apply andb_comm.
Qed.

Lemma trimStart_forallb (s : jsstring) :
  forallb is_ws (trimStart s) = forallb is_ws s.
Proof.
  induction s as [|c s IH]; simpl; [done|].
  destruct (is_ws c) eqn:E; simpl; [done|]. by rewrite E.
Qed.

Lemma rev_nil_iff {A : Type} (l : list A) : rev l = [] <-> l = [].
Proof.
  split; [|by intros ->].
  intros E. apply (f_equal (@rev A)) in E. by rewrite rev_involutive in E.
Qed.

(** [s.trim()] is empty exactly when [s] consists of white space only. *)
Lemma trim_nil (s : jsstring) : trim s = [] <-> forallb is_ws s = true.
Proof.
  unfold trim, trimEnd.
  rewrite rev_nil_iff, trimStart_nil, forallb_rev. by rewrite trimStart_forallb.
Qed.

(** The scans have fuel to spare: with any fuel that covers the input they
    give what [replace_global] and [split] give. *)
Lemma replace_go_fuel {St : Type} (matcher : jsstring -> option nat)
    (cb : jsstring -> St -> jsstring * St) (n m : nat) (s : jsstring) (st : St) :
  length s <= n -> length s <= m ->
  replace_go matcher cb n s st = replace_go matcher cb m s st.
Proof.
  revert m s st. induction n as [|n IH]; intros m s st Hn Hm.
  - destruct s; [|simpl in Hn; lia]. by destruct m.
  - destruct s as [|c rest]; [by destruct m|].
    destruct m as [|m]; [simpl in Hm; lia|]. simpl in Hn, Hm. simpl.
    destruct (matcher (c :: rest)) as [[|k]|].
    + by rewrite (IH m) by lia.
    + destruct (cb _ st) as [r st1].
      rewrite (IH m); [done| |]; rewrite length_drop; lia.
    + by rewrite (IH m) by lia.
Qed.

Lemma split_go_fuel (sep : jsstring) (n m : nat) (s acc : jsstring) :
  sep <> [] -> length s < n -> length s < m ->
  split_go n sep s acc = split_go m sep s acc.
Proof.
  intros Hsep. revert m s acc. induction n as [|n IH]; intros m s acc Hn Hm; [lia|].
  destruct m as [|m]; [lia|]. destruct s as [|c rest]; [done|].
  simpl in Hn, Hm. cbn [split_go].
  destruct (starts_with sep (c :: rest)).
  - f_equal. apply IH; rewrite length_drop; destruct sep; simpl in *; try done; lia.
  - apply IH; lia.
Qed.

(** ** codeBlockProtector.js *)

Example extract_example :
  CodeBlockProtector.extract (str "run `git status` then ```x``` ok") =
  {| CodeBlockProtector.cleanText :=
       str "run __INLINE_CODE_1__ then __CODE_BLOCK_0__ ok";
     CodeBlockProtector.placeholders :=
       [(str "__CODE_BLOCK_0__", str "```x```");
        (str "__INLINE_CODE_1__", str "`git status`")] |}.
Proof. vm_compute. reflexivity. Qed.

Example restore_extract_example :
  let t := str "run `git status` then ```x``` ok" in
  CodeBlockProtector.restore
    (CodeBlockProtector.cleanText (CodeBlockProtector.extract t))
    (CodeBlockProtector.placeholders (CodeBlockProtector.extract t)) = t.
Proof. vm_compute. reflexivity. Qed.

(** C2, evaluated where it fails: an inline span that encloses a fenced block.
    The fenced block is replaced first, so the inline match contains the
    placeholder of the block; [restore] substitutes in insertion order, the
    block's placeholder before the span that holds it, and the placeholder
    stays in the result. *)
Lemma restore_extract_nested :
  let t := str "`a ```b``` c`" in
  CodeBlockProtector.extract t =
    {| CodeBlockProtector.cleanText := str "__INLINE_CODE_1__";
       CodeBlockProtector.placeholders :=
         [(str "__CODE_BLOCK_0__", str "```b```");
          (str "__INLINE_CODE_1__", str "`a __CODE_BLOCK_0__ c`")] |}
  /\ CodeBlockProtector.restore
       (CodeBlockProtector.cleanText (CodeBlockProtector.extract t))
       (CodeBlockProtector.placeholders (CodeBlockProtector.extract t))
     = str "`a __CODE_BLOCK_0__ c`"
  /\ CodeBlockProtector.restore
       (CodeBlockProtector.cleanText (CodeBlockProtector.extract t))
       (CodeBlockProtector.placeholders (CodeBlockProtector.extract t))
     <> t.
Proof. vm_compute. repeat split; discriminate. Qed.

(** A text that already holds a placeholder is not restored either. *)
Lemma restore_extract_literal_placeholder :
  let t := str "__CODE_BLOCK_0__ is ```x```" in
  CodeBlockProtector.restore
    (CodeBlockProtector.cleanText (CodeBlockProtector.extract t))
    (CodeBlockProtector.placeholders (CodeBlockProtector.extract t))
  = str "```x``` is ```x```".
Proof. vm_compute. reflexivity. Qed.

(** Without a back-tick nothing is extracted, and [restore] returns the text. *)
Lemma replace_go_no_match {St : Type} (matcher : jsstring -> option nat)
    (cb : jsstring -> St -> jsstring * St) (fuel : nat) (s : jsstring) (st : St) :
  (forall k, matcher (drop k s) = None) ->
  replace_go matcher cb fuel s st = (s, st).
Proof.
  revert s. induction fuel as [|fuel IH]; intros s Hno; simpl; [done|].
  destruct s as [|c rest]; [done|].
  pose proof (Hno 0) as H0. simpl in H0. rewrite H0.
  rewrite IH; [done|]. intros k. apply (Hno (S k)).
Qed.

Lemma starts_with_head (p s : jsstring) (c : N) :
  starts_with (c :: p) s = true -> exists s', s = c :: s'.
Proof.
  destruct s as [|b s']; simpl; [done|].
  intros [E _]%andb_true_iff. apply N.eqb_eq in E. subst. eauto.
Qed.

Lemma codeBlockRegex_backtick (s : jsstring) :
  CodeBlockProtector.backtick ∉ s -> CodeBlockProtector.codeBlockRegex s = None.
Proof.
  intros Hno. unfold CodeBlockProtector.codeBlockRegex.
  destruct (starts_with _ s) eqn:E; [|done].
  apply starts_with_head in E as [s' ->]. exfalso. apply Hno. left.
Qed.

Lemma inlineCodeRegex_backtick (s : jsstring) :
  CodeBlockProtector.backtick ∉ s -> CodeBlockProtector.inlineCodeRegex s = None.
Proof.
  intros Hno. destruct s as [|c rest]; simpl; [done|].
  unfold CodeBlockProtector.is_backtick at 1.
  destruct (c =? CodeBlockProtector.backtick)%N eqn:E; [|done].
  apply N.eqb_eq in E. subst. exfalso. apply Hno. left.
Qed.

Lemma not_elem_of_drop {A : Type} (x : A) (l : list A) (k : nat) :
  x ∉ l -> x ∉ drop k l.
Proof. intros Hno Hin. apply Hno. by eapply subseteq_drop. Qed.

Lemma extract_no_backtick (t : jsstring) :
  CodeBlockProtector.backtick ∉ t ->
  CodeBlockProtector.extract t =
    {| CodeBlockProtector.cleanText := t; CodeBlockProtector.placeholders := [] |}.
Proof.
  intros Hno. unfold CodeBlockProtector.extract, replace_global.
  destruct t as [|c t']; [done|].
  rewrite replace_go_no_match
    by (intros k; apply codeBlockRegex_backtick, not_elem_of_drop, Hno).
  rewrite replace_go_no_match
    by (intros k; apply inlineCodeRegex_backtick, not_elem_of_drop, Hno).
  done.
Qed.

Lemma restore_extract_no_backtick (t : jsstring) :
  CodeBlockProtector.backtick ∉ t ->
  CodeBlockProtector.restore
    (CodeBlockProtector.cleanText (CodeBlockProtector.extract t))
    (CodeBlockProtector.placeholders (CodeBlockProtector.extract t)) = t.
Proof.
  intros Hno. rewrite extract_no_backtick by done. simpl. by destruct t.
Qed.

(** C9, as stated, fails at the empty string: the guard of [isCodeOnly]
    answers [false], although what is left of the empty string after
    extraction and stripping holds nothing but white space. *)
Lemma isCodeOnly_empty_string :
  CodeBlockProtector.isCodeOnly [] = false
  /\ forallb is_ws
       (CodeBlockProtector.stripPlaceholders
          (CodeBlockProtector.cleanText (CodeBlockProtector.extract []))) = true.
Proof. split; reflexivity. Qed.

(** C9, amended: [isCodeOnly] of the empty string is [false]; for every other
    string [t], [isCodeOnly t] is [true] if and only if the clean text of
    [extract t], with every [__CODE_BLOCK_<n>__] and [__INLINE_CODE_<n>__]
    removed, consists of white space only. *)
Theorem isCodeOnly_spec (t : jsstring) :
  CodeBlockProtector.isCodeOnly [] = false
  /\ (t <> [] ->
      (CodeBlockProtector.isCodeOnly t = true <->
       forallb is_ws
         (CodeBlockProtector.stripPlaceholders
            (CodeBlockProtector.cleanText (CodeBlockProtector.extract t))) = true)).
Proof.
  split; [reflexivity|]. intros Hne.
  unfold CodeBlockProtector.isCodeOnly.
  destruct t as [|c t']; [done|].
  rewrite <- trim_nil.
  destruct (trim _); split; intros E; done.
Qed.

Lemma isCodeOnly_spec_witness :
  str "```x``` " <> []
  /\ (CodeBlockProtector.isCodeOnly (str "```x``` ") = true <->
      forallb is_ws
        (CodeBlockProtector.stripPlaceholders
           (CodeBlockProtector.cleanText
              (CodeBlockProtector.extract (str "```x``` ")))) = true).
Proof.
  split; [discriminate|].
  apply (isCodeOnly_spec (str "```x``` ")). discriminate.
Defined.

(** ** sentenceBuffer.js *)

Example add_example :
  SentenceBuffer.add (JStr (str "a server.
It works")) (str "Here is ")
  = ([str "Here is a server."; [10%N]], str "It works").
Proof. vm_compute. reflexivity. Qed.

Lemma search_Some (s : jsstring) (k : nat) :
  SentenceBuffer.search s = Some k ->
  exists c, s !! k = Some c /\ SentenceBuffer.sentenceEnders c = true.
Proof.
  revert k. induction s as [|c s IH]; intros k; simpl; [done|].
  destruct (SentenceBuffer.sentenceEnders c) eqn:E.
  - intros [= <-]. eauto.
  - destruct (SentenceBuffer.search s) as [k'|]; [|done].
    intros [= <-]. simpl. by apply IH.
Qed.

Lemma search_None (s : jsstring) :
  SentenceBuffer.search s = None ->
  forallb (fun c => negb (SentenceBuffer.sentenceEnders c)) s = true.
Proof.
  induction s as [|c s IH]; simpl; [done|].
  destruct (SentenceBuffer.sentenceEnders c); [done|].
  destruct (SentenceBuffer.search s); [done|]. intros _. by apply IH.
Qed.

Lemma exec_Some (buffer : jsstring) (lastIndex index : nat) :
  SentenceBuffer.exec buffer lastIndex = Some index ->
  lastIndex <= index
  /\ exists c, buffer !! index = Some c /\ SentenceBuffer.sentenceEnders c = true.
Proof.
  unfold SentenceBuffer.exec.
  destruct (SentenceBuffer.search _) as [k|] eqn:E; [|done].
  intros [= <-]. split; [lia|].
  apply search_Some in E as (c & Hc & He).
  rewrite lookup_drop in Hc. eauto.
Qed.

(** The sentence cut at a match, followed by what comes after it, is what
    was there from [lastEnd] on; and the sentence ends with the match. *)
Lemma slice_at_match (buffer : jsstring) (lastEnd index : nat) (c : N) :
  lastEnd <= index -> buffer !! index = Some c ->
  SentenceBuffer.slice buffer lastEnd (index + 1) ++ drop (index + 1) buffer
    = drop lastEnd buffer
  /\ last (SentenceBuffer.slice buffer lastEnd (index + 1)) = Some c.
Proof.
  intros Hle Hc. unfold SentenceBuffer.slice.
  replace (index + 1 - lastEnd) with (S (index - lastEnd)) by lia.
  assert (drop lastEnd buffer !! (index - lastEnd) = Some c) as Hd.
  { rewrite lookup_drop. by replace (lastEnd + (index - lastEnd)) with index by lia. }
  split.
  - replace (drop (index + 1) buffer)
      with (drop (S (index - lastEnd)) (drop lastEnd buffer)).
    + apply take_drop.
    + rewrite drop_drop. f_equal. lia.
  - rewrite (take_S_r _ _ _ Hd). by rewrite last_snoc.
Qed.

Lemma add_loop_spec (fuel : nat) (buffer : jsstring) (lastEnd : nat)
    (acc sentences : list jsstring) (e : nat) :
  SentenceBuffer.add_loop fuel buffer lastEnd acc = (sentences, e) ->
  exists new,
    sentences = acc ++ new
    /\ concat new ++ drop e buffer = drop lastEnd buffer
    /\ Forall ends_with_terminator new.
Proof.
  revert lastEnd acc. induction fuel as [|fuel IH]; intros lastEnd acc; simpl.
  - intros [= <- <-]. exists []. by rewrite app_nil_r.
  - destruct (SentenceBuffer.exec buffer lastEnd) as [index|] eqn:E.
    + intros Hloop. apply exec_Some in E as (Hle & c & Hc & He).
      apply IH in Hloop as (new & -> & Hcat & Hall).
      destruct (slice_at_match buffer lastEnd index c Hle Hc) as [Hcut Hlast].
      exists (SentenceBuffer.slice buffer lastEnd (index + 1) :: new).
      split; [by rewrite <- app_assoc|]. split.
      * simpl. by rewrite <- app_assoc, Hcat.
      * constructor; [|done]. by exists c.
    + intros [= <- <-]. exists []. by rewrite app_nil_r.
Qed.

(** The rounds given to the loop are enough: it stops because no terminator
    is left, not because the fuel ran out. *)
Lemma add_loop_done (fuel : nat) (buffer : jsstring) (lastEnd : nat)
    (acc sentences : list jsstring) (e : nat) :
  length buffer < fuel + lastEnd ->
  SentenceBuffer.add_loop fuel buffer lastEnd acc = (sentences, e) ->
  SentenceBuffer.exec buffer e = None.
Proof.
  revert lastEnd acc. induction fuel as [|fuel IH]; intros lastEnd acc Hfuel; simpl.
  - intros [= <- <-]. unfold SentenceBuffer.exec.
    rewrite drop_ge by lia. done.
  - destruct (SentenceBuffer.exec buffer lastEnd) as [index|] eqn:E.
    + apply exec_Some in E as (Hle & c & Hc & He).
      apply IH. lia.
    + by intros [= <- <-].
Qed.

#[global] Arguments SentenceBuffer.add : simpl never.

Lemma add_spec (text buffer : jsstring) (sentences : list jsstring)
    (buffer' : jsstring) :
  SentenceBuffer.add (JStr text) buffer = (sentences, buffer') ->
  concat sentences ++ buffer' = buffer ++ text
  /\ Forall ends_with_terminator sentences.
Proof.
  unfold SentenceBuffer.add. destruct text as [|c t].
  - intros [= <- <-]. by rewrite app_nil_r.
  - destruct (SentenceBuffer.add_loop _ _ _ _) as [ss e] eqn:E.
    intros [= <- <-]. apply add_loop_spec in E as (new & -> & Hcat & Hall).
    simpl in *. by rewrite Hcat.
Qed.

(** After [add] the buffer holds no terminator. *)
Lemma add_leaves_no_terminator (text : jv) (buffer : jsstring) :
  forallb (fun c => negb (SentenceBuffer.sentenceEnders c)) buffer = true ->
  forallb (fun c => negb (SentenceBuffer.sentenceEnders c))
    (snd (SentenceBuffer.add text buffer)) = true.
Proof.
  intros Hb. unfold SentenceBuffer.add.
  destruct text as [| | | |[|c t]| |]; try done.
  destruct (SentenceBuffer.add_loop _ _ _ _) as [ss e] eqn:E. simpl.
  apply add_loop_done in E; [|simpl; lia].
  unfold SentenceBuffer.exec in E.
  destruct (SentenceBuffer.search _) eqn:Es; [done|]. by apply search_None.
Qed.

(** C6: from an empty buffer (after [reset]), for every sequence of strings
    given to [add], the sentences returned by those calls, concatenated in
    order and followed by the buffer, are the concatenation of the strings;
    and every returned sentence ends with a terminator. *)
Theorem add_all_concat (b0 : jsstring) (texts : list jsstring) :
  let '(emitted, buffer) :=
    SentenceBuffer.add_all (JStr <$> texts) (SentenceBuffer.reset b0) in
  concat emitted ++ buffer = concat texts
  /\ Forall ends_with_terminator emitted.
Proof.
  unfold SentenceBuffer.reset.
  cut (forall buffer,
         let '(emitted, buffer') :=
           SentenceBuffer.add_all (JStr <$> texts) buffer in
         concat emitted ++ buffer' = buffer ++ concat texts
         /\ Forall ends_with_terminator emitted).
  { intros Hgen. apply (Hgen []). }
  induction texts as [|t texts IH]; intros buffer; simpl.
  - by rewrite app_nil_r.
  - destruct (SentenceBuffer.add (JStr t) buffer) as [s1 b1] eqn:E1.
    specialize (IH b1). simpl in IH |- *.
    destruct (SentenceBuffer.add_all _ b1) as [s2 b2].
    destruct IH as [IHcat IHall].
    apply add_spec in E1 as [Hcat Hall]. split.
    + rewrite concat_app, <- app_assoc, IHcat, app_assoc, Hcat.
      by rewrite <- app_assoc.
    + by apply Forall_app.
Qed.

(** Values that are not strings, and the empty string, leave the buffer as
    it is and return no sentence. *)
Lemma add_not_a_string (v : jv) (buffer : jsstring) :
  (forall c t, v <> JStr (c :: t)) -> SentenceBuffer.add v buffer = ([], buffer).
Proof.
  intros Hv. destruct v as [| | | |[|c t]| |]; try done. by destruct (Hv c t).
Qed.

(** ** translationService.js *)

Lemma languageNames_truthy (code : jsstring) :
  ~ inherited_name code ->
  TranslationService.member_truthy (TranslationService.languageNames code) = true
  <-> supported_code code.
Proof.
  unfold TranslationService.languageNames, supported_code, inherited_name.
  intros Hown.
  destruct (decide (code = str "zh")) as [->|Hzh]; [simpl; split; auto|].
  destruct (decide (code = str "en")) as [->|Hen]; [simpl; split; auto|].
  case_bool_decide; [done|]. simpl. split; [done|]. intros [?|?]; done.
Qed.

Section TranslationServiceProps.
Context `{Builtins} `{TranslationEnv}.

Lemma callTranslationAPI_error (text sourceLang targetLang : jsstring)
    (w w' : world) (e : error) :
  TranslationService.callTranslationAPI text sourceLang targetLang w = (Throw e, w') ->
  e = TranslationRequestFailed.
Proof.
  unfold TranslationService.callTranslationAPI.
  destruct (makeOpenAICompatibleRequest _ _ w) as [[r|] w1]; by intros [= <- <-].
Qed.

(** Text that is empty or white space only comes back as it is, whatever the
    language codes. *)
Lemma translate_blank (text sourceLang targetLang : jsstring) (w : world) :
  forallb is_ws text = true ->
  TranslationService.translate text sourceLang targetLang w = (Ok text, w).
Proof.
  intros Hws. apply trim_nil in Hws.
  unfold TranslationService.translate. by rewrite Hws.
Qed.

(** C5, amended: [translate] returns the input unchanged when the text is
    empty or white space only, whatever the language codes.  For any other
    text, and codes that are not names of members of [Object.prototype], it
    fails with the unsupported-language error exactly when one of the two
    codes is not [zh] or [en]; and when both codes are [zh] or [en] and
    equal it returns the input unchanged, with no call to the cache or the
    translator. *)
Theorem translate_guards (text sourceLang targetLang : jsstring) (w : world) :
  (forallb is_ws text = true ->
   TranslationService.translate text sourceLang targetLang w = (Ok text, w))
  /\ (forallb is_ws text = false ->
      ~ inherited_name sourceLang -> ~ inherited_name targetLang ->
      (TranslationService.translate text sourceLang targetLang w
         = (Throw (UnsupportedLanguagePair sourceLang targetLang), w)
       <-> ~ (supported_code sourceLang /\ supported_code targetLang))
      /\ ((exists a b w', TranslationService.translate text sourceLang targetLang w
                          = (Throw (UnsupportedLanguagePair a b), w'))
          -> ~ (supported_code sourceLang /\ supported_code targetLang))
      /\ (supported_code sourceLang -> supported_code targetLang ->
          sourceLang = targetLang ->
          TranslationService.translate text sourceLang targetLang w = (Ok text, w))).
Proof.
  split; [apply translate_blank|]. intros Hws Hs Ht.
  assert (trim text <> []) as Hne.
  { intros E. apply trim_nil in E. congruence. }
  unfold TranslationService.translate.
  destruct (trim text) as [|c0 t0]; [done|].
  rewrite <- !languageNames_truthy by done.
  destruct (TranslationService.member_truthy
              (TranslationService.languageNames sourceLang)) eqn:Es;
    destruct (TranslationService.member_truthy
                (TranslationService.languageNames targetLang)) eqn:Et; simpl;
    try (split; [|split]; [split; [intros _; intros [? ?]; congruence|done]
                          |intros _; intros [? ?]; congruence
                          |congruence]).
  assert (forall a b w',
    (if decide (sourceLang = targetLang) then (Ok text, w)
     else
       match cache_get (TranslationService.getCacheKey text sourceLang targetLang) w with
       | (Some (c :: cached), w1) => (Ok (c :: cached), w1)
       | (_, w1) =>
           match TranslationService.callTranslationAPI text sourceLang targetLang w1 with
           | (Ok translated, w2) =>
               (Ok translated,
                cache_set (TranslationService.getCacheKey text sourceLang targetLang)
                  translated w2)
           | (Throw e, w2) => (Throw e, w2)
           end
       end) <> (Throw (UnsupportedLanguagePair a b), w')) as Hno.
  { intros a b w'. case_decide; [done|].
    destruct (cache_get _ w) as [[[|c cached]|] w1];
      try done;
      destruct (TranslationService.callTranslationAPI _ _ _ w1) as [[tr|e] w2] eqn:Ea;
      try done;
      apply callTranslationAPI_error in Ea; subst; done. }
  split; [|split].
  - split; [intros E; by apply Hno in E|intros Hn; destruct Hn; done].
  - intros (a & b & w' & E). by apply Hno in E.
  - intros _ _ ->. by rewrite decide_True.
Qed.

End TranslationServiceProps.

(** C5, as stated, fails twice.  With equal codes that [languageNames] does
    not know the text is not returned: the codes are checked first.  And
    with an unknown pair white space does not fail: the text is checked
    before the codes. *)
Lemma translate_order_of_guards :
  @TranslationService.translate bare_builtins (fixed_reply None)
     (str "hello") (str "fr") (str "fr") []
   = (Throw (UnsupportedLanguagePair (str "fr") (str "fr")), [])
  /\ @TranslationService.translate bare_builtins (fixed_reply None)
       (str "  ") (str "fr") (str "de") []
     = (Ok (str "  "), []).
Proof. split; vm_compute; reflexivity. Qed.

Lemma translate_guards_witness :
  @TranslationService.translate bare_builtins (fixed_reply None)
     (str " ") (str "fr") (str "de") [] = (Ok (str " "), [])
  /\ (@TranslationService.translate bare_builtins (fixed_reply None)
        (str "hello") (str "fr") (str "en") []
      = (Throw (UnsupportedLanguagePair (str "fr") (str "en")), [])
      <-> ~ (supported_code (str "fr") /\ supported_code (str "en")))
  /\ @TranslationService.translate bare_builtins (fixed_reply None)
       (str "hello") (str "en") (str "en") [] = (Ok (str "hello"), []).
Proof.
  assert (forall code : string,
            bool_decide (str code ∈ TranslationService.object_prototype_keys)
            = false -> ~ inherited_name (str code)) as Hown.
  { intros code E Hin. apply bool_decide_eq_false in E. by apply E. }
  split; [|split].
  - apply (proj1 (@translate_guards bare_builtins (fixed_reply None)
                    (str " ") (str "fr") (str "de") [])).
    reflexivity.
  - apply (proj2 (@translate_guards bare_builtins (fixed_reply None)
                    (str "hello") (str "fr") (str "en") []));
      [reflexivity | by apply Hown | by apply Hown].
  - apply (proj2 (@translate_guards bare_builtins (fixed_reply None)
                    (str "hello") (str "en") (str "en") []));
      [reflexivity | by apply Hown | by apply Hown
      | by right | by right | reflexivity].
Defined.

(** ** responseTranslator.js *)

#[global] Arguments CodeBlockProtector.extract : simpl never.
#[global] Arguments CodeBlockProtector.restore : simpl never.
#[global] Arguments TranslationService.translate : simpl never.
#[global] Arguments trim : simpl never.

Lemma woven_app (received1 received2 written1 written2 : list jv) :
  woven received1 written1 -> woven received2 written2 ->
  woven (received1 ++ received2) (written1 ++ written2).
Proof.
  induction 1; intros H2; simpl; [done|by constructor; auto..].
Qed.

Lemma woven_refl (events : list jv) : woven events events.
Proof. induction events; by constructor. Qed.

Lemma wrote_refl (tr : ResponseTranslator.t) :
  ResponseTranslator.writable (ResponseTranslator.outputStream tr) = true ->
  wrote tr tr [].
Proof. intros Hw. unfold wrote. by rewrite app_nil_r. Qed.

Lemma wrote_trans (tr1 tr2 tr3 : ResponseTranslator.t) (new1 new2 : list jv) :
  wrote tr1 tr2 new1 -> wrote tr2 tr3 new2 -> wrote tr1 tr3 (new1 ++ new2).
Proof.
  intros (_ & Hw1 & He1) (Hw & Hw2 & He2). unfold wrote.
  rewrite Hw2, Hw1, He2, He1. by rewrite app_assoc.
Qed.

Lemma writeSSE_wrote (event : jv) (tr : ResponseTranslator.t) :
  ResponseTranslator.writable (ResponseTranslator.outputStream tr) = true ->
  wrote tr (ResponseTranslator.writeSSE event tr) [event].
Proof. intros Hw. unfold wrote, ResponseTranslator.writeSSE. by rewrite Hw. Qed.

Lemma passthrough_wrote (event : jv) (tr : ResponseTranslator.t) :
  ResponseTranslator.writable (ResponseTranslator.outputStream tr) = true ->
  wrote tr (ResponseTranslator.passthrough event tr) [event].
Proof.
  intros Hw. unfold wrote, ResponseTranslator.passthrough,
    ResponseTranslator.writeSSE. simpl. by rewrite Hw.
Qed.

Lemma emitTextDelta_wrote (text : jsstring) (tr : ResponseTranslator.t) :
  ResponseTranslator.writable (ResponseTranslator.outputStream tr) = true ->
  exists new, wrote tr (ResponseTranslator.emitTextDelta text tr) new
              /\ woven [] new.
Proof.
  intros Hw. destruct text as [|c t]; simpl.
  - exists []. split; [by apply wrote_refl|constructor].
  - eexists. split; [by apply writeSSE_wrote|repeat constructor].
Qed.

Section ResponseTranslatorProps.
Context `{Builtins} `{TranslationEnv}.

(** Translating a sentence touches the counters and nothing else of the
    translator. *)
Lemma translateSentence_stream (sentence : jsstring) (tr : ResponseTranslator.t)
    (w : world) :
  let tr' := snd (fst (ResponseTranslator.translateSentence sentence tr w)) in
  ResponseTranslator.outputStream tr' = ResponseTranslator.outputStream tr
  /\ ResponseTranslator.enabled tr' = ResponseTranslator.enabled tr
  /\ ResponseTranslator.currentBlockIndex tr' = ResponseTranslator.currentBlockIndex tr
  /\ ResponseTranslator.currentBlockType tr' = ResponseTranslator.currentBlockType tr
  /\ ResponseTranslator.sentenceBuffer tr' = ResponseTranslator.sentenceBuffer tr.
Proof.
  unfold ResponseTranslator.translateSentence.
  destruct sentence as [|c t]; [done|].
  destruct (trim _); [done|].
  destruct (TranslationService.translate _ _ _ w) as [[translated|e] w1]; done.
Qed.

Lemma translateAndEmit_wrote (sentence : jsstring) (tr : ResponseTranslator.t)
    (w : world) :
  ResponseTranslator.writable (ResponseTranslator.outputStream tr) = true ->
  exists new,
    wrote tr (fst (ResponseTranslator.translateAndEmit sentence tr w)) new
    /\ woven [] new.
Proof.
  intros Hw. unfold ResponseTranslator.translateAndEmit.
  pose proof (translateSentence_stream sentence tr w) as (Hs & He & _).
  destruct (ResponseTranslator.translateSentence sentence tr w)
    as [[translated tr1] w1]. simpl in *.
  destruct (emitTextDelta_wrote translated tr1) as (new & (Hw1 & Hw2 & He2) & Hf).
  { by rewrite Hs. }
  exists new. split; [|done]. unfold wrote. by rewrite Hw2, He2, Hs, He.
Qed.

Lemma emitSentences_wrote (sentences : list jsstring) (tr : ResponseTranslator.t)
    (w : world) :
  ResponseTranslator.writable (ResponseTranslator.outputStream tr) = true ->
  exists new,
    wrote tr (fst (ResponseTranslator.emitSentences sentences tr w)) new
    /\ woven [] new.
Proof.
  revert tr w. induction sentences as [|s rest IH]; intros tr w Hw; simpl.
  - exists []. split; [by apply wrote_refl|constructor].
  - destruct (translateAndEmit_wrote s tr w Hw) as (new1 & H1 & Hf1).
    destruct (ResponseTranslator.translateAndEmit s tr w) as [tr1 w1].
    simpl in H1.
    destruct (IH tr1 w1) as (new2 & H2 & Hf2); [apply H1|].
    exists (new1 ++ new2). split; [by eapply wrote_trans|].
    by apply (woven_app [] []).
Qed.

(** One event: what is written is the event itself, unless it is a text
    event of an enabled translator; text deltas may come before it. *)
Lemma processEvent_wrote (props : list (jsstring * jv))
    (tr : ResponseTranslator.t) (w : world) :
  ResponseTranslator.writable (ResponseTranslator.outputStream tr) = true ->
  exists new,
    wrote tr (fst (ResponseTranslator.processEvent props tr w)) new
    /\ woven (if ResponseTranslator.enabled tr
                 && text_delta_in (ResponseTranslator.currentBlockType tr)
                      (JObj props)
              then [] else [JObj props]) new.
Proof.
  intros Hw. unfold ResponseTranslator.processEvent, text_delta_in.
  set (event := JObj props).
  set (tr0 := ResponseTranslator.with_stats _ tr).
  assert (wrote tr tr0 []) as Hstats
    by (unfold wrote; simpl; by rewrite app_nil_r).
  assert (ResponseTranslator.writable (ResponseTranslator.outputStream tr0) = true)
    as Hw0 by done.
  assert (forall tr1, wrote tr0 tr1 [event] -> wrote tr tr1 [event]) as Hpass.
  { intros tr1 H1. apply (wrote_trans _ _ _ [] [event] Hstats H1). }
  change (ResponseTranslator.enabled tr0) with (ResponseTranslator.enabled tr).
  change (ResponseTranslator.currentBlockType tr0)
    with (ResponseTranslator.currentBlockType tr).
  destruct (ResponseTranslator.enabled tr); cbn [negb andb].
  2:{ exists [event]. split; [|apply woven_refl]. by apply Hpass, passthrough_wrote. }
  assert (forall lit lit' : string,
            is_str lit (get "type" event) = true -> str lit <> str lit' ->
            is_str lit' (get "type" event) = false) as Hother.
  { intros lit lit' Hlit Hne. destruct (get "type" event); try done.
    simpl in *. apply bool_decide_eq_true in Hlit as ->.
    by apply bool_decide_eq_false. }
  destruct (is_str "content_block_start" (get "type" event)) eqn:Estart.
  { rewrite (Hother _ "content_block_delta"%string Estart) by done.
    exists [event]. split; [|apply woven_refl]. apply Hpass.
    unfold ResponseTranslator.handleBlockStart. by apply passthrough_wrote. }
  destruct (is_str "content_block_delta" (get "type" event)) eqn:Edelta.
  { unfold ResponseTranslator.handleDelta.
    change (ResponseTranslator.currentBlockType tr0)
      with (ResponseTranslator.currentBlockType tr).
    destruct (is_str "tool_use" (ResponseTranslator.currentBlockType tr)) eqn:Etool.
    { assert (is_str "text" (ResponseTranslator.currentBlockType tr) = false) as ->.
      { destruct (ResponseTranslator.currentBlockType tr); try done.
        simpl in *. apply bool_decide_eq_true in Etool as ->.
        by apply bool_decide_eq_false. }
      exists [event]. split; [|apply woven_refl].
      by apply Hpass, passthrough_wrote. }
    destruct (is_str "text" _ && truthy (get "text" (get "delta" event))) eqn:Etext.
    - destruct (SentenceBuffer.add _ _) as [sentences buffer1].
      match goal with
      | |- context [ResponseTranslator.emitSentences ?ss ?t ?ww] =>
          destruct (emitSentences_wrote ss t ww) as (new & Hnew & Hf); [done|]
      end.
      exists new. split; [|done]. destruct Hnew as (Ha & Hb & Hc). by split.
    - exists [event]. split; [|apply woven_refl].
      by apply Hpass, passthrough_wrote. }
  cbn [andb].
  destruct (is_str "content_block_stop" (get "type" event)) eqn:Estop.
  { unfold ResponseTranslator.handleBlockStop.
    assert (exists new tr1 w1,
      (if is_str "text" (ResponseTranslator.currentBlockType tr0)
       then
         let '(remaining, buffer1) :=
           SentenceBuffer.flush (ResponseTranslator.sentenceBuffer tr0) in
         match remaining, trim remaining with
         | _ :: _, _ :: _ =>
             ResponseTranslator.translateAndEmit remaining
               (ResponseTranslator.with_buffer buffer1 tr0) w
         | _, _ => (ResponseTranslator.with_buffer buffer1 tr0, w)
         end
       else (tr0, w)) = (tr1, w1)
      /\ wrote tr0 tr1 new /\ woven [] new) as
      (new & tr1 & w1 & -> & Hnew & Hf).
    { destruct (is_str "text" _).
      - unfold SentenceBuffer.flush.
        destruct (ResponseTranslator.sentenceBuffer tr0) as [|c rest];
          [exists [], (ResponseTranslator.with_buffer [] tr0), w;
           split; [done|split; [unfold wrote; simpl; by rewrite app_nil_r|apply woven_nil]]|].
        destruct (trim (c :: rest));
          [exists [], (ResponseTranslator.with_buffer [] tr0), w;
           split; [done|split; [unfold wrote; simpl; by rewrite app_nil_r|apply woven_nil]]|].
        destruct (translateAndEmit_wrote (c :: rest)
                    (ResponseTranslator.with_buffer [] tr0) w) as (new & Hn & Hf);
          [done|].
        destruct (ResponseTranslator.translateAndEmit _ _ w) as [tr1 w1].
        by exists new, tr1, w1.
      - exists [], tr0, w. split; [done|split; [unfold wrote; simpl; by rewrite app_nil_r|apply woven_nil]]. }
    exists (new ++ [event]). split.
    - apply (wrote_trans _ tr0 _ [] _ Hstats).
      eapply wrote_trans; [apply Hnew|].
      apply (passthrough_wrote event (ResponseTranslator.with_block JNull JNull tr1)).
      apply Hnew.
    - apply (woven_app [] [event]); [done|apply woven_refl]. }
  exists [event]. split; [|apply woven_refl]. by apply Hpass, passthrough_wrote.
Qed.

(** C10: whenever the translation of a sentence comes out as the empty
    string, translating and emitting it writes nothing to the output stream. *)
Theorem empty_translation_not_emitted (sentence : jsstring)
    (tr : ResponseTranslator.t) (w : world) :
  fst (fst (ResponseTranslator.translateSentence sentence tr w)) = [] ->
  ResponseTranslator.outputStream
    (fst (ResponseTranslator.translateAndEmit sentence tr w))
  = ResponseTranslator.outputStream tr.
Proof.
  intros Hempty. unfold ResponseTranslator.translateAndEmit.
  pose proof (translateSentence_stream sentence tr w) as (Hs & _).
  destruct (ResponseTranslator.translateSentence sentence tr w)
    as [[translated tr1] w1]. simpl in *. by subst.
Qed.

(** A translator that is not enabled writes every event as it came and keeps
    its block state and its buffer. *)
Lemma processEvent_disabled (props : list (jsstring * jv))
    (tr : ResponseTranslator.t) (w : world) :
  ResponseTranslator.enabled tr = false ->
  let '(tr', w') := ResponseTranslator.processEvent props tr w in
  w' = w
  /\ ResponseTranslator.enabled tr' = false
  /\ ResponseTranslator.currentBlockType tr' = ResponseTranslator.currentBlockType tr
  /\ ResponseTranslator.currentBlockIndex tr' = ResponseTranslator.currentBlockIndex tr
  /\ ResponseTranslator.sentenceBuffer tr' = ResponseTranslator.sentenceBuffer tr
  /\ ResponseTranslator.written (ResponseTranslator.outputStream tr')
     = ResponseTranslator.written (ResponseTranslator.outputStream tr)
       ++ (if ResponseTranslator.writable (ResponseTranslator.outputStream tr)
           then [JObj props] else []).
Proof.
  intros He. unfold ResponseTranslator.processEvent. simpl. rewrite He. simpl.
  unfold ResponseTranslator.passthrough, ResponseTranslator.writeSSE. simpl.
  destruct (ResponseTranslator.writable _); simpl; rewrite ?app_nil_r; done.
Qed.

(** Once the stream is not writable nothing more is written, whatever the
    events. *)
Lemma translateAndEmit_closed (sentence : jsstring) (tr : ResponseTranslator.t)
    (w : world) :
  ResponseTranslator.writable (ResponseTranslator.outputStream tr) = false ->
  ResponseTranslator.outputStream
    (fst (ResponseTranslator.translateAndEmit sentence tr w))
  = ResponseTranslator.outputStream tr.
Proof.
  intros Hw. unfold ResponseTranslator.translateAndEmit.
  pose proof (translateSentence_stream sentence tr w) as (Hs & _).
  destruct (ResponseTranslator.translateSentence sentence tr w)
    as [[translated tr1] w1]. simpl in *.
  destruct translated; simpl; [done|].
  unfold ResponseTranslator.writeSSE. by rewrite Hs, Hw.
Qed.

Lemma emitSentences_closed (sentences : list jsstring)
    (tr : ResponseTranslator.t) (w : world) :
  ResponseTranslator.writable (ResponseTranslator.outputStream tr) = false ->
  ResponseTranslator.outputStream
    (fst (ResponseTranslator.emitSentences sentences tr w))
  = ResponseTranslator.outputStream tr.
Proof.
  revert tr w. induction sentences as [|s rest IH]; intros tr w Hw; simpl; [done|].
  pose proof (translateAndEmit_closed s tr w Hw) as Hs.
  destruct (ResponseTranslator.translateAndEmit s tr w) as [tr1 w1].
  simpl in Hs. rewrite IH; [done|]. by rewrite Hs.
Qed.

Lemma passthrough_closed (event : jv) (tr : ResponseTranslator.t) :
  ResponseTranslator.writable (ResponseTranslator.outputStream tr) = false ->
  ResponseTranslator.outputStream (ResponseTranslator.passthrough event tr)
  = ResponseTranslator.outputStream tr.
Proof.
  intros Hw. unfold ResponseTranslator.passthrough, ResponseTranslator.writeSSE.
  simpl. by rewrite Hw.
Qed.

Lemma processEvent_closed (props : list (jsstring * jv))
    (tr : ResponseTranslator.t) (w : world) :
  ResponseTranslator.writable (ResponseTranslator.outputStream tr) = false ->
  ResponseTranslator.outputStream
    (fst (ResponseTranslator.processEvent props tr w))
  = ResponseTranslator.outputStream tr.
Proof.
  intros Hw. unfold ResponseTranslator.processEvent.
  set (event := JObj props).
  set (tr0 := ResponseTranslator.with_stats _ tr).
  assert (ResponseTranslator.outputStream tr0 = ResponseTranslator.outputStream tr)
    as Hs0 by done.
  assert (ResponseTranslator.writable (ResponseTranslator.outputStream tr0) = false)
    as Hw0 by done.
  rewrite <- Hs0. clearbody tr0. clear Hs0 Hw tr.
  destruct (negb _); [by apply passthrough_closed|].
  destruct (is_str "content_block_start" _);
    [unfold ResponseTranslator.handleBlockStart; cbn [fst];
     by rewrite passthrough_closed|].
  destruct (is_str "content_block_delta" _).
  { unfold ResponseTranslator.handleDelta.
    destruct (is_str "tool_use" _); [by apply passthrough_closed|].
    destruct (_ && _); [|by apply passthrough_closed].
    destruct (SentenceBuffer.add _ _) as [sentences buffer1].
    by rewrite emitSentences_closed. }
  destruct (is_str "content_block_stop" _); [|by apply passthrough_closed].
  unfold ResponseTranslator.handleBlockStop.
  destruct (is_str "text" _).
  - unfold SentenceBuffer.flush.
    destruct (ResponseTranslator.sentenceBuffer tr0) as [|c rest];
      [cbn [fst]; by rewrite passthrough_closed|].
    destruct (trim (c :: rest)); [cbn [fst]; by rewrite passthrough_closed|].
    pose proof (translateAndEmit_closed (c :: rest)
                  (ResponseTranslator.with_buffer [] tr0) w Hw0) as Hs.
    destruct (ResponseTranslator.translateAndEmit _ _ w) as [tr1 w1].
    cbn [fst] in *. rewrite passthrough_closed; simpl; by rewrite Hs.
  - cbn [fst]. by rewrite passthrough_closed.
Qed.

End ResponseTranslatorProps.

(** Scenarios S5 and S6 with a translator that answers [ZH]: sentences are
    emitted as they complete, the rest of the block before its stop event,
    and everything else as it came. *)
Example sample_response :
  ResponseTranslator.written
    (ResponseTranslator.outputStream
       (fst (@ResponseTranslator.processEvents bare_builtins
               (fixed_reply (Some (str "ZH")))
               sample_events
               (ResponseTranslator.new enabled_account open_stream) [])))
  = [JObj (ev_plain "message_start");
     JObj (ev_block_start 0 "text");
     ResponseTranslator.textDelta (JNum (NInt 0)) (str "ZH");
     ResponseTranslator.textDelta (JNum (NInt 0)) (str "ZH");
     JObj (ev_block_stop 0);
     JObj (ev_plain "ping");
     JObj (ev_block_start 1 "tool_use");
     JObj (ev_json 1 "{'path':'/tmp'}");
     JObj (ev_block_stop 1);
     JObj (ev_plain "message_stop")].
Proof. vm_compute. reflexivity. Qed.

(** A translator that answers with white space: the trimmed translation is
    empty, and nothing is written for the sentence. *)
Lemma empty_translation_not_emitted_witness :
  fst (fst (@ResponseTranslator.translateSentence bare_builtins
              (fixed_reply (Some (str "  "))) (str "Done.")
              (ResponseTranslator.new enabled_account open_stream) [])) = []
  /\ ResponseTranslator.outputStream
       (fst (@ResponseTranslator.translateAndEmit bare_builtins
               (fixed_reply (Some (str "  "))) (str "Done.")
               (ResponseTranslator.new enabled_account open_stream) []))
     = open_stream.
Proof.
  split; [reflexivity|].
  exact (@empty_translation_not_emitted bare_builtins
           (fixed_reply (Some (str "  "))) (str "Done.")
           (ResponseTranslator.new enabled_account open_stream) [] eq_refl).
Defined.

(** ** openaiResponsesRelayService.js: usage *)

Section UsageProps.
Context `{Builtins}.




End UsageProps.



(** ** openaiResponsesRelayService.js: the 429 path *)

Section RateLimitProps.
Context `{Builtins}.



End RateLimitProps.



(** ** requestTranslator.js: the heap *)

Lemma json_ind' (P : json -> Prop) :
  P Jnull -> (forall b, P (Jbool b)) -> (forall z, P (Jnum z)) ->
  (forall s, P (Jstr s)) ->
  (forall elems, Forall P elems -> P (Jarr elems)) ->
  (forall props, Forall (fun kv => P kv.2) props -> P (Jobj props)) ->
  forall j, P j.
Proof.
  intros Hnull Hbool Hnum Hstr Harr Hobj. fix IH 1. intros [| | | |elems|props].
  - apply Hnull.
  - apply Hbool.
  - apply Hnum.
  - apply Hstr.
  - apply Harr. induction elems as [|e rest IHrest]; constructor; [apply IH|done].
  - apply Hobj. induction props as [|[k e] rest IHrest]; constructor;
      [apply IH|done].
Qed.

Lemma parse_arr (elems : list json) (h : list RT.cell) :
  RT.parse (Jarr elems) h =
  (let '(vs, h1) := parse_list elems h in
   (RT.VRef (length h1), h1 ++ [RT.CArr vs])).
Proof. reflexivity. Qed.

Lemma parse_obj (props : list (jsstring * json)) (h : list RT.cell) :
  RT.parse (Jobj props) h =
  (let '(ps, h1) := parse_props props h in
   (RT.VRef (length h1), h1 ++ [RT.CObj ps])).
Proof. reflexivity. Qed.

Lemma ext_refl (F : nat) (h : list RT.cell) : ext F h h.
Proof. by split. Qed.

Lemma ext_trans (F : nat) (h1 h2 h3 : list RT.cell) :
  ext F h1 h2 -> ext F h2 h3 -> ext F h1 h3.
Proof.
  intros [Hl1 Hc1] [Hl2 Hc2]. split; [lia|].
  intros l Hl. by rewrite Hc2, Hc1.
Qed.

Lemma ext_weaken (F F' : nat) (h h' : list RT.cell) :
  F' <= F -> ext F h h' -> ext F' h h'.
Proof. intros HF [Hl Hc]. split; [done|]. intros l Hl'. apply Hc. lia. Qed.

Lemma ext_app (h new : list RT.cell) : ext (length h) h (h ++ new).
Proof.
  split; [rewrite length_app; lia|]. intros l Hl. by apply lookup_app_l.
Qed.

Lemma ext_alter (F l : nat) (f : RT.cell -> RT.cell) (h : list RT.cell) :
  F <= l -> ext F h (alter f l h).
Proof.
  intros HF. split; [by rewrite length_alter|].
  intros l' Hl'. apply list_lookup_alter_ne. lia.
Qed.

(** What [ext] at the length of the old heap means: the old heap is a prefix
    of the new one. *)
Lemma ext_prefix (h h' : list RT.cell) :
  ext (length h) h h' <-> take (length h) h' = h.
Proof.
  split.
  - intros [Hl Hc]. apply list_eq. intros l.
    destruct (decide (l < length h)) as [Hlt|Hge].
    + rewrite lookup_take_lt by done. by apply Hc.
    + rewrite lookup_take_ge by lia. symmetry. apply lookup_ge_None. lia.
  - intros E. split.
    + rewrite <- E at 1. rewrite length_take. lia.
    + intros l Hl.
      assert (h !! l = take (length h) h' !! l) as -> by (by rewrite E).
      by rewrite lookup_take_lt.
Qed.

Lemma closed_above_app (C : nat) (h : list RT.cell) (c : RT.cell) :
  closed_above C h -> Forall (above C) (cell_vals c) ->
  closed_above C (h ++ [c]).
Proof.
  intros Hcl Hc l c' Hl Hlook.
  apply lookup_app_Some in Hlook as [Hlook|[_ Hlook]]; [by eapply Hcl|].
  destruct (l - length h) as [|n]; simpl in Hlook; [|done].
  by injection Hlook as <-.
Qed.

Lemma closed_above_alter (C l : nat) (f : RT.cell -> RT.cell) (h : list RT.cell) :
  closed_above C h ->
  (forall c, Forall (above C) (cell_vals c) -> Forall (above C) (cell_vals (f c))) ->
  closed_above C (alter f l h).
Proof.
  intros Hcl Hf l' c' Hl' Hlook.
  destruct (decide (l = l')) as [->|Hne].
  - rewrite list_lookup_alter_eq in Hlook.
    destruct (h !! l') as [c|] eqn:E; [|done]. injection Hlook as <-.
    apply Hf. by eapply Hcl.
  - rewrite list_lookup_alter_ne in Hlook by done. by eapply Hcl.
Qed.

Lemma above_weaken (C C' : nat) (v : RT.val) : C' <= C -> above C v -> above C' v.
Proof. intros HC. destruct v; simpl; try done. lia. Qed.

(** From a value above [C], in a heap closed above [C], only cells above [C]
    are reached. *)
Lemma reach_above (C : nat) (h : list RT.cell) (v : RT.val) (l : nat) :
  closed_above C h -> above C v -> reach h v l -> C <= l.
Proof.
  intros Hcl Hv Hreach. induction Hreach as [l|l c v l' Hc Hin _ IH]; [done|].
  apply IH. specialize (Hcl l c Hv Hc).
  rewrite Forall_forall in Hcl. by apply Hcl.
Qed.

(** *** The layout of a parsed value *)

Lemma repr_bounds (h : list RT.cell) :
  (forall lo hi v j, repr h lo hi v j -> lo <= hi)
  /\ (forall lo hi vs js, reprs h lo hi vs js -> lo <= hi).
Proof. apply repr_mutind; intros; lia. Qed.

Lemma repr_agree (h : list RT.cell) :
  (forall lo hi v j, repr h lo hi v j ->
     forall h2, (forall l, lo <= l < hi -> h2 !! l = h !! l) -> repr h2 lo hi v j)
  /\ (forall lo hi vs js, reprs h lo hi vs js ->
        forall h2, (forall l, lo <= l < hi -> h2 !! l = h !! l) ->
        reprs h2 lo hi vs js).
Proof.
  apply repr_mutind; try (intros; constructor; done).
  - intros lo l vs js Hrs IH Hl h2 Hag.
    apply (proj2 (repr_bounds h)) in Hrs.
    apply (repr_arr _ _ _ vs); [apply IH; intros; apply Hag; lia|].
    rewrite Hag; [done|lia].
  - intros lo l ps jps Hrs IH Hk Hl h2 Hag.
    apply (proj2 (repr_bounds h)) in Hrs.
    apply (repr_obj _ _ _ ps); [apply IH; intros; apply Hag; lia|done|].
    rewrite Hag; [done|lia].
  - intros lo mid hi v vs j js Hr IHr Hrs IHrs h2 Hag.
    apply (proj1 (repr_bounds h)) in Hr. apply (proj2 (repr_bounds h)) in Hrs.
    econstructor; [apply IHr|apply IHrs]; intros; apply Hag; lia.
Qed.

Lemma repr_above (h : list RT.cell) (lo hi : nat) (v : RT.val) (j : json) :
  repr h lo hi v j -> above lo v.
Proof.
  intros Hr. destruct Hr as [| | | |lo l vs js Hrs _|lo l ps jps Hrs _ _];
    simpl; try done; by apply (proj2 (repr_bounds h)) in Hrs.
Qed.

Lemma mapM_Forall2 {A B : Type} (f : A -> option B) (l : list A) (k : list B) :
  Forall2 (fun a b => f a = Some b) l k -> RT.mapM f l = Some k.
Proof. induction 1 as [|a b l k Hab _ IH]; simpl; [done|]. by rewrite Hab, IH. Qed.

Lemma stringify_props_Forall2 (f : RT.val -> option (option json))
    (ps : list (jsstring * RT.val)) (jps : list (jsstring * json)) :
  ps.*1 = jps.*1 ->
  Forall2 (fun v j => f v = Some (Some j)) ps.*2 jps.*2 ->
  RT.stringify_props f ps = Some jps.
Proof.
  revert jps. induction ps as [|[k v] ps IH]; intros [|[k' j] jps]; simpl;
    try done.
  intros [= -> Hk] Hall. apply Forall2_cons in Hall as [Hv Hall].
  by rewrite Hv, (IH jps).
Qed.

(** A value laid out as [j] serialises to [j], with fuel for its cells. *)
Lemma repr_stringify (h : list RT.cell) :
  (forall lo hi v j, repr h lo hi v j ->
     forall fuel, hi - lo < fuel -> RT.stringify fuel h v = Some (Some j))
  /\ (forall lo hi vs js, reprs h lo hi vs js ->
        forall fuel, hi - lo < fuel ->
        Forall2 (fun v j => RT.stringify fuel h v = Some (Some j)) vs js).
Proof.
  apply repr_mutind.
  - intros lo [|fuel] Hf; [lia|done].
  - intros lo b [|fuel] Hf; [lia|done].
  - intros lo z [|fuel] Hf; [lia|done].
  - intros lo s [|fuel] Hf; [lia|done].
  - intros lo l vs js Hrs IH Hl [|fuel] Hf; [lia|].
    apply (proj2 (repr_bounds h)) in Hrs. simpl. rewrite Hl.
    rewrite (mapM_Forall2 _ vs js); [done|].
    eapply Forall2_impl; [apply (IH fuel); lia|].
    intros v j E. simpl in E. by rewrite E.
  - intros lo l ps jps Hrs IH Hk Hl [|fuel] Hf; [lia|].
    apply (proj2 (repr_bounds h)) in Hrs. simpl. rewrite Hl.
    rewrite (stringify_props_Forall2 _ ps jps); [done|done|].
    apply IH. lia.
  - intros lo Hf fuel. constructor.
  - intros lo mid hi v vs j js Hr IHr Hrs IHrs fuel Hf.
    apply (proj1 (repr_bounds h)) in Hr. apply (proj2 (repr_bounds h)) in Hrs.
    constructor; [apply IHr|apply IHrs]; lia.
Qed.

(** The cells of a laid-out value exist. *)
Lemma repr_in_heap (h : list RT.cell) :
  (forall lo hi v j, repr h lo hi v j -> lo = hi \/ hi <= length h)
  /\ (forall lo hi vs js, reprs h lo hi vs js -> lo = hi \/ hi <= length h).
Proof.
  apply repr_mutind; try (intros; left; done).
  - intros lo l vs js _ _ Hl. right. apply lookup_lt_Some in Hl. lia.
  - intros lo l ps jps _ _ _ Hl. right. apply lookup_lt_Some in Hl. lia.
  - intros lo mid hi v vs j js Hr IHr Hrs IHrs.
    apply (proj2 (repr_bounds h)) in Hrs. lia.
Qed.

Lemma repr_stringify_heap (h : list RT.cell) (lo hi : nat) (v : RT.val) (j : json) :
  repr h lo hi v j -> RT.stringify (S (length h)) h v = Some (Some j).
Proof.
  intros Hr. eapply (proj1 (repr_stringify h)); [done|].
  apply (proj1 (repr_in_heap h)) in Hr as Hin.
  apply (proj1 (repr_bounds h)) in Hr. lia.
Qed.

Lemma reprs_app_heap (h new : list RT.cell) (lo hi : nat) (v : RT.val) (j : json) :
  repr h lo hi v j -> repr (h ++ new) lo hi v j.
Proof.
  intros Hr. eapply (proj1 (repr_agree h)); [done|].
  intros l Hl. apply lookup_app_l.
  apply (proj1 (repr_in_heap h)) in Hr. lia.
Qed.

Lemma parse_list_spec (js : list json) :
  Forall parse_ok js ->
  forall h vs h', parse_list js h = (vs, h') ->
    (exists new, h' = h ++ new)
    /\ reprs h' (length h) (length h') vs js
    /\ forall C, C <= length h -> closed_above C h ->
         closed_above C h' /\ Forall (above C) vs.
Proof.
  induction 1 as [|j js Hj _ IH]; intros h vs h'; simpl.
  - intros [= <- <-]. split; [exists []; by rewrite app_nil_r|].
    split; [constructor|done].
  - destruct (RT.parse j h) as [v h1] eqn:E1.
    destruct (parse_list js h1) as [vs' h2] eqn:E2.
    intros [= <- <-].
    apply Hj in E1 as ([new1 ->] & Hr & Hc1).
    apply IH in E2 as ([new2 ->] & Hrs & Hc2).
    split; [exists (new1 ++ new2); by rewrite app_assoc|]. split.
    + econstructor; [|done]. by apply reprs_app_heap.
    + intros C HC Hcl. destruct (Hc2 C) as [Hcl2 Hvs].
      { rewrite length_app. lia. }
      { by apply Hc1. }
      split; [done|]. constructor; [|done].
      eapply above_weaken; [done|]. by eapply repr_above.
Qed.

Lemma parse_props_spec (jps : list (jsstring * json)) :
  Forall (fun kv => parse_ok kv.2) jps ->
  forall h ps h', parse_props jps h = (ps, h') ->
    (exists new, h' = h ++ new)
    /\ reprs h' (length h) (length h') ps.*2 jps.*2
    /\ ps.*1 = jps.*1
    /\ forall C, C <= length h -> closed_above C h ->
         closed_above C h' /\ Forall (above C) ps.*2.
Proof.
  induction 1 as [|[k j] jps Hj _ IH]; intros h ps h'; simpl.
  - intros [= <- <-]. split; [exists []; by rewrite app_nil_r|].
    split; [constructor|done].
  - destruct (RT.parse j h) as [v h1] eqn:E1.
    destruct (parse_props jps h1) as [ps' h2] eqn:E2.
    intros [= <- <-].
    apply Hj in E1 as ([new1 ->] & Hr & Hc1).
    apply IH in E2 as ([new2 ->] & Hrs & Hk & Hc2).
    split; [exists (new1 ++ new2); by rewrite app_assoc|]. split; [|split].
    + rewrite !fmap_cons. econstructor; [|done]. by apply reprs_app_heap.
    + rewrite !fmap_cons. simpl. by rewrite Hk.
    + intros C HC Hcl. destruct (Hc2 C) as [Hcl2 Hvs].
      { rewrite length_app. lia. }
      { by apply Hc1. }
      split; [done|]. rewrite fmap_cons. constructor; [|done].
      eapply above_weaken; [done|]. by eapply repr_above.
Qed.

Lemma reprs_app_heap_list (h new : list RT.cell) (lo hi : nat)
    (vs : list RT.val) (js : list json) :
  reprs h lo hi vs js -> reprs (h ++ new) lo hi vs js.
Proof.
  intros Hr. eapply (proj2 (repr_agree h)); [done|].
  intros l Hl. apply lookup_app_l.
  apply (proj2 (repr_in_heap h)) in Hr. lia.
Qed.

(** [JSON.parse] appends the cells of the value, laid out as [repr] says, and
    they refer to one another only. *)
Lemma parse_spec (j : json) : parse_ok j.
Proof.
  induction j as [| | | |elems IH|props IH] using json_ind'; intros h v h'.
  - intros [= <- <-]. split; [exists []; by rewrite app_nil_r|].
    split; [constructor|done].
  - intros [= <- <-]. split; [exists []; by rewrite app_nil_r|].
    split; [constructor|done].
  - intros [= <- <-]. split; [exists []; by rewrite app_nil_r|].
    split; [constructor|done].
  - intros [= <- <-]. split; [exists []; by rewrite app_nil_r|].
    split; [constructor|done].
  - rewrite parse_arr. destruct (parse_list elems h) as [vs h1] eqn:E.
    intros [= <- <-]. apply (parse_list_spec _ IH) in E as ([new ->] & Hrs & Hc).
    split; [exists (new ++ [RT.CArr vs]); by rewrite app_assoc|]. split.
    + replace (length ((h ++ new) ++ [RT.CArr vs])) with (S (length (h ++ new)))
        by (rewrite (length_app (h ++ new)); simpl; lia).
      apply (repr_arr _ _ _ vs).
      * by apply reprs_app_heap_list.
      * by apply list_lookup_middle.
    + intros C HC Hcl. destruct (Hc C HC Hcl) as [Hcl1 Hvs].
      by apply closed_above_app.
  - rewrite parse_obj. destruct (parse_props props h) as [ps h1] eqn:E.
    intros [= <- <-].
    apply (parse_props_spec _ IH) in E as ([new ->] & Hrs & Hk & Hc).
    split; [exists (new ++ [RT.CObj ps]); by rewrite app_assoc|]. split.
    + replace (length ((h ++ new) ++ [RT.CObj ps])) with (S (length (h ++ new)))
        by (rewrite (length_app (h ++ new)); simpl; lia).
      apply (repr_obj _ _ _ ps).
      * by apply reprs_app_heap_list.
      * done.
      * by apply list_lookup_middle.
    + intros C HC Hcl. destruct (Hc C HC Hcl) as [Hcl1 Hvs].
      by apply closed_above_app.
Qed.

(** *** The fuel of [stringify] *)

Lemma mapM_ext {A B : Type} (f g : A -> option B) (l : list A) (k : list B) :
  (forall x r, x ∈ l -> f x = Some r -> g x = Some r) ->
  RT.mapM f l = Some k -> RT.mapM g l = Some k.
Proof.
  revert k. induction l as [|a l IH]; intros k Hfg; simpl; [done|].
  destruct (f a) as [b|] eqn:Ea; [|done].
  destruct (RT.mapM f l) as [bs|] eqn:El; [|done].
  intros [= <-]. rewrite (Hfg a b) by (done || left).
  rewrite (IH bs); [done| |done]. intros x r Hx. apply Hfg. by right.
Qed.

Lemma stringify_props_ext (f g : RT.val -> option (option json))
    (ps : list (jsstring * RT.val)) (k : list (jsstring * json)) :
  (forall x r, x ∈ ps.*2 -> f x = Some r -> g x = Some r) ->
  RT.stringify_props f ps = Some k -> RT.stringify_props g ps = Some k.
Proof.
  revert k. induction ps as [|[key v] ps IH]; intros k Hfg; simpl; [done|].
  destruct (f v) as [r|] eqn:Ev; [|done].
  destruct (RT.stringify_props f ps) as [js|] eqn:Eps; [|by destruct r].
  rewrite (Hfg v r) by (done || left).
  rewrite (IH js); [done| |done]. intros x rx Hx. apply Hfg. by right.
Qed.

Lemma mapM_is_Some {A B : Type} (f : A -> option B) (l : list A) (x : A) :
  is_Some (RT.mapM f l) -> x ∈ l -> is_Some (f x).
Proof.
  induction l as [|a l IH]; simpl; [by intros _ ?%elem_of_nil|].
  destruct (f a) as [b|] eqn:Ea; [|by intros [? ?]].
  destruct (RT.mapM f l) as [bs|]; [|by intros [? ?]].
  intros _ [->|Hx]%elem_of_cons; [by rewrite Ea|]. by apply IH.
Qed.

Lemma stringify_props_is_Some (f : RT.val -> option (option json))
    (ps : list (jsstring * RT.val)) (x : RT.val) :
  is_Some (RT.stringify_props f ps) -> x ∈ ps.*2 -> is_Some (f x).
Proof.
  induction ps as [|[key v] ps IH]; simpl; [by intros _ ?%elem_of_nil|].
  destruct (f v) as [r|] eqn:Ev; [|by intros [? ?]].
  destruct (RT.stringify_props f ps) as [js|]; [|by destruct r; intros [? ?]].
  intros _ [->|Hx]%elem_of_cons; [by rewrite Ev|]. by apply IH.
Qed.

(** The serialisation of a cell depends on that of the values it holds. *)
Lemma stringify_cell_ext (n m : nat) (h : list RT.cell) (l : nat) (c : RT.cell)
    (r : option json) :
  h !! l = Some c ->
  (forall x rx, x ∈ cell_vals c ->
     RT.stringify n h x = Some rx -> RT.stringify m h x = Some rx) ->
  RT.stringify (S n) h (RT.VRef l) = Some r ->
  RT.stringify (S m) h (RT.VRef l) = Some r.
Proof.
  intros Hl Hsame. simpl. rewrite Hl. destruct c as [props|elems]; simpl in Hsame.
  - destruct (RT.stringify_props (RT.stringify n h) props) as [js|] eqn:E;
      [|done].
    by rewrite (stringify_props_ext _ (RT.stringify m h) _ js Hsame E).
  - destruct (RT.mapM _ elems) as [js|] eqn:E; [|done].
    rewrite (mapM_ext (fun e => default Jnull <$> RT.stringify n h e)
               (fun e => default Jnull <$> RT.stringify m h e) elems js);
      [done| |done].
    intros x rx Hx. destruct (RT.stringify n h x) as [sx|] eqn:Ex; [|done].
    by rewrite (Hsame x sx Hx Ex).
Qed.

Lemma stringify_child (n : nat) (h : list RT.cell) (l : nat) (c : RT.cell)
    (x : RT.val) :
  h !! l = Some c -> x ∈ cell_vals c ->
  is_Some (RT.stringify (S n) h (RT.VRef l)) -> is_Some (RT.stringify n h x).
Proof.
  intros Hl Hx. simpl. rewrite Hl. destruct c as [props|elems]; simpl in Hx.
  - rewrite fmap_is_Some. intros Hs. by eapply stringify_props_is_Some.
  - rewrite fmap_is_Some. intros Hs.
    apply (mapM_is_Some _ _ x) in Hs; [|done]. by apply fmap_is_Some in Hs.
Qed.

Lemma stringify_ref_cell (n : nat) (h : list RT.cell) (l : nat) :
  is_Some (RT.stringify n h (RT.VRef l)) -> n <> 0 /\ is_Some (h !! l).
Proof.
  destruct n as [|n]; simpl; [by intros [? ?]|].
  destruct (h !! l); [done|by intros [? ?]].
Qed.

(** More fuel does not change a result. *)
Lemma stringify_mono (h : list RT.cell) (n m : nat) (v : RT.val)
    (r : option json) :
  n <= m -> RT.stringify n h v = Some r -> RT.stringify m h v = Some r.
Proof.
  revert m v r. induction n as [|n IH]; intros m v r Hnm; [done|].
  destruct m as [|m]; [lia|].
  destruct v as [| | |num|s|l]; try done.
  intros E. destruct (h !! l) as [c|] eqn:Hl; [|by simpl in E; rewrite Hl in E].
  eapply stringify_cell_ext; [done| |done].
  intros x rx _. apply IH. lia.
Qed.

(** What is reached from a value that serialises, serialises with no more
    fuel. *)
Lemma reach_stringify (h : list RT.cell) (v : RT.val) (l : nat) :
  reach h v l ->
  forall n, is_Some (RT.stringify n h v) ->
  exists m, m <= n /\ is_Some (RT.stringify m h (RT.VRef l)).
Proof.
  induction 1 as [l|l c x l' Hl Hx _ IH]; intros n Hn; [by exists n|].
  destruct n as [|n]; [by destruct Hn|].
  destruct (IH n) as (m & Hm & Hok); [by eapply stringify_child|].
  exists m. split; [lia|done].
Qed.

(** A cell that serialises does not hold itself. *)
Lemma stringify_acyclic (h : list RT.cell) (l : nat) (c : RT.cell) (x : RT.val) :
  h !! l = Some c -> x ∈ cell_vals c -> reach h x l ->
  forall n, ~ is_Some (RT.stringify n h (RT.VRef l)).
Proof.
  intros Hl Hx Hreach n. induction n as [n IH] using lt_wf_ind.
  intros Hok. destruct n as [|n]; [by destruct Hok|].
  apply (stringify_child n h l c x Hl Hx) in Hok.
  destruct (reach_stringify h x l Hreach n Hok) as (m & Hm & Hok').
  apply (IH m); [lia|done].
Qed.

Lemma stringify_enough (h : list RT.cell) (k : nat) :
  forall (avail : list nat) (v : RT.val) (n : nat) (r : option json),
    length avail = k -> NoDup avail ->
    (forall l, reach h v l -> l ∈ avail) ->
    RT.stringify n h v = Some r ->
    RT.stringify (S k) h v = Some r.
Proof.
  induction k as [|k IH]; intros avail v n r Hlen Hnd Havail E.
  - destruct avail; [|done].
    destruct v as [| | |num|s|l]; try (by destruct n).
    by specialize (Havail l (reach_here h l)) as ?%elem_of_nil.
  - destruct v as [| | |num|s|l]; try (by destruct n).
    destruct n as [|n]; [done|].
    assert (is_Some (h !! l)) as [c Hl].
    { eapply stringify_ref_cell. by rewrite E. }
    destruct (list_elem_of_split avail l) as (l1 & l2 & ->);
      [apply Havail, reach_here|].
    apply NoDup_app in Hnd as (Hnd1 & Hnot & Hnd2).
    apply NoDup_cons in Hnd2 as [Hnot2 Hnd2].
    eapply stringify_cell_ext; [done| |done].
    intros x rx Hx Ex. apply (IH (l1 ++ l2) x n rx); try done.
    + rewrite length_app in *. simpl in Hlen. lia.
    + apply NoDup_app. split; [done|]. split; [|done].
      intros y Hy Hy2. apply (Hnot y Hy). by right.
    + intros l' Hreach.
      assert (l' <> l) as Hne.
      { intros ->. eapply (stringify_acyclic h l c x); [done..|].
        by rewrite E. }
      specialize (Havail l' (reach_step h l c x l' Hl Hx Hreach)).
      apply elem_of_app in Havail as [?|[?|?]%elem_of_cons];
        [apply elem_of_app; by left|done|apply elem_of_app; by right].
Qed.

(** A value that serialises with some fuel serialises with the fuel
    [deepCopy] gives: when [stringify (S (length h))] fails, no fuel would
    do, and the structure is cyclic. *)
Lemma stringify_fuel_enough (h : list RT.cell) (v : RT.val) (n : nat)
    (r : option json) :
  RT.stringify n h v = Some r -> RT.stringify (S (length h)) h v = Some r.
Proof.
  intros E. apply (stringify_enough h (length h) (seq 0 (length h)) v n r);
    [apply length_seq|apply NoDup_seq| |done].
  intros l Hreach.
  destruct (reach_stringify h v l Hreach n) as (m & _ & Hok); [by rewrite E|].
  apply stringify_ref_cell in Hok as [_ Hl]. apply lookup_lt_is_Some in Hl.
  apply elem_of_seq. lia.
Qed.

(** *** The operations of the translator on the heap *)

Lemma obj_set_vals (C : nat) (key : jsstring) (v : RT.val)
    (props : list (jsstring * RT.val)) :
  above C v -> Forall (above C) props.*2 ->
  Forall (above C) (CodeBlockProtector.obj_set key v props).*2.
Proof.
  intros Hv. induction props as [|[k x] props IH]; simpl.
  - intros _. by constructor.
  - intros Hall. apply Forall_cons in Hall as [Hx Hall].
    case_decide; simpl; constructor; auto.
Qed.

Lemma assoc_elem_of {V : Type} (key : jsstring) (o : list (jsstring * V)) (v : V) :
  assoc key o = Some v -> v ∈ o.*2.
Proof.
  induction o as [|[k x] o IH]; simpl; [done|].
  case_decide; [intros [= ->]; left|intros E; right; auto].
Qed.

Lemma getv_above (C : nat) (key : string) (v : RT.val) (h : list RT.cell) :
  closed_above C h -> above C v -> above C (RT.getv key v h).
Proof.
  intros Hcl Hv. destruct v as [| | | | |l]; try done. simpl.
  destruct (h !! l) as [[props|elems]|] eqn:E; try done.
  destruct (assoc (str key) props) as [x|] eqn:Ea; [|done]. simpl.
  specialize (Hcl l _ Hv E). rewrite Forall_forall in Hcl.
  by apply Hcl, (assoc_elem_of (str key)).
Qed.

Section RequestTranslatorProps.
Context `{Builtins} `{TranslationEnv}.

(** [_translateText] leaves the heap alone and returns a string or its
    argument. *)
Lemma translateText_spec (text : RT.val) (h : list RT.cell) (w : world)
    (r : outcome RT.val) (h' : list RT.cell) (w' : world) :
  RT.translateText text h w = (r, h', w') ->
  h' = h /\ forall v C, r = Ok v -> above C text -> above C v.
Proof.
  unfold RT.translateText, RT.catch, RT.bind, RT.lift, RT.ret, RT.throw.
  intros E. repeat case_match; simplify_eq; split; try done;
    intros v C [= <-]; done.
Qed.

Lemma translateBlock_spec (F C a : nat) (block : RT.val) (h : list RT.cell)
    (w : world) (r : outcome unit) (h' : list RT.cell) (w' : world) :
  F <= a -> a < length h -> C <= a -> above C block -> closed_above C h ->
  RT.translateBlock (RT.VRef a) block h w = (r, h', w') ->
  ext F h h' /\ closed_above C h'.
Proof.
  intros HF Ha HC Hb Hcl. unfold RT.translateBlock, RT.bind at 1.
  assert (forall v, ext F h
            (alter (fun c => match c with
                             | RT.CArr elems => RT.CArr (elems ++ [v])
                             | RT.CObj props => RT.CObj props
                             end) a h)) as Hpush_ext.
  { intros v. by apply ext_alter. }
  assert (forall v h1, closed_above C h1 -> above C v ->
            closed_above C
              (alter (fun c => match c with
                               | RT.CArr elems => RT.CArr (elems ++ [v])
                               | RT.CObj props => RT.CObj props
                               end) a h1)) as Hpush_cl.
  { intros v h1 Hcl1 Hv. apply closed_above_alter; [done|].
    intros [props|elems]; simpl; [done|]. intros Hall.
    apply Forall_app. split; [done|by constructor]. }
  destruct (RT.get_strict "type" block h w) as [[[type|e] h1] w1] eqn:Etype.
  2:{ intros [= <- <- <-].
      destruct block; simpl in Etype; unfold RT.throw, RT.read in Etype;
        simplify_eq; (split; [apply ext_refl|done]). }
  assert (h1 = h /\ w1 = w) as [-> ->].
  { destruct block; simpl in Etype; unfold RT.throw, RT.read in Etype;
      by simplify_eq. }
  unfold RT.bind at 1, RT.read at 1.
  destruct (RT.vis_str "text" type && RT.vtruthy (RT.getv "text" block h)).
  - unfold RT.bind at 1.
    assert (exists props,
      RT.spread block h w = (Ok (RT.VRef (length h)), h ++ [RT.CObj props], w)
      /\ Forall (above C) props.*2) as (props & -> & Hprops).
    { unfold RT.spread, RT.alloc.
      destruct block as [| | | | |l]; try (by exists []).
      destruct (h !! l) as [[props|elems]|] eqn:El; try (by exists []).
      exists props. split; [done|]. apply (Hcl l _ Hb El). }
    set (h1 := h ++ [RT.CObj props]).
    assert (ext F h h1) as Hext1.
    { eapply ext_weaken; [|apply ext_app]. lia. }
    assert (closed_above C h1) as Hcl1 by (by apply closed_above_app).
    unfold RT.bind at 1.
    destruct (RT.translateText (RT.getv "text" block h) h1 w)
      as [[[translated|e] h2] w2] eqn:Etext;
      apply translateText_spec in Etext as [-> Habove].
    2:{ by intros [= <- <- <-]. }
    unfold RT.bind at 1. simpl.
    set (h2 := alter _ (length h) h1).
    assert (ext F h1 h2) as Hext2 by (apply ext_alter; lia).
    assert (closed_above C h2) as Hcl2.
    { apply closed_above_alter; [done|].
      intros [ps|elems]; simpl; [|done]. intros Hall.
      apply obj_set_vals; [|done].
      eapply Habove; [done|]. by apply getv_above. }
    intros [= <- <- <-]. split.
    + eapply ext_trans; [apply Hext1|]. eapply ext_trans; [apply Hext2|].
      by apply ext_alter.
    + apply Hpush_cl; [done|]. simpl. lia.
  - simpl. intros [= <- <- <-]. split; [apply Hpush_ext|by apply Hpush_cl].
Qed.

Lemma forM_blocks_spec (F C a : nat) (blocks : list RT.val) :
  F <= a -> C <= a -> Forall (above C) blocks ->
  forall h w r h' w',
    a < length h -> closed_above C h ->
    RT.forM blocks (RT.translateBlock (RT.VRef a)) h w = (r, h', w') ->
    ext F h h' /\ closed_above C h'.
Proof.
  intros HF HC. induction 1 as [|block blocks Hb _ IH]; intros h w r h' w' Ha Hcl.
  - intros [= <- <- <-]. split; [apply ext_refl|done].
  - simpl. unfold RT.bind at 1.
    destruct (RT.translateBlock (RT.VRef a) block h w) as [[[[]|e] h1] w1] eqn:E1;
      apply (translateBlock_spec F C) in E1 as [Hext1 Hcl1]; try done.
    + intros E2. apply IH in E2 as [Hext2 Hcl2]; [|destruct Hext1; lia|done].
      split; [by eapply ext_trans|done].
    + by intros [= <- <- <-].
Qed.

Lemma translateContent_spec (C : nat) (content : RT.val) (h : list RT.cell)
    (w : world) (r : outcome RT.val) (h' : list RT.cell) (w' : world) :
  C <= length h -> closed_above C h -> above C content ->
  RT.translateContent content h w = (r, h', w') ->
  ext (length h) h h' /\ closed_above C h'
  /\ forall v, r = Ok v -> above C v.
Proof.
  intros HC Hcl Habove.
  assert (forall s, content = RT.VStr s ->
            RT.translateText content h w = (r, h', w') ->
            ext (length h) h h' /\ closed_above C h'
            /\ forall v, r = Ok v -> above C v) as Hstr.
  { intros s -> E. apply translateText_spec in E as [-> Hv].
    split; [apply ext_refl|]. split; [done|]. intros v ->. by eapply Hv. }
  destruct content as [| | | |s|l]; simpl; try (by eapply Hstr);
    try (unfold RT.bind, RT.read, RT.ret; simpl; intros [= <- <- <-];
         split; [apply ext_refl|split; [done|by intros v [= <-]]]).
  unfold RT.bind at 1, RT.read at 1. simpl.
  destruct (h !! l) as [[props|elems]|] eqn:El;
    try (unfold RT.ret; intros [= <- <- <-];
         split; [apply ext_refl|split; [done|by intros v [= <-]]]).
  unfold RT.bind at 1, RT.alloc at 1.
  set (h1 := h ++ [RT.CArr []]).
  assert (closed_above C h1) as Hcl1 by (by apply closed_above_app).
  unfold RT.bind at 1, RT.elements at 1.
  assert (h1 !! l = Some (RT.CArr elems)) as ->.
  { unfold h1. rewrite lookup_app_l; [done|]. by eapply lookup_lt_Some. }
  unfold RT.bind at 1.
  destruct (RT.forM elems _ h1 w) as [[[[]|e] h2] w2] eqn:Eloop;
    apply (forM_blocks_spec (length h) C) in Eloop as [Hext Hcl2];
    try done; try apply (Hcl l _ Habove El);
    try (unfold h1; rewrite length_app; simpl; lia).
  - unfold RT.ret. intros [= <- <- <-].
    split; [eapply ext_trans; [apply ext_app|done]|]. split; [done|].
    intros v [= <-]. done.
  - intros [= <- <- <-].
    split; [eapply ext_trans; [apply ext_app|done]|]. by split.
Qed.

(** One message: nothing happens unless its role is ["user"]; then cells
    are added and the message object itself is assigned to. *)
Lemma translateMessage_spec (C : nat) (message : RT.val) (h : list RT.cell)
    (w : world) (r : outcome unit) (h' : list RT.cell) (w' : world) :
  C <= length h -> closed_above C h -> above C message ->
  RT.translateMessage message h w = (r, h', w') ->
  length h <= length h' /\ closed_above C h'
  /\ (forall l, l < length h -> message <> RT.VRef l -> h' !! l = h !! l)
  /\ (RT.vis_str "user" (RT.getv "role" message h) = false -> h' = h).
Proof.
  intros HC Hcl Habove. unfold RT.translateMessage, RT.bind at 1.
  destruct (RT.get_strict "role" message h w) as [[[role|e] h1] w1] eqn:Erole.
  2:{ intros [= <- <- <-].
      destruct message; simpl in Erole; unfold RT.throw, RT.read in Erole;
        by simplify_eq. }
  assert (h1 = h /\ w1 = w /\ role = RT.getv "role" message h) as (-> & -> & ->).
  { destruct message; simpl in Erole; unfold RT.throw, RT.read in Erole;
      by simplify_eq. }
  destruct (RT.vis_str "user" _) eqn:Euser.
  2:{ unfold RT.ret. by intros [= <- <- <-]. }
  unfold RT.bind at 1, RT.read at 1. unfold RT.bind at 1.
  destruct (RT.translateContent _ h w) as [[[translated|e] h2] w2] eqn:Econtent;
    apply (translateContent_spec C) in Econtent as (Hext & Hcl2 & Hv);
    try done; try (by apply getv_above).
  2:{ intros [= <- <- <-]. destruct Hext as [Hlen Hsame]. by repeat split; auto. }
  destruct Hext as [Hlen Hsame].
  destruct message as [| | | | |l]; try done. simpl.
  intros [= <- <- <-]. rewrite length_alter. repeat split; try done.
  - apply closed_above_alter; [done|].
    intros [ps|elems]; simpl; [|done]. intros Hall.
    apply obj_set_vals; [|done]. by apply Hv.
  - intros l' Hl' Hne. rewrite list_lookup_alter_ne by congruence. by apply Hsame.
Qed.

(** *** The messages of the copy *)

Lemma reprs_length (h : list RT.cell) (lo hi : nat) (vs : list RT.val)
    (js : list json) :
  reprs h lo hi vs js -> length vs = length js.
Proof. induction 1; simpl; [done|]. by f_equal. Qed.

Lemma reprs_lookup (h : list RT.cell) (lo hi : nat) (vs : list RT.val)
    (js : list json) (i : nat) (v : RT.val) (j : json) :
  reprs h lo hi vs js -> vs !! i = Some v -> js !! i = Some j ->
  exists mlo mhi, lo <= mlo /\ mhi <= hi /\ repr h mlo mhi v j.
Proof.
  intros Hrs. revert i. induction Hrs as [|lo mid hi v' vs j' js Hr Hrs IH];
    intros i; [done|].
  apply (proj1 (repr_bounds h)) in Hr as Hb1.
  apply (proj2 (repr_bounds h)) in Hrs as Hb2.
  destruct i as [|i]; simpl.
  - intros [= ->] [= ->]. exists lo, mid. by repeat split; try lia.
  - intros Hv Hj. destruct (IH i Hv Hj) as (mlo & mhi & ? & ? & ?).
    exists mlo, mhi. repeat split; try done; lia.
Qed.

Lemma assoc_reprs (h : list RT.cell) (key : jsstring)
    (ps : list (jsstring * RT.val)) (x : RT.val) :
  forall (jps : list (jsstring * json)) (lo hi : nat),
    ps.*1 = jps.*1 -> reprs h lo hi ps.*2 jps.*2 ->
    assoc key ps = Some x ->
    exists jx mlo mhi,
      assoc key jps = Some jx /\ repr h mlo mhi x jx /\ lo <= mlo /\ mhi <= hi.
Proof.
  induction ps as [|[k v] ps IH]; intros [|[k' j] jps] lo hi; simpl; try done.
  intros [= <- Hk] Hrs. inversion Hrs as [|? mid ? ? ? ? ? Hr Hrs']; subst.
  apply (proj1 (repr_bounds h)) in Hr as Hb1.
  apply (proj2 (repr_bounds h)) in Hrs' as Hb2.
  case_decide.
  - intros [= ->]. exists j, lo, mid. by repeat split; try lia.
  - intros Hx. destruct (IH jps mid hi Hk Hrs' Hx) as (jx & mlo & mhi & ? & ? & ? & ?).
    exists jx, mlo, mhi. repeat split; try done; lia.
Qed.

Lemma repr_ref (h : list RT.cell) (lo hi l : nat) (j : json) :
  repr h lo hi (RT.VRef l) j -> hi = S l /\ lo <= l.
Proof.
  inversion 1 as [| | | |? ? ? ? Hrs|? ? ? ? Hrs]; subst;
    apply (proj2 (repr_bounds h)) in Hrs; by split.
Qed.

(** A message that the loop takes for a user message is one. *)
Lemma repr_getv_user (h : list RT.cell) (lo hi : nat) (v : RT.val) (j : json) :
  repr h lo hi v j ->
  RT.vis_str "user" (RT.getv "role" v h) = true -> is_user j.
Proof.
  inversion 1 as [| | | |? l vs js Hrs Hl|? l ps jps Hrs Hk Hl]; subst; simpl;
    try done.
  - by rewrite Hl.
  - rewrite Hl. destruct (assoc (str "role") ps) as [x|] eqn:Ex; [|done].
    simpl. intros Hu.
    destruct (assoc_reprs h _ ps x jps lo l Hk Hrs Ex) as (jx & mlo & mhi & Ej & Hr & _).
    unfold is_user. simpl. rewrite Ej.
    destruct x as [| | | |s|]; try done. simpl in Hu.
    apply bool_decide_eq_true in Hu as ->.
    by inversion Hr.
Qed.

(** The [messages] array of a parsed envelope. *)
Lemma repr_messages (h : list RT.cell) (lo hi : nat) (v : RT.val) (j : json)
    (lm : nat) (ms : list RT.val) :
  repr h lo hi v j ->
  RT.getv "messages" v h = RT.VRef lm -> h !! lm = Some (RT.CArr ms) ->
  exists jmsgs mlo root,
    v = RT.VRef root /\ hi = S root /\ lm < root /\ lo <= mlo
    /\ json_get "messages" j = Some (Jarr jmsgs)
    /\ reprs h mlo lm ms jmsgs.
Proof.
  inversion 1 as [| | | |? l vs js Hrs Hl|? l ps jps Hrs Hk Hl]; subst; simpl;
    try done.
  - by rewrite Hl.
  - rewrite Hl. destruct (assoc (str "messages") ps) as [x|] eqn:Ex; [|done].
    simpl. intros -> Hlm.
    destruct (assoc_reprs h _ ps _ jps lo l Hk Hrs Ex)
      as (jx & mlo & mhi & Ej & Hr & Hlo & Hhi).
    apply repr_ref in Hr as Hb. destruct Hb as [-> _].
    inversion Hr as [| | | |? ? vs js Hrs' Hl'|? ? ps' jps' Hrs' Hk' Hl'];
      subst; [|congruence].
    rewrite Hlm in Hl'. injection Hl' as <-.
    exists js, mlo, l. repeat split; try done; lia.
Qed.

(** The loop over the messages of the copy.  [h1] is the heap after the
    copy, where the messages not yet visited still lie as parsed, in the
    cells [lo] to [hi - 1]. *)
Lemma messages_loop (C : nat) (h1 : list RT.cell) (lo hi : nat)
    (ms : list RT.val) (jms : list json) :
  reprs h1 lo hi ms jms ->
  forall h w r h' w',
    C <= lo -> hi <= length h1 -> length h1 <= length h ->
    (forall l, lo <= l < hi -> h !! l = h1 !! l) ->
    closed_above C h ->
    RT.forM ms RT.translateMessage h w = (r, h', w') ->
    length h <= length h' /\ closed_above C h'
    /\ (forall l, l < length h -> ~ (lo <= l < hi) -> h' !! l = h !! l)
    /\ (r = Ok tt ->
        forall i m jm, ms !! i = Some m -> jms !! i = Some jm -> ~ is_user jm ->
        exists mlo mhi, repr h' mlo mhi m jm).
Proof.
  induction 1 as [lo|lo mid hi v vs j js Hr Hrs IH];
    intros h w r h' w' HC Hhi Hlen Hag Hcl.
  - intros [= <- <- <-]. repeat split; try done.
  - apply (proj1 (repr_bounds h1)) in Hr as Hb1.
    apply (proj2 (repr_bounds h1)) in Hrs as Hb2.
    assert (repr h lo mid v j) as Hrh.
    { eapply (proj1 (repr_agree h1)); [done|]. intros l Hl. apply Hag. lia. }
    assert (forall l, RT.VRef l = v -> lo <= l < mid) as Hroot.
    { intros l <-. apply repr_ref in Hr. lia. }
    simpl. unfold RT.bind at 1.
    destruct (RT.translateMessage v h w) as [[[[]|e] h2] w2] eqn:E1;
      apply (translateMessage_spec C) in E1 as (Hlen2 & Hcl2 & Hsame & Hnot);
      try done; try lia;
      try (eapply above_weaken; [|by eapply repr_above]; lia).
    + intros E2.
      apply IH in E2 as (Hlen' & Hcl' & Hsame' & Hmsgs'); try done; try lia.
      2:{ intros l Hl. rewrite Hsame; [apply Hag; lia|lia|].
          intros ->. specialize (Hroot l eq_refl). lia. }
      repeat split; try done; try lia.
      * intros l Hl Hout. rewrite Hsame'; [|lia|lia].
        apply Hsame; [done|]. intros ->. specialize (Hroot l eq_refl). lia.
      * intros Hok [|i] m jm; simpl.
        -- intros [= <-] [= <-] Hnu.
           assert (h2 = h) as ->.
           { apply Hnot. destruct (RT.vis_str _ _) eqn:Eu; [|done].
             destruct Hnu. by eapply repr_getv_user. }
           exists lo, mid. eapply (proj1 (repr_agree h)); [done|].
           intros l Hl. apply Hsame'; lia.
        -- by apply Hmsgs'.
    + intros [= <- <- <-]. repeat split; try done.
      intros l Hl Hout. apply Hsame; [done|].
      intros ->. specialize (Hroot l eq_refl). lia.
Qed.

Lemma closed_above_length (h : list RT.cell) : closed_above (length h) h.
Proof. intros l c Hl Hc. apply lookup_lt_Some in Hc. lia. Qed.

(** The [try] block: whatever its outcome the cells of the input are intact;
    when it returns, the value is made of new cells only, and the messages
    that are not user messages serialise as they did in the input. *)
Lemma translateMessages_spec (requestBody : RT.val) (h0 : list RT.cell)
    (w : world) (r : outcome RT.val) (h' : list RT.cell) (w' : world) :
  RT.translateMessages requestBody h0 w = (r, h', w') ->
  ext (length h0) h0 h'
  /\ forall ret, r = Ok ret ->
       (forall l, reach h' ret l -> length h0 <= l)
       /\ exists j jmsgs ms lm,
            RT.stringify (S (length h0)) h0 requestBody = Some (Some j)
            /\ json_get "messages" j = Some (Jarr jmsgs)
            /\ RT.getv "messages" ret h' = RT.VRef lm
            /\ h' !! lm = Some (RT.CArr ms)
            /\ length ms = length jmsgs
            /\ forall i m jm,
                 ms !! i = Some m -> jmsgs !! i = Some jm -> ~ is_user jm ->
                 RT.stringify (S (length h')) h' m = Some (Some jm).
Proof.
  unfold RT.translateMessages, RT.bind at 1, RT.deepCopy.
  destruct (RT.stringify (S (length h0)) h0 requestBody) as [[j|]|] eqn:Ej;
    try (intros [= <- <- <-]; split; [apply ext_refl|done]).
  destruct (RT.parse j h0) as [v1 h1] eqn:Ep.
  destruct (parse_spec j _ _ _ Ep) as ([new ->] & Hr & Hc).
  set (h1 := h0 ++ new) in *.
  assert (closed_above (length h0) h1) as Hcl1.
  { apply Hc; [done|apply closed_above_length]. }
  unfold RT.bind at 1, RT.read at 1. unfold RT.bind at 1, RT.elements at 1.
  destruct (RT.getv "messages" v1 h1) as [| | | | |lm] eqn:Em;
    try (intros [= <- <- <-]; split; [apply ext_app|done]).
  destruct (h1 !! lm) as [[ps|ms]|] eqn:Elm;
    try (intros [= <- <- <-]; split; [apply ext_app|done]).
  destruct (repr_messages _ _ _ _ _ _ _ Hr Em Elm)
    as (jmsgs & mlo & root & -> & Hhi & Hroot & Hmlo & Hj & Hrs).
  unfold RT.bind at 1.
  destruct (RT.forM ms RT.translateMessage h1 w) as [[r2 h2] w2] eqn:Eloop.
  apply (messages_loop (length h0) h1 mlo lm ms jmsgs Hrs) in Eloop
    as (Hlen & Hcl2 & Hsame & Hmsgs); try done.
  2:{ apply lookup_lt_Some in Elm. lia. }
  assert (ext (length h0) h0 h2) as Hext.
  { eapply ext_trans; [apply ext_app|]. split; [done|].
    intros l Hl. apply Hsame; [|lia]. unfold h1. rewrite length_app. lia. }
  destruct r2 as [[]|e]; [|intros [= <- <- <-]; by split].
  unfold RT.ret. intros [= <- <- <-]. split; [done|].
  intros ret [= <-]. split.
  { intros l Hreach. eapply reach_above; [apply Hcl2| |apply Hreach].
    by eapply repr_above. }
  assert (root < length h1) as Hrl by lia.
  assert (lm < length h1) as Hll by lia.
  exists j, jmsgs, ms, lm. repeat split; try done.
  - unfold RT.getv in *. rewrite Hsame; [done|done|lia].
  - rewrite Hsame; [done|done|lia].
  - by eapply reprs_length.
  - intros i m jm Hm Hjm Hnu.
    destruct (Hmsgs eq_refl i m jm Hm Hjm Hnu) as (a & b & Hrm).
    by eapply repr_stringify_heap.
Qed.

End RequestTranslatorProps.

(** C7, as stated, fails for an account with translation off: the envelope
    returned is the input itself, and an assignment through it is seen
    through the input. *)
Lemma translateRequest_returns_input :
  @RT.translateRequest bare_builtins (fixed_reply (Some (str "Hello")))
     sample_request disabled_account sample_heap []
   = (Ok sample_request, sample_heap, [])
  /\ RT.getv "model" sample_request sample_heap = RT.VStr (str "m")
  /\ RT.getv "model" sample_request
       (snd (fst (@RT.set_prop (fixed_reply (Some (str "Hello")))
                    sample_request "model" (RT.VStr (str "x")) sample_heap [])))
     = RT.VStr (str "x").
Proof. repeat split. Qed.

(** Scenario S4 with the string ["false"]: the request is copied and the
    user message translated; the input still reads as before. *)
Example scenario_S4 :
  let '(r, h', _) :=
    @RT.translateRequest bare_builtins (fixed_reply (Some (str "Hello")))
      sample_request string_false_account sample_heap [] in
  r = Ok (RT.VRef 7)
  /\ RT.stringify (S (length h')) h' (RT.VRef 7)
     = Some (Some
         (Jobj [(str "model", Jstr (str "m"));
                (str "messages",
                 Jarr [Jobj [(str "role", Jstr (str "system"));
                             (str "content", Jstr (str "Be brief"))];
                       Jobj [(str "role", Jstr (str "user"));
                             (str "content", Jstr (str "Hello"))]])]))
  /\ RT.stringify (S (length h')) h' sample_request = Some (Some sample_body).
Proof. vm_compute. repeat split. Qed.

(** ** The string ["false"] *)

Section StringFalse.
Context `{Builtins} `{TranslationEnv}.

Lemma processEvents_disabled (events : list (list (jsstring * jv)))
    (tr : ResponseTranslator.t) (w : world) :
  ResponseTranslator.enabled tr = false ->
  ResponseTranslator.writable (ResponseTranslator.outputStream tr) = true ->
  ResponseTranslator.written
    (ResponseTranslator.outputStream
       (fst (ResponseTranslator.processEvents events tr w)))
  = ResponseTranslator.written (ResponseTranslator.outputStream tr)
    ++ (JObj <$> events)
  /\ snd (ResponseTranslator.processEvents events tr w) = w.
Proof.
  revert tr. induction events as [|props rest IH]; intros tr He Hw.
  - simpl. by rewrite app_nil_r.
  - cbn [ResponseTranslator.processEvents].
    pose proof (processEvent_disabled props tr w He) as Hstep.
    pose proof (processEvent_wrote props tr w Hw) as (new & (Hw1 & _) & _).
    destruct (ResponseTranslator.processEvent props tr w) as [tr1 w1].
    destruct Hstep as (-> & He1 & _ & _ & _ & Hwr). simpl in Hw1.
    destruct (IH tr1 He1 Hw1) as [Hall Hworld].
    rewrite Hall, Hwr, Hw, Hworld. split; [|done].
    rewrite fmap_cons. by rewrite <- app_assoc.
Qed.

End StringFalse.

(* ===================================================================== *)
(** * Part III: further properties                                         *)
(* ===================================================================== *)

(** ** sentenceBuffer.js *)

Lemma search_first (s : jsstring) (k : nat) :
  SentenceBuffer.search s = Some k -> no_terminator (take k s).
Proof.
  unfold no_terminator. revert k. induction s as [|c s IH]; intros k; simpl; [done|].
  destruct (SentenceBuffer.sentenceEnders c) eqn:E.
  - by intros [= <-].
  - destruct (SentenceBuffer.search s) as [k'|]; [|done].
    intros [= <-]. simpl. rewrite E. simpl. by apply IH.
Qed.

Lemma no_terminator_app (s t : jsstring) :
  no_terminator (s ++ t) <-> no_terminator s /\ no_terminator t.
Proof. unfold no_terminator. rewrite forallb_app. apply andb_true_iff. Qed.

Lemma no_terminator_drop (s : jsstring) (k : nat) :
  no_terminator s -> no_terminator (drop k s).
Proof.
  intros Hs. rewrite <- (take_drop k s) in Hs.
  by apply no_terminator_app in Hs as [_ ?].
Qed.

(** The sentence cut at a match has no terminator before the match, when the
    scan started at [lastEnd]. *)
Lemma slice_one_terminator (buffer : jsstring) (lastEnd index : nat) :
  SentenceBuffer.exec buffer lastEnd = Some index ->
  one_terminator (SentenceBuffer.slice buffer lastEnd (index + 1)).
Proof.
  unfold SentenceBuffer.exec.
  destruct (SentenceBuffer.search (drop lastEnd buffer)) as [k|] eqn:E; [|done].
  intros [= <-]. apply search_first in E as Hfirst.
  apply search_Some in E as (c & Hc & He).
  exists (take k (drop lastEnd buffer)), c. split; [|done].
  unfold SentenceBuffer.slice.
  replace (lastEnd + k + 1 - lastEnd) with (S k) by lia.
  by apply take_S_r.
Qed.

Lemma add_loop_one_terminator (fuel : nat) (buffer : jsstring) (lastEnd : nat)
    (acc sentences : list jsstring) (e : nat) :
  SentenceBuffer.add_loop fuel buffer lastEnd acc = (sentences, e) ->
  Forall one_terminator acc -> Forall one_terminator sentences.
Proof.
  revert lastEnd acc. induction fuel as [|fuel IH]; intros lastEnd acc; simpl.
  - by intros [= <- <-].
  - destruct (SentenceBuffer.exec buffer lastEnd) as [index|] eqn:E.
    + intros Hloop Hacc. eapply IH; [done|].
      apply Forall_app. split; [done|]. constructor; [|done].
      by apply slice_one_terminator.
    + by intros [= <- <-].
Qed.

(** One call of [add] on a buffer that holds no terminator. *)
Lemma add_decomposes (v : jv) (buffer : jsstring) :
  no_terminator buffer ->
  concat (SentenceBuffer.add v buffer).1 ++ (SentenceBuffer.add v buffer).2
    = buffer ++ text_of v
  /\ Forall one_terminator (SentenceBuffer.add v buffer).1
  /\ no_terminator (SentenceBuffer.add v buffer).2.
Proof.
  intros Hb. split; [|split].
  - destruct v as [| | | |s| |]; try (by rewrite add_not_a_string, app_nil_r).
    destruct (SentenceBuffer.add (JStr s) buffer) as [ss b'] eqn:E.
    by apply add_spec in E as [? _].
  - unfold SentenceBuffer.add. destruct v as [| | | |[|c t]| |]; try done.
    destruct (SentenceBuffer.add_loop _ _ _ _) as [ss e] eqn:E. simpl.
    by eapply add_loop_one_terminator.
  - by apply add_leaves_no_terminator.
Qed.

Lemma add_all_decomposes (vs : list jv) (buffer : jsstring) :
  no_terminator buffer ->
  concat (SentenceBuffer.add_all vs buffer).1 ++ (SentenceBuffer.add_all vs buffer).2
    = buffer ++ concat (text_of <$> vs)
  /\ Forall one_terminator (SentenceBuffer.add_all vs buffer).1
  /\ no_terminator (SentenceBuffer.add_all vs buffer).2.
Proof.
  revert buffer. induction vs as [|v vs IH]; intros buffer Hb.
  - simpl. by rewrite !app_nil_r.
  - cbn [SentenceBuffer.add_all].
    destruct (add_decomposes v buffer Hb) as (Hcat & Hall & Hno).
    destruct (SentenceBuffer.add v buffer) as [s1 b1]. simpl in *.
    destruct (IH b1 Hno) as (Hcat' & Hall' & Hno').
    destruct (SentenceBuffer.add_all vs b1) as [s2 b2]. simpl in *.
    split; [|split; [by apply Forall_app|done]].
    rewrite concat_app, <- app_assoc, Hcat', app_assoc, Hcat.
    by rewrite <- app_assoc.
Qed.

(** Where the first terminator of a text is, is determined by the text. *)
Lemma first_terminator_unique (pre1 pre2 rest1 rest2 : jsstring) (c1 c2 : N) :
  no_terminator pre1 -> no_terminator pre2 ->
  SentenceBuffer.sentenceEnders c1 = true ->
  SentenceBuffer.sentenceEnders c2 = true ->
  pre1 ++ c1 :: rest1 = pre2 ++ c2 :: rest2 ->
  pre1 = pre2 /\ c1 = c2 /\ rest1 = rest2.
Proof.
  unfold no_terminator. revert pre2.
  induction pre1 as [|a pre1 IH]; intros [|b pre2]; simpl.
  - by intros _ _ _ _ [= -> ->].
  - intros _ [Hb _]%andb_true_iff H1 _ [= <- _]. by rewrite H1 in Hb.
  - intros [Ha _]%andb_true_iff _ _ H2 [= -> _]. by rewrite H2 in Ha.
  - intros [_ Hp1]%andb_true_iff [_ Hp2]%andb_true_iff H1 H2 [= -> E].
    destruct (IH pre2 Hp1 Hp2 H1 H2 E) as (-> & -> & ->). done.
Qed.

(** A text splits in one way only into sentences of one terminator each and a
    rest without terminator. *)
Lemma decomposition_unique (ss1 ss2 : list jsstring) (b1 b2 : jsstring) :
  Forall one_terminator ss1 -> Forall one_terminator ss2 ->
  no_terminator b1 -> no_terminator b2 ->
  concat ss1 ++ b1 = concat ss2 ++ b2 ->
  ss1 = ss2 /\ b1 = b2.
Proof.
  intros H1. revert ss2. induction H1 as [|s1 ss1 (p1 & c1 & -> & Hc1 & Hp1) _ IH];
    intros ss2 H2 Hb1 Hb2.
  - destruct H2 as [|s2 ss2 (p2 & c2 & -> & Hc2 & Hp2) _]; simpl; [done|].
    intros ->. rewrite <- !app_assoc in Hb1.
    apply no_terminator_app in Hb1 as [_ Hb1]. unfold no_terminator in Hb1.
    simpl in Hb1. by rewrite Hc2 in Hb1.
  - destruct H2 as [|s2 ss2 (p2 & c2 & -> & Hc2 & Hp2) H2]; simpl.
    + intros E. rewrite <- E, <- !app_assoc in Hb2.
      apply no_terminator_app in Hb2 as [_ Hb2]. unfold no_terminator in Hb2.
      simpl in Hb2. by rewrite Hc1 in Hb2.
    + rewrite <- !app_assoc. simpl. intros E.
      apply first_terminator_unique in E as (-> & -> & E); try done.
      destruct (IH ss2 H2 Hb1 Hb2 E) as [-> ->]. done.
Qed.

(** X1: after [reset], whatever values are passed to [add], the buffer never
    holds a sentence terminator: all complete sentences have been handed out. *)
Theorem buffer_holds_no_terminator (b0 : jsstring) (vs : list jv) :
  no_terminator (SentenceBuffer.add_all vs (SentenceBuffer.reset b0)).2.
Proof. by apply add_all_decomposes. Qed.

(** X2: after [reset], every sentence [add] returns holds exactly one
    terminator, as its last code unit. *)
Theorem sentences_have_one_terminator (b0 : jsstring) (vs : list jv) :
  Forall one_terminator (SentenceBuffer.add_all vs (SentenceBuffer.reset b0)).1.
Proof. by apply add_all_decomposes. Qed.

(** X3: the sentences do not depend on how the text is cut into chunks:
    adding the chunks one by one returns, in all, the sentences that adding
    their concatenation at once returns, and leaves the same buffer. *)
Theorem add_chunking_independent (b0 : jsstring) (texts : list jsstring) :
  SentenceBuffer.add_all (JStr <$> texts) (SentenceBuffer.reset b0)
  = SentenceBuffer.add (JStr (concat texts)) (SentenceBuffer.reset b0).
Proof.
  unfold SentenceBuffer.reset.
  destruct (add_all_decomposes (JStr <$> texts) []) as (Hcat & Hall & Hno); [done|].
  destruct (add_decomposes (JStr (concat texts)) []) as (Hcat' & Hall' & Hno');
    [done|].
  destruct (SentenceBuffer.add_all _ []) as [ss1 b1].
  destruct (SentenceBuffer.add _ []) as [ss2 b2]. simpl in *.
  assert (concat (text_of <$> (JStr <$> texts)) = concat texts) as Htexts.
  { f_equal. rewrite <- list_fmap_compose. apply list_fmap_id. }
  destruct (decomposition_unique ss1 ss2 b1 b2) as [-> ->]; try done.
  by rewrite Hcat, Hcat', Htexts.
Qed.

(** ** codeBlockProtector.js *)

Lemma digits_of_uint_inj (u v : Decimal.uint) :
  digits_of_uint u = digits_of_uint v -> u = v.
Proof.
  revert v. induction u as [|u IH|u IH|u IH|u IH|u IH|u IH|u IH|u IH|u IH|u IH];
    intros [|v|v|v|v|v|v|v|v|v|v]; simpl; try discriminate; try done;
    intros [= E]; f_equal; by apply IH.
Qed.

Lemma nat_to_string_inj (n m : nat) : nat_to_string n = nat_to_string m -> n = m.
Proof.
  intros E%digits_of_uint_inj. by apply DecimalNat.Unsigned.to_uint_inj.
Qed.

Lemma placeholder_key_inj (tag : jsstring) (i j : nat) :
  placeholder_key tag i = placeholder_key tag j -> i = j.
Proof.
  unfold placeholder_key. intros E.
  do 3 apply app_inv_head in E. apply app_inv_tail in E.
  by apply nat_to_string_inj.
Qed.

Lemma placeholder_key_tags (i j : nat) :
  placeholder_key (str "CODE_BLOCK") i <> placeholder_key (str "INLINE_CODE") j.
Proof. unfold placeholder_key. simpl. discriminate. Qed.

Lemma numbered_below_fresh (tag : jsstring) (i : nat) (keys : list jsstring) :
  tag = str "CODE_BLOCK" \/ tag = str "INLINE_CODE" ->
  numbered_below i keys -> placeholder_key tag i ∉ keys.
Proof.
  intros Htag Hkeys Hin. unfold numbered_below in Hkeys.
  rewrite Forall_forall in Hkeys.
  destruct (Hkeys _ Hin) as (tag' & j & Htag' & Hj & E).
  destruct Htag as [-> | ->], Htag' as [-> | ->].
  - apply placeholder_key_inj in E. lia.
  - by apply placeholder_key_tags in E.
  - symmetry in E. by apply placeholder_key_tags in E.
  - apply placeholder_key_inj in E. lia.
Qed.

Lemma numbered_below_mono (i i' : nat) (keys : list jsstring) :
  i <= i' -> numbered_below i keys -> numbered_below i' keys.
Proof.
  intros Hle Hkeys. eapply Forall_impl; [exact Hkeys|].
  intros k (tag & j & ? & ? & ?).
  exists tag, j. repeat split; [done|lia|done].
Qed.

Lemma obj_set_fresh {V : Type} (key : jsstring) (v : V) (o : list (jsstring * V)) :
  key ∉ o.*1 -> CodeBlockProtector.obj_set key v o = o ++ [(key, v)].
Proof.
  induction o as [|[k w] o IH]; simpl; [done|].
  intros [Hne Hnot]%not_elem_of_cons.
  destruct (decide (k = key)) as [->|_]; [done|]. by rewrite IH.
Qed.

Lemma protect_fresh (tag m : jsstring) (i : nat)
    (phs : list (jsstring * jsstring)) :
  tag = str "CODE_BLOCK" \/ tag = str "INLINE_CODE" ->
  numbered_below i phs.*1 ->
  CodeBlockProtector.protect tag m (i, phs)
  = (placeholder_key tag i, (S i, phs ++ [(placeholder_key tag i, m)])).
Proof.
  intros Htag Hphs. unfold CodeBlockProtector.protect. cbn [fst snd].
  fold (placeholder_key tag i).
  by rewrite obj_set_fresh by (by apply numbered_below_fresh).
Qed.

(** One pass of [extract]: the callback is run once for each match, in order;
    each run adds one key, numbered by the counter, with the match as its
    value. *)
Lemma replace_go_protect (matcher : jsstring -> option nat) (tag : jsstring)
    (fuel : nat) (s : jsstring) (i : nat) (phs : list (jsstring * jsstring)) :
  tag = str "CODE_BLOCK" \/ tag = str "INLINE_CODE" ->
  numbered_below i phs.*1 ->
  exists out phs',
    replace_go matcher (CodeBlockProtector.protect tag) fuel s (i, phs)
      = (out, (i + length (match_go matcher fuel s), phs'))
    /\ phs'.*1 = phs.*1
         ++ (placeholder_key tag <$> seq i (length (match_go matcher fuel s)))
    /\ phs'.*2 = phs.*2 ++ match_go matcher fuel s
    /\ numbered_below (i + length (match_go matcher fuel s)) phs'.*1.
Proof.
  intros Htag. revert s i phs.
  induction fuel as [|fuel IH]; intros s i phs Hphs; cbn [replace_go match_go].
  { exists s, phs. simpl. rewrite Nat.add_0_r, !app_nil_r. done. }
  destruct s as [|c rest].
  { exists [], phs. simpl. rewrite Nat.add_0_r, !app_nil_r. done. }
  destruct (matcher (c :: rest)) as [[|n]|].
  - destruct (IH rest i phs Hphs) as (out & phs' & -> & ? & ? & ?).
    by exists (c :: out), phs'.
  - assert (numbered_below (S i)
              (phs ++ [(placeholder_key tag i, take (S n) (c :: rest))]).*1) as Hnext.
    { rewrite fmap_app. apply Forall_app. split.
      - by apply (numbered_below_mono i); [lia|].
      - constructor; [|done]. exists tag, i. repeat split; [done|lia]. }
    destruct (IH (drop (S n) (c :: rest)) (S i) _ Hnext)
      as (out & phs' & E & Hk & Hv & Hb).
    rewrite protect_fresh by done. rewrite E. eexists _, phs'. simpl length.
    rewrite <- !Nat.add_succ_comm.
    split; [done|]. split; [|split; [|done]].
    + rewrite Hk, fmap_app, <- app_assoc. done.
    + rewrite Hv, fmap_app, <- app_assoc. done.
  - destruct (IH rest i phs Hphs) as (out & phs' & -> & ? & ? & ?).
    by exists (c :: out), phs'.
Qed.

Lemma match_go_no_match (matcher : jsstring -> option nat) (fuel : nat)
    (s : jsstring) :
  (forall k, matcher (drop k s) = None) -> match_go matcher fuel s = [].
Proof.
  revert s. induction fuel as [|fuel IH]; intros s Hno; simpl; [done|].
  destruct s as [|c rest]; [done|].
  pose proof (Hno 0) as Hhead. simpl in Hhead. rewrite Hhead.
  apply IH. intros k. apply (Hno (S k)).
Qed.

(** X4: [extract] numbers its placeholders 0, 1, 2, ... in the order it makes
    them: first one [__CODE_BLOCK_i__] for each fenced block, as many as
    [countCodeBlocks] counts and with the blocks as their values, then the
    [__INLINE_CODE_i__], the counter running on. *)
Theorem extract_numbers_placeholders (text : jsstring) :
  exists m,
    (CodeBlockProtector.placeholders (CodeBlockProtector.extract text)).*1
    = (placeholder_key (str "CODE_BLOCK")
         <$> seq 0 (CodeBlockProtector.codeBlocks
                      (CodeBlockProtector.countCodeBlocks text)))
      ++ (placeholder_key (str "INLINE_CODE")
            <$> seq (CodeBlockProtector.codeBlocks
                       (CodeBlockProtector.countCodeBlocks text)) m)
    /\ take (CodeBlockProtector.codeBlocks
               (CodeBlockProtector.countCodeBlocks text))
            (CodeBlockProtector.placeholders (CodeBlockProtector.extract text)).*2
       = match_global CodeBlockProtector.codeBlockRegex text.
Proof.
  destruct text as [|c t]; [by exists 0|].
  unfold CodeBlockProtector.extract, CodeBlockProtector.countCodeBlocks,
    replace_global, match_global.
  cbn [CodeBlockProtector.codeBlocks].
  set (text := c :: t).
  destruct (replace_go_protect CodeBlockProtector.codeBlockRegex
              (str "CODE_BLOCK") (length text) text 0 [])
    as (clean1 & phs1 & -> & Hk1 & Hv1 & Hb1); [by left|by constructor|].
  destruct (replace_go_protect CodeBlockProtector.inlineCodeRegex
              (str "INLINE_CODE") (length clean1) clean1
              (0 + length (match_go CodeBlockProtector.codeBlockRegex
                             (length text) text)) phs1)
    as (clean2 & phs2 & -> & Hk2 & Hv2 & _); [by right|done|].
  cbn [CodeBlockProtector.placeholders snd].
  exists (length (match_go CodeBlockProtector.inlineCodeRegex (length clean1) clean1)).
  rewrite Hk2, Hk1, Hv2, Hv1. simpl. split; [done|].
  by rewrite take_app_length.
Qed.

(** X5: a text without a back-tick has nothing to protect: [extract] returns
    it as it is with no placeholder, [countCodeBlocks] counts nothing, and
    [restore] with these placeholders returns any translation unchanged. *)
Theorem plain_text_is_not_protected (text : jsstring) :
  CodeBlockProtector.backtick ∉ text ->
  CodeBlockProtector.extract text
    = {| CodeBlockProtector.cleanText := text;
         CodeBlockProtector.placeholders := [] |}
  /\ CodeBlockProtector.countCodeBlocks text
     = {| CodeBlockProtector.codeBlocks := 0;
          CodeBlockProtector.inlineCodes := 0 |}
  /\ forall translated,
       CodeBlockProtector.restore translated
         (CodeBlockProtector.placeholders (CodeBlockProtector.extract text))
       = translated.
Proof.
  intros Hno. split; [by apply extract_no_backtick|]. split.
  - destruct text as [|c t]; [done|].
    unfold CodeBlockProtector.countCodeBlocks, replace_global, match_global.
    rewrite replace_go_no_match
      by (intros k; apply codeBlockRegex_backtick, not_elem_of_drop, Hno).
    cbn [fst].
    rewrite !match_go_no_match; [done| |].
    + intros k. apply inlineCodeRegex_backtick, not_elem_of_drop, Hno.
    + intros k. apply codeBlockRegex_backtick, not_elem_of_drop, Hno.
  - intros translated. rewrite extract_no_backtick by done. by destruct translated.
Qed.

Lemma plain_text_is_not_protected_witness :
  CodeBlockProtector.extract (str "ok")
    = {| CodeBlockProtector.cleanText := str "ok";
         CodeBlockProtector.placeholders := [] |}
  /\ CodeBlockProtector.countCodeBlocks (str "ok")
     = {| CodeBlockProtector.codeBlocks := 0;
          CodeBlockProtector.inlineCodes := 0 |}
  /\ forall translated,
       CodeBlockProtector.restore translated
         (CodeBlockProtector.placeholders (CodeBlockProtector.extract (str "ok")))
       = translated.
Proof.
  apply (plain_text_is_not_protected (str "ok")).
  intros H. vm_compute in H. by repeat (apply elem_of_cons in H as [H|H]; [done|]);
    apply elem_of_nil in H.
Defined.

(** ** responseTranslator.js *)

(** Adding chunks one by one or at once, to a buffer without terminator. *)
Lemma add_all_as_one (texts : list jsstring) (buffer : jsstring) :
  no_terminator buffer ->
  SentenceBuffer.add_all (JStr <$> texts) buffer
  = SentenceBuffer.add (JStr (concat texts)) buffer.
Proof.
  intros Hb.
  destruct (add_all_decomposes (JStr <$> texts) buffer Hb) as (Hcat & Hall & Hno).
  destruct (add_decomposes (JStr (concat texts)) buffer Hb) as (Hcat' & Hall' & Hno').
  destruct (SentenceBuffer.add_all _ buffer) as [ss1 b1].
  destruct (SentenceBuffer.add _ buffer) as [ss2 b2]. simpl in *.
  assert (concat (text_of <$> (JStr <$> texts)) = concat texts) as Htexts.
  { f_equal. rewrite <- list_fmap_compose. apply list_fmap_id. }
  destruct (decomposition_unique ss1 ss2 b1 b2) as [-> ->]; try done.
  by rewrite Hcat, Hcat', Htexts.
Qed.


Section ResponseTranslatorMore.
Context `{Builtins} `{TranslationEnv}.

Lemma same_block_refl (tr : ResponseTranslator.t) : same_block tr tr.
Proof. by repeat split. Qed.

Lemma same_block_trans (tr1 tr2 tr3 : ResponseTranslator.t) :
  same_block tr1 tr2 -> same_block tr2 tr3 -> same_block tr1 tr3.
Proof.
  intros (?&?&?&?&?&?&?) (?&?&?&?&?&?&?). repeat split; congruence.
Qed.

Lemma translateAndEmit_same_block (sentence : jsstring)
    (tr : ResponseTranslator.t) (w : world) :
  same_block tr (ResponseTranslator.translateAndEmit sentence tr w).1.
Proof.
  unfold ResponseTranslator.translateAndEmit, ResponseTranslator.translateSentence.
  destruct sentence as [|c t]; [by repeat split|].
  destruct (trim _).
  { simpl. unfold ResponseTranslator.writeSSE.
    by destruct (ResponseTranslator.writable _); repeat split. }
  destruct (TranslationService.translate _ _ _ w) as [[translated|e] w1]; simpl.
  - unfold ResponseTranslator.emitTextDelta, ResponseTranslator.writeSSE.
    destruct (CodeBlockProtector.restore _ _); [by repeat split|]. simpl.
    by destruct (ResponseTranslator.writable _); repeat split.
  - unfold ResponseTranslator.writeSSE. simpl.
    by destruct (ResponseTranslator.writable _); repeat split.
Qed.

Lemma emitSentences_same_block (sentences : list jsstring)
    (tr : ResponseTranslator.t) (w : world) :
  same_block tr (ResponseTranslator.emitSentences sentences tr w).1.
Proof.
  revert tr w. induction sentences as [|s rest IH]; intros tr w.
  - apply same_block_refl.
  - cbn [ResponseTranslator.emitSentences].
    pose proof (translateAndEmit_same_block s tr w) as Hs.
    destruct (ResponseTranslator.translateAndEmit s tr w) as [tr1 w1].
    eapply same_block_trans; [exact Hs|apply IH].
Qed.

Lemma passthrough_counts (event : jv) (tr : ResponseTranslator.t) :
  let tr' := ResponseTranslator.passthrough event tr in
  ResponseTranslator.enabled tr' = ResponseTranslator.enabled tr
  /\ ResponseTranslator.currentBlockType tr' = ResponseTranslator.currentBlockType tr
  /\ ResponseTranslator.currentBlockIndex tr' = ResponseTranslator.currentBlockIndex tr
  /\ ResponseTranslator.sentenceBuffer tr' = ResponseTranslator.sentenceBuffer tr
  /\ ResponseTranslator.totalEvents (ResponseTranslator.counters tr')
     = ResponseTranslator.totalEvents (ResponseTranslator.counters tr)
  /\ ResponseTranslator.textDeltas (ResponseTranslator.counters tr')
     = ResponseTranslator.textDeltas (ResponseTranslator.counters tr)
  /\ ResponseTranslator.passedThrough (ResponseTranslator.counters tr')
     = S (ResponseTranslator.passedThrough (ResponseTranslator.counters tr)).
Proof.
  unfold ResponseTranslator.passthrough, ResponseTranslator.writeSSE. simpl.
  by destruct (ResponseTranslator.writable _); repeat split.
Qed.

(** What the text block at its end does with the rest of the buffer. *)
Lemma blockStop_flush (tr : ResponseTranslator.t) (w : world) :
  exists tr1 w1,
    (if is_str "text" (ResponseTranslator.currentBlockType tr) then
       let '(remaining, buffer1) :=
         SentenceBuffer.flush (ResponseTranslator.sentenceBuffer tr) in
       match remaining, trim remaining with
       | _ :: _, _ :: _ =>
           ResponseTranslator.translateAndEmit remaining
             (ResponseTranslator.with_buffer buffer1 tr) w
       | _, _ => (ResponseTranslator.with_buffer buffer1 tr, w)
       end
     else (tr, w)) = (tr1, w1)
    /\ ResponseTranslator.totalEvents (ResponseTranslator.counters tr1)
       = ResponseTranslator.totalEvents (ResponseTranslator.counters tr)
    /\ ResponseTranslator.textDeltas (ResponseTranslator.counters tr1)
       = ResponseTranslator.textDeltas (ResponseTranslator.counters tr)
    /\ ResponseTranslator.passedThrough (ResponseTranslator.counters tr1)
       = ResponseTranslator.passedThrough (ResponseTranslator.counters tr)
    /\ ResponseTranslator.enabled tr1 = ResponseTranslator.enabled tr
    /\ (ResponseTranslator.sentenceBuffer tr1 = []
        \/ is_str "text" (ResponseTranslator.currentBlockType tr) = false
           /\ ResponseTranslator.sentenceBuffer tr1
              = ResponseTranslator.sentenceBuffer tr).
Proof.
  destruct (is_str "text" _); [|by exists tr, w; repeat split; try right].
  unfold SentenceBuffer.flush.
  destruct (ResponseTranslator.sentenceBuffer tr) as [|c rest] eqn:Eb;
    [by eexists _, w; repeat split; try left|].
  destruct (trim (c :: rest)); [by eexists _, w; repeat split; try left|].
  pose proof (translateAndEmit_same_block (c :: rest)
                (ResponseTranslator.with_buffer [] tr) w) as (?&?&?&?&?&?&?).
  destruct (ResponseTranslator.translateAndEmit _ _ w) as [tr1 w1].
  exists tr1, w1. simpl in *. repeat split; try done. by left.
Qed.

(** One event moves the counters of events by one. *)
Lemma processEvent_counts (props : list (jsstring * jv))
    (tr : ResponseTranslator.t) (w : world) :
  let tr' := (ResponseTranslator.processEvent props tr w).1 in
  ResponseTranslator.totalEvents (ResponseTranslator.counters tr')
  = S (ResponseTranslator.totalEvents (ResponseTranslator.counters tr))
  /\ ResponseTranslator.passedThrough (ResponseTranslator.counters tr')
     + ResponseTranslator.textDeltas (ResponseTranslator.counters tr')
     = S (ResponseTranslator.passedThrough (ResponseTranslator.counters tr)
          + ResponseTranslator.textDeltas (ResponseTranslator.counters tr))
  /\ ResponseTranslator.enabled tr' = ResponseTranslator.enabled tr.
Proof.
  unfold ResponseTranslator.processEvent.
  set (event := JObj props).
  set (tr0 := ResponseTranslator.with_stats _ tr).
  assert (ResponseTranslator.totalEvents (ResponseTranslator.counters tr0)
          = S (ResponseTranslator.totalEvents (ResponseTranslator.counters tr))
          /\ ResponseTranslator.passedThrough (ResponseTranslator.counters tr0)
             = ResponseTranslator.passedThrough (ResponseTranslator.counters tr)
          /\ ResponseTranslator.textDeltas (ResponseTranslator.counters tr0)
             = ResponseTranslator.textDeltas (ResponseTranslator.counters tr)
          /\ ResponseTranslator.enabled tr0 = ResponseTranslator.enabled tr)
    as (Ht & Hp & Hd & He) by done.
  assert (forall tr1, 
            ResponseTranslator.totalEvents (ResponseTranslator.counters tr1)
            = ResponseTranslator.totalEvents (ResponseTranslator.counters tr0) ->
            ResponseTranslator.textDeltas (ResponseTranslator.counters tr1)
            = ResponseTranslator.textDeltas (ResponseTranslator.counters tr0) ->
            ResponseTranslator.passedThrough (ResponseTranslator.counters tr1)
            = ResponseTranslator.passedThrough (ResponseTranslator.counters tr0) ->
            ResponseTranslator.enabled tr1 = ResponseTranslator.enabled tr0 ->
            let tr' := ResponseTranslator.passthrough event tr1 in
            ResponseTranslator.totalEvents (ResponseTranslator.counters tr')
            = S (ResponseTranslator.totalEvents (ResponseTranslator.counters tr))
            /\ ResponseTranslator.passedThrough (ResponseTranslator.counters tr')
               + ResponseTranslator.textDeltas (ResponseTranslator.counters tr')
               = S (ResponseTranslator.passedThrough (ResponseTranslator.counters tr)
                    + ResponseTranslator.textDeltas (ResponseTranslator.counters tr))
            /\ ResponseTranslator.enabled tr' = ResponseTranslator.enabled tr)
    as Hpass.
  { intros tr1 E1 E2 E3 E4.
    destruct (passthrough_counts event tr1) as (G1&_&_&_&G2&G3&G4).
    cbn zeta. rewrite G1, G2, G3, G4, E1, E2, E3, E4, Ht, Hp, Hd, He.
    repeat split; lia. }
  clearbody tr0.
  destruct (negb _); [by apply Hpass|].
  destruct (is_str "content_block_start" _).
  { unfold ResponseTranslator.handleBlockStart. cbn [fst]. by apply Hpass. }
  destruct (is_str "content_block_delta" _).
  { unfold ResponseTranslator.handleDelta.
    destruct (is_str "tool_use" _); [by apply Hpass|].
    destruct (_ && _); [|by apply Hpass].
    destruct (SentenceBuffer.add _ _) as [sentences buffer1].
    match goal with
    | |- context [ResponseTranslator.emitSentences ?ss ?t ?ww] =>
        destruct (emitSentences_same_block ss t ww) as (G1&_&_&_&G2&G3&G4)
    end.
    cbn zeta. rewrite G1, G2, G3, G4. simpl. rewrite Ht, Hp, Hd, He.
    repeat split; lia. }
  destruct (is_str "content_block_stop" _); [|by apply Hpass].
  unfold ResponseTranslator.handleBlockStop.
  destruct (blockStop_flush tr0 w) as (tr1 & w1 & -> & G1 & G2 & G3 & G4 & _).
  cbn [fst]. by apply Hpass.
Qed.

(** One event keeps the buffer free of terminators, and empty outside a text
    block. *)
Lemma processEvent_buffer (props : list (jsstring * jv))
    (tr : ResponseTranslator.t) (w : world) :
  let tr' := (ResponseTranslator.processEvent props tr w).1 in
  no_terminator (ResponseTranslator.sentenceBuffer tr) ->
  (is_str "text" (ResponseTranslator.currentBlockType tr) = false ->
   ResponseTranslator.sentenceBuffer tr = []) ->
  no_terminator (ResponseTranslator.sentenceBuffer tr')
  /\ (is_str "text" (ResponseTranslator.currentBlockType tr') = false ->
      ResponseTranslator.sentenceBuffer tr' = []).
Proof.
  intros tr' Hno Hout. subst tr'. unfold ResponseTranslator.processEvent.
  set (event := JObj props).
  set (tr0 := ResponseTranslator.with_stats _ tr).
  assert (ResponseTranslator.sentenceBuffer tr0 = ResponseTranslator.sentenceBuffer tr
          /\ ResponseTranslator.currentBlockType tr0
             = ResponseTranslator.currentBlockType tr) as [Hb Ht] by done.
  rewrite <- Hb in Hno, Hout. rewrite <- Ht in Hout. clearbody tr0.
  assert (forall tr1,
            no_terminator (ResponseTranslator.sentenceBuffer tr1) ->
            (is_str "text" (ResponseTranslator.currentBlockType tr1) = false ->
             ResponseTranslator.sentenceBuffer tr1 = []) ->
            let tr' := ResponseTranslator.passthrough event tr1 in
            no_terminator (ResponseTranslator.sentenceBuffer tr')
            /\ (is_str "text" (ResponseTranslator.currentBlockType tr') = false ->
                ResponseTranslator.sentenceBuffer tr' = [])) as Hpass.
  { intros tr1 G1 G2.
    destruct (passthrough_counts event tr1) as (_&E1&_&E2&_).
    cbn zeta. by rewrite E1, E2. }
  destruct (negb _); [by apply Hpass|].
  destruct (is_str "content_block_start" _).
  { unfold ResponseTranslator.handleBlockStart. cbn [fst]. by apply Hpass. }
  destruct (is_str "content_block_delta" _).
  { unfold ResponseTranslator.handleDelta.
    destruct (is_str "tool_use" _); [by apply Hpass|].
    destruct (_ && _) eqn:Etext; [|by apply Hpass].
    apply andb_true_iff in Etext as [Etext _].
    pose proof (add_leaves_no_terminator
                  (get "text" (get "delta" event))
                  (ResponseTranslator.sentenceBuffer tr0) Hno) as Hadd.
    simpl. destruct (SentenceBuffer.add _ _) as [sentences buffer1].
    match goal with
    | |- context [ResponseTranslator.emitSentences ?ss ?t ?ww] =>
        destruct (emitSentences_same_block ss t ww) as (_&G1&_&G2&_)
    end.
    rewrite G1, G2. simpl. rewrite Etext. by split. }
  destruct (is_str "content_block_stop" _); [|by apply Hpass].
  unfold ResponseTranslator.handleBlockStop.
  destruct (blockStop_flush tr0 w) as (tr1 & w1 & -> & _ & _ & _ & _ & Hbuf).
  cbn [fst]. apply Hpass; simpl.
  - destruct Hbuf as [-> | [_ ->]]; done.
  - intros _. destruct Hbuf as [-> | [Hty ->]]; [done|by apply Hout].
Qed.

(** X6: the counters [getStats] reports account for every event: after any
    events, [totalEvents] is their number, and each of them was counted once,
    as passed through or as a text delta. *)
Theorem stats_count_every_event (account : jv)
    (out : ResponseTranslator.stream) (events : list (list (jsstring * jv)))
    (w : world) :
  let report :=
    ResponseTranslator.report_stats
      (ResponseTranslator.getStats
         (ResponseTranslator.processEvents events
            (ResponseTranslator.new account out) w).1) in
  ResponseTranslator.totalEvents report = length events
  /\ ResponseTranslator.passedThrough report + ResponseTranslator.textDeltas report
     = length events.
Proof.
  cbn zeta. unfold ResponseTranslator.getStats. cbn [ResponseTranslator.report_stats].
  assert (forall tr w,
    let tr' := (ResponseTranslator.processEvents events tr w).1 in
    ResponseTranslator.totalEvents (ResponseTranslator.counters tr')
    = ResponseTranslator.totalEvents (ResponseTranslator.counters tr) + length events
    /\ ResponseTranslator.passedThrough (ResponseTranslator.counters tr')
       + ResponseTranslator.textDeltas (ResponseTranslator.counters tr')
       = ResponseTranslator.passedThrough (ResponseTranslator.counters tr)
         + ResponseTranslator.textDeltas (ResponseTranslator.counters tr)
         + length events) as Hall.
  { clear w. induction events as [|props rest IH]; intros tr w.
    - simpl. lia.
    - cbn [ResponseTranslator.processEvents].
      pose proof (processEvent_counts props tr w) as (E1 & E2 & _).
      destruct (ResponseTranslator.processEvent props tr w) as [tr1 w1].
      destruct (IH tr1 w1) as [G1 G2]. simpl in *. lia. }
  destruct (Hall (ResponseTranslator.new account out) w) as [G1 G2].
  simpl in *. lia.
Qed.

(** X7: the buffer never holds a sentence terminator, and it is empty
    whenever the translator is not inside a text block: [getStats] reports
    [bufferLength] 0 there, and [finalize] has nothing to drop. *)
Theorem buffer_is_empty_outside_text_blocks (account : jv)
    (out : ResponseTranslator.stream) (events : list (list (jsstring * jv)))
    (w : world) :
  no_terminator
    (ResponseTranslator.sentenceBuffer
       (ResponseTranslator.processEvents events
          (ResponseTranslator.new account out) w).1)
  /\ (is_str "text"
        (ResponseTranslator.currentBlockType
           (ResponseTranslator.processEvents events
              (ResponseTranslator.new account out) w).1) = false ->
      ResponseTranslator.bufferLength
        (ResponseTranslator.getStats
           (ResponseTranslator.processEvents events
              (ResponseTranslator.new account out) w).1) = 0).
Proof.
  assert (forall tr w,
    no_terminator (ResponseTranslator.sentenceBuffer tr) ->
    (is_str "text" (ResponseTranslator.currentBlockType tr) = false ->
     ResponseTranslator.sentenceBuffer tr = []) ->
    let tr' := (ResponseTranslator.processEvents events tr w).1 in
    no_terminator (ResponseTranslator.sentenceBuffer tr')
    /\ (is_str "text" (ResponseTranslator.currentBlockType tr') = false ->
        ResponseTranslator.sentenceBuffer tr' = [])) as Hall.
  { clear w. induction events as [|props rest IH]; intros tr w Hno Hout.
    - done.
    - cbn [ResponseTranslator.processEvents].
      pose proof (processEvent_buffer props tr w Hno Hout) as [G1 G2].
      destruct (ResponseTranslator.processEvent props tr w) as [tr1 w1].
      by apply IH. }
  destruct (Hall (ResponseTranslator.new account out) w) as [G1 G2]; [done..|].
  split; [done|]. intros Hty. unfold ResponseTranslator.getStats.
  cbn [ResponseTranslator.bufferLength]. unfold SentenceBuffer.length.
  by rewrite G2.
Qed.

(** X8: once the output stream is not writable, nothing is written to it,
    whatever events follow. *)
Theorem closed_stream_gets_nothing (events : list (list (jsstring * jv)))
    (tr : ResponseTranslator.t) (w : world) :
  ResponseTranslator.writable (ResponseTranslator.outputStream tr) = false ->
  ResponseTranslator.outputStream
    (ResponseTranslator.finalize
       (ResponseTranslator.processEvents events tr w).1)
  = ResponseTranslator.outputStream tr.
Proof.
  unfold ResponseTranslator.finalize. cbn [ResponseTranslator.with_buffer
    ResponseTranslator.outputStream].
  revert tr w. induction events as [|props rest IH]; intros tr w Hw; [done|].
  cbn [ResponseTranslator.processEvents].
  pose proof (processEvent_closed props tr w Hw) as Hs.
  destruct (ResponseTranslator.processEvent props tr w) as [tr1 w1].
  simpl in Hs. rewrite IH; [done|]. by rewrite Hs.
Qed.

Lemma new_not_enabled (account : jv) (out : ResponseTranslator.stream) :
  get "enableTranslation" account <> JBool true ->
  get "enableTranslation" account <> JStr (str "true") ->
  ResponseTranslator.enabled (ResponseTranslator.new account out) = false.
Proof.
  intros Hb Hs. unfold ResponseTranslator.new. cbn [ResponseTranslator.enabled].
  destruct (get "enableTranslation" account) as [| |[|]| |s| |]; try done.
  unfold is_str. apply bool_decide_eq_false. by intros ->.
Qed.

(** X9: unless [account.enableTranslation] is [true] or ['true'], the
    translator copies every event to a writable stream as it came, in order,
    never calls the translation service and buffers nothing. *)
Theorem translator_off_copies_events (account : jv)
    (out : ResponseTranslator.stream) (events : list (list (jsstring * jv)))
    (w : world) :
  get "enableTranslation" account <> JBool true ->
  get "enableTranslation" account <> JStr (str "true") ->
  ResponseTranslator.writable out = true ->
  ResponseTranslator.isEnabled (ResponseTranslator.new account out) = false
  /\ (ResponseTranslator.processEvents events
        (ResponseTranslator.new account out) w).2 = w
  /\ ResponseTranslator.written
       (ResponseTranslator.outputStream
          (ResponseTranslator.processEvents events
             (ResponseTranslator.new account out) w).1)
     = ResponseTranslator.written out ++ (JObj <$> events)
  /\ ResponseTranslator.sentenceBuffer
       (ResponseTranslator.processEvents events
          (ResponseTranslator.new account out) w).1 = [].
Proof.
  intros Hb Hs Hw.
  pose proof (new_not_enabled account out Hb Hs) as Hoff.
  split; [done|].
  assert (forall tr w,
    ResponseTranslator.enabled tr = false ->
    ResponseTranslator.writable (ResponseTranslator.outputStream tr) = true ->
    let r := ResponseTranslator.processEvents events tr w in
    r.2 = w
    /\ ResponseTranslator.written (ResponseTranslator.outputStream r.1)
       = ResponseTranslator.written (ResponseTranslator.outputStream tr)
         ++ (JObj <$> events)
    /\ ResponseTranslator.sentenceBuffer r.1 = ResponseTranslator.sentenceBuffer tr)
    as Hall.
  { clear. induction events as [|props rest IH]; intros tr w He Hw.
    - simpl. by rewrite app_nil_r.
    - cbn [ResponseTranslator.processEvents].
      pose proof (processEvent_disabled props tr w He) as Hstep.
      pose proof (processEvent_wrote props tr w Hw) as (new & (Hw1 & _) & _).
      destruct (ResponseTranslator.processEvent props tr w) as [tr1 w1].
      destruct Hstep as (-> & He1 & _ & _ & Hbuf & Hwr). simpl in Hw1.
      destruct (IH tr1 w He1 Hw1) as (G1 & G2 & G3). cbn zeta.
      rewrite G1, G2, G3, Hwr, Hw, Hbuf. repeat split.
      rewrite fmap_cons. by rewrite <- app_assoc. }
  by apply Hall.
Qed.

Lemma is_str_true (lit : string) (v : jv) :
  is_str lit v = true -> v = JStr (str lit).
Proof.
  destruct v; try done. simpl. by intros ->%bool_decide_eq_true.
Qed.

Lemma is_str_other (lit lit' : string) (v : jv) :
  str lit <> str lit' -> is_str lit v = true -> is_str lit' v = false.
Proof.
  intros Hne ->%is_str_true. simpl. by apply bool_decide_eq_false.
Qed.

Lemma passthrough_open (event : jv) (tr : ResponseTranslator.t) :
  ResponseTranslator.writable (ResponseTranslator.outputStream tr) = true ->
  ResponseTranslator.outputStream (ResponseTranslator.passthrough event tr)
  = {| ResponseTranslator.writable := true;
       ResponseTranslator.written :=
         ResponseTranslator.written (ResponseTranslator.outputStream tr)
         ++ [event] |}.
Proof.
  intros Hw. unfold ResponseTranslator.passthrough, ResponseTranslator.writeSSE.
  simpl. by rewrite Hw.
Qed.

(** A delta inside a [tool_use] block. *)
Lemma processEvent_tool_delta (props : list (jsstring * jv))
    (tr : ResponseTranslator.t) (w : world) :
  ResponseTranslator.enabled tr = true ->
  ResponseTranslator.currentBlockType tr = JStr (str "tool_use") ->
  ResponseTranslator.writable (ResponseTranslator.outputStream tr) = true ->
  is_str "content_block_delta" (get "type" (JObj props)) = true ->
  let r := ResponseTranslator.processEvent props tr w in
  r.2 = w
  /\ ResponseTranslator.enabled r.1 = true
  /\ ResponseTranslator.currentBlockType r.1 = JStr (str "tool_use")
  /\ ResponseTranslator.outputStream r.1
     = {| ResponseTranslator.writable := true;
          ResponseTranslator.written :=
            ResponseTranslator.written (ResponseTranslator.outputStream tr)
            ++ [JObj props] |}.
Proof.
  intros He Hty Hw Hd. unfold ResponseTranslator.processEvent.
  set (tr0 := ResponseTranslator.with_stats _ tr).
  assert (ResponseTranslator.enabled tr0 = true
          /\ ResponseTranslator.currentBlockType tr0 = JStr (str "tool_use")
          /\ ResponseTranslator.outputStream tr0 = ResponseTranslator.outputStream tr)
    as (He0 & Hty0 & Hout0) by done.
  clearbody tr0. rewrite He0, Hd.
  rewrite (is_str_other "content_block_delta" "content_block_start") by done.
  cbn [negb]. unfold ResponseTranslator.handleDelta. rewrite Hty0.
  change (is_str "tool_use" (JStr (str "tool_use"))) with true. cbn zeta.
  cbn [fst snd].
  destruct (passthrough_counts (JObj props) tr0) as (G1 & G2 & _).
  rewrite G1, G2, passthrough_open by (by rewrite Hout0). by rewrite Hout0.
Qed.

(** The start of a [tool_use] block. *)
Lemma processEvent_tool_start (props : list (jsstring * jv))
    (tr : ResponseTranslator.t) (w : world) :
  ResponseTranslator.enabled tr = true ->
  ResponseTranslator.writable (ResponseTranslator.outputStream tr) = true ->
  is_str "content_block_start" (get "type" (JObj props)) = true ->
  is_str "tool_use" (get "type" (get "content_block" (JObj props))) = true ->
  let r := ResponseTranslator.processEvent props tr w in
  r.2 = w
  /\ ResponseTranslator.enabled r.1 = true
  /\ ResponseTranslator.currentBlockType r.1 = JStr (str "tool_use")
  /\ ResponseTranslator.outputStream r.1
     = {| ResponseTranslator.writable := true;
          ResponseTranslator.written :=
            ResponseTranslator.written (ResponseTranslator.outputStream tr)
            ++ [JObj props] |}.
Proof.
  intros He Hw Hstart Htool. unfold ResponseTranslator.processEvent.
  set (tr0 := ResponseTranslator.with_stats _ tr).
  assert (ResponseTranslator.enabled tr0 = true
          /\ ResponseTranslator.outputStream tr0 = ResponseTranslator.outputStream tr)
    as (He0 & Hout0) by done.
  clearbody tr0. rewrite He0, Hstart. cbn [negb].
  unfold ResponseTranslator.handleBlockStart.
  apply is_str_true in Htool as Htype. rewrite Htype.
  change (or_else (JStr (str "tool_use")) JNull) with (JStr (str "tool_use")).
  cbn zeta. cbn [fst snd].
  match goal with
  | |- context [ResponseTranslator.passthrough _ ?t] =>
      destruct (passthrough_counts (JObj props) t) as (G1 & G2 & _)
  end.
  rewrite G1, G2, passthrough_open by (simpl; by rewrite Hout0).
  simpl. by rewrite Hout0.
Qed.

(** X10: a [tool_use] block goes through an enabled translator as it is:
    its start, its deltas and its stop are written as they came, in order,
    and the translation service is not called. *)
Theorem tool_use_block_is_copied (start stop : list (jsstring * jv))
    (deltas : list (list (jsstring * jv))) (tr : ResponseTranslator.t)
    (w : world) :
  ResponseTranslator.enabled tr = true ->
  ResponseTranslator.writable (ResponseTranslator.outputStream tr) = true ->
  is_str "content_block_start" (get "type" (JObj start)) = true ->
  is_str "tool_use" (get "type" (get "content_block" (JObj start))) = true ->
  Forall (fun props =>
            is_str "content_block_delta" (get "type" (JObj props)) = true) deltas ->
  is_str "content_block_stop" (get "type" (JObj stop)) = true ->
  (ResponseTranslator.processEvents (start :: deltas ++ [stop]) tr w).2 = w
  /\ ResponseTranslator.written
       (ResponseTranslator.outputStream
          (ResponseTranslator.processEvents (start :: deltas ++ [stop]) tr w).1)
     = ResponseTranslator.written (ResponseTranslator.outputStream tr)
       ++ (JObj <$> start :: deltas ++ [stop]).
Proof.
  intros He Hw Hstart Htool Hdeltas Hstop.
  assert (forall tr2,
    ResponseTranslator.enabled tr2 = true ->
    ResponseTranslator.currentBlockType tr2 = JStr (str "tool_use") ->
    ResponseTranslator.writable (ResponseTranslator.outputStream tr2) = true ->
    (ResponseTranslator.processEvents (deltas ++ [stop]) tr2 w).2 = w
    /\ ResponseTranslator.written
         (ResponseTranslator.outputStream
            (ResponseTranslator.processEvents (deltas ++ [stop]) tr2 w).1)
       = ResponseTranslator.written (ResponseTranslator.outputStream tr2)
         ++ (JObj <$> deltas ++ [stop])) as Hloop.
  { induction Hdeltas as [|props rest Hd _ IH]; intros tr2 He2 Hty2 Hw2.
    - cbn [app ResponseTranslator.processEvents].
      unfold ResponseTranslator.processEvent.
      set (tr0 := ResponseTranslator.with_stats _ tr2).
      assert (ResponseTranslator.enabled tr0 = true
              /\ ResponseTranslator.currentBlockType tr0 = JStr (str "tool_use")
              /\ ResponseTranslator.outputStream tr0
                 = ResponseTranslator.outputStream tr2)
        as (He0 & Hty0 & Hout0) by done.
      clearbody tr0. rewrite He0, Hstop.
      rewrite (is_str_other "content_block_stop" "content_block_start") by done.
      rewrite (is_str_other "content_block_stop" "content_block_delta") by done.
      cbn [negb]. unfold ResponseTranslator.handleBlockStop. rewrite Hty0.
      change (is_str "text" (JStr (str "tool_use"))) with false.
      cbn [fst snd]. split; [done|].
      rewrite passthrough_open by (simpl; by rewrite Hout0).
      simpl. by rewrite Hout0.
    - cbn [app ResponseTranslator.processEvents].
      pose proof (processEvent_tool_delta props tr2 w He2 Hty2 Hw2 Hd)
        as (G1 & G2 & G3 & G4).
      destruct (ResponseTranslator.processEvent props tr2 w) as [tr3 w3].
      simpl in G1, G2, G3, G4. subst w3.
      destruct (IH tr3) as [G5 G6]; try done; [by rewrite G4|].
      split; [done|]. rewrite G6, G4. simpl. by rewrite <- app_assoc. }
  cbn [ResponseTranslator.processEvents].
  pose proof (processEvent_tool_start start tr w He Hw Hstart Htool)
    as (G1 & G2 & G3 & G4).
  destruct (ResponseTranslator.processEvent start tr w) as [tr1 w1].
  simpl in G1, G2, G3, G4. subst w1.
  destruct (Hloop tr1) as [G5 G6]; try done; [by rewrite G4|].
  split; [done|]. rewrite G6, G4. simpl. by rewrite <- app_assoc.
Qed.

End ResponseTranslatorMore.

(** *** The order of the events written *)

Lemma woven_deltas (received written : list jv) :
  woven received written ->
  exists deltas,
    written ≡ₚ received ++ deltas
    /\ Forall (fun event => exists index c text,
                 event = ResponseTranslator.textDelta index (c :: text)) deltas.
Proof.
  induction 1 as [|event received written _ (deltas & Hp & Hd)
                  |index c text received written _ (deltas & Hp & Hd)].
  - by exists [].
  - exists deltas. split; [|done]. simpl. by rewrite Hp.
  - exists (ResponseTranslator.textDelta index (c :: text) :: deltas). split.
    + rewrite Hp. by rewrite <- Permutation_middle.
    + constructor; [by exists index, c, text|done].
Qed.

Section ResponseTranslatorOrder.
Context `{Builtins} `{TranslationEnv}.

(** An enabled translator tracks the type of the current block. *)
Lemma processEvent_block (props : list (jsstring * jv))
    (tr : ResponseTranslator.t) (w : world) :
  ResponseTranslator.enabled tr = true ->
  ResponseTranslator.currentBlockType (ResponseTranslator.processEvent props tr w).1
  = block_after (ResponseTranslator.currentBlockType tr) (JObj props).
Proof.
  intros Hen. unfold ResponseTranslator.processEvent, block_after.
  set (event := JObj props).
  set (tr0 := ResponseTranslator.with_stats _ tr).
  change (ResponseTranslator.enabled tr0) with (ResponseTranslator.enabled tr).
  rewrite Hen. cbn [negb].
  assert (forall tr1,
            ResponseTranslator.currentBlockType
              (ResponseTranslator.passthrough event tr1)
            = ResponseTranslator.currentBlockType tr1) as Hpass.
  { intros tr1. by destruct (passthrough_counts event tr1) as (_ & -> & _). }
  destruct (is_str "content_block_start" (get "type" event)) eqn:Estart.
  { unfold ResponseTranslator.handleBlockStart. cbn [fst]. rewrite Hpass.
    reflexivity. }
  destruct (is_str "content_block_delta" (get "type" event)) eqn:Edelta.
  { rewrite (is_str_other "content_block_delta" "content_block_stop") by done.
    unfold ResponseTranslator.handleDelta.
    destruct (is_str "tool_use" _); [cbn [fst]; by rewrite Hpass|].
    destruct (_ && _); [|cbn [fst]; by rewrite Hpass].
    destruct (SentenceBuffer.add _ _) as [sentences buffer1].
    match goal with
    | |- context [ResponseTranslator.emitSentences ?ss ?t ?ww] =>
        destruct (emitSentences_same_block ss t ww) as (_ & -> & _)
    end.
    done. }
  destruct (is_str "content_block_stop" (get "type" event)) eqn:Estop.
  { unfold ResponseTranslator.handleBlockStop.
    destruct (blockStop_flush tr0 w) as (tr1 & w1 & -> & _).
    cbn [fst]. by rewrite Hpass. }
  cbn [fst]. by rewrite Hpass.
Qed.

(** C3, amended: while the output stream is writable, what an enabled
    translator writes for a sequence of events is the non-text events
    received, each as it came and in the order received, with nothing
    between them but the text deltas the translator builds itself.  So the
    events written are, as a multiset, the non-text events received and
    those text deltas.  A text event is a [content_block_delta] with a
    truthy [delta.text] received inside a text block. *)
Theorem processEvents_non_text (events : list (list (jsstring * jv)))
    (tr : ResponseTranslator.t) (w : world) :
  ResponseTranslator.enabled tr = true ->
  ResponseTranslator.writable (ResponseTranslator.outputStream tr) = true ->
  exists new,
    ResponseTranslator.written
      (ResponseTranslator.outputStream
         (fst (ResponseTranslator.processEvents events tr w)))
    = ResponseTranslator.written (ResponseTranslator.outputStream tr) ++ new
    /\ woven (non_text_events (ResponseTranslator.currentBlockType tr) events) new
    /\ exists deltas,
         new ≡ₚ non_text_events (ResponseTranslator.currentBlockType tr) events
                ++ deltas
         /\ Forall (fun event => exists index c text,
                      event = ResponseTranslator.textDelta index (c :: text))
              deltas.
Proof.
  intros Hen Hw.
  cut (exists new,
         wrote tr (fst (ResponseTranslator.processEvents events tr w)) new
         /\ woven (non_text_events (ResponseTranslator.currentBlockType tr) events)
              new).
  { intros (new & (_ & Hwr & _) & Hwoven). exists new.
    split; [done|]. split; [done|]. by apply woven_deltas. }
  revert tr w Hen Hw. induction events as [|props rest IH]; intros tr w Hen Hw.
  - exists []. split; [by apply wrote_refl|constructor].
  - cbn [ResponseTranslator.processEvents non_text_events].
    destruct (processEvent_wrote props tr w Hw) as (new1 & H1 & Hf1).
    pose proof (processEvent_block props tr w Hen) as Hblock.
    rewrite Hen in Hf1. cbn [andb] in Hf1.
    destruct (ResponseTranslator.processEvent props tr w) as [tr1 w1].
    cbn [fst] in *.
    destruct (IH tr1 w1) as (new2 & H2 & Hf2).
    { destruct H1 as (_ & _ & ->). done. }
    { apply H1. }
    exists (new1 ++ new2). split; [by eapply wrote_trans|].
    rewrite <- Hblock. by apply woven_app.
Qed.

End ResponseTranslatorOrder.

(** C3, as stated, fails once the client is gone: on a stream that is not
    writable an enabled translator is given a non-text event and writes
    nothing. *)
Lemma closed_stream_loses_events :
  non_text_events JNull [ev_plain "ping"] = [JObj (ev_plain "ping")]
  /\ ResponseTranslator.written
       (ResponseTranslator.outputStream
          (fst (@ResponseTranslator.processEvents bare_builtins
                  (fixed_reply (Some (str "ZH"))) [ev_plain "ping"]
                  (ResponseTranslator.new enabled_account closed_stream) [])))
     = [].
Proof. split; reflexivity. Qed.

Lemma processEvents_non_text_witness :
  exists new,
    ResponseTranslator.written
      (ResponseTranslator.outputStream
         (fst (@ResponseTranslator.processEvents bare_builtins
                 (fixed_reply (Some (str "ZH")))
                 sample_events
                 (ResponseTranslator.new enabled_account open_stream) [])))
    = ResponseTranslator.written
        (ResponseTranslator.outputStream
           (ResponseTranslator.new enabled_account open_stream)) ++ new
    /\ woven (non_text_events JNull sample_events) new
    /\ exists deltas,
         new ≡ₚ non_text_events JNull sample_events ++ deltas
         /\ Forall (fun event => exists index c text,
                      event = ResponseTranslator.textDelta index (c :: text))
              deltas.
Proof.
  exact (@processEvents_non_text bare_builtins (fixed_reply (Some (str "ZH")))
           sample_events (ResponseTranslator.new enabled_account open_stream) []
           eq_refl eq_refl).
Defined.

Section ResponseTranslatorText.
Context `{Builtins} `{TranslationEnv}.

Lemma agree_refl (tr : ResponseTranslator.t) : agree tr tr.
Proof. by repeat split. Qed.

Lemma agree_sym (tr1 tr2 : ResponseTranslator.t) : agree tr1 tr2 -> agree tr2 tr1.
Proof. intros (?&?&?&?&?&?). by repeat split. Qed.

Lemma agree_trans (tr1 tr2 tr3 : ResponseTranslator.t) :
  agree tr1 tr2 -> agree tr2 tr3 -> agree tr1 tr3.
Proof. intros (?&?&?&?&?&?) (?&?&?&?&?&?). repeat split; congruence. Qed.

(** What a sentence is turned into, and what the service is left with, do
    not depend on the translator's buffer or on its counters of events. *)
Lemma translateAndEmit_agree (sentence : jsstring)
    (tr1 tr2 : ResponseTranslator.t) (w : world) :
  agree tr1 tr2 ->
  agree (ResponseTranslator.translateAndEmit sentence tr1 w).1
        (ResponseTranslator.translateAndEmit sentence tr2 w).1
  /\ (ResponseTranslator.translateAndEmit sentence tr1 w).2
     = (ResponseTranslator.translateAndEmit sentence tr2 w).2.
Proof.
  intros (Hout & Hen & Hty & Hidx & Hst & Her).
  unfold ResponseTranslator.translateAndEmit, ResponseTranslator.translateSentence.
  assert (forall text f,
    (forall s, ResponseTranslator.sentencesTranslated (f s)
               = ResponseTranslator.sentencesTranslated s
               /\ ResponseTranslator.translationErrors (f s)
                  = ResponseTranslator.translationErrors s
               \/ ResponseTranslator.sentencesTranslated (f s)
                  = S (ResponseTranslator.sentencesTranslated s)
                  /\ ResponseTranslator.translationErrors (f s)
                     = ResponseTranslator.translationErrors s
               \/ ResponseTranslator.sentencesTranslated (f s)
                  = ResponseTranslator.sentencesTranslated s
                  /\ ResponseTranslator.translationErrors (f s)
                     = S (ResponseTranslator.translationErrors s)) ->
    (forall s s', ResponseTranslator.sentencesTranslated s
                  = ResponseTranslator.sentencesTranslated s' ->
                  ResponseTranslator.translationErrors s
                  = ResponseTranslator.translationErrors s' ->
                  ResponseTranslator.sentencesTranslated (f s)
                  = ResponseTranslator.sentencesTranslated (f s')
                  /\ ResponseTranslator.translationErrors (f s)
                     = ResponseTranslator.translationErrors (f s')) ->
    agree (ResponseTranslator.emitTextDelta text
             (ResponseTranslator.with_stats f tr1))
          (ResponseTranslator.emitTextDelta text
             (ResponseTranslator.with_stats f tr2))) as Hemit.
  { intros text f _ Hf. destruct (Hf _ _ Hst Her) as [G1 G2].
    unfold ResponseTranslator.emitTextDelta, ResponseTranslator.writeSSE.
    destruct text as [|c t]; [by repeat split|]. simpl.
    rewrite Hout, Hidx.
    by destruct (ResponseTranslator.writable _); repeat split. }
  assert (forall text,
    agree (ResponseTranslator.emitTextDelta text tr1)
          (ResponseTranslator.emitTextDelta text tr2)) as Hemit0.
  { intros text.
    unfold ResponseTranslator.emitTextDelta, ResponseTranslator.writeSSE.
    destruct text as [|c t]; [by repeat split|]. simpl.
    rewrite Hout, Hidx.
    by destruct (ResponseTranslator.writable _); repeat split. }
  destruct sentence as [|c t]; [by split; [apply Hemit0|]|].
  destruct (trim _); [by split; [apply Hemit0|]|].
  destruct (TranslationService.translate _ _ _ w) as [[translated|e] w1];
    (split; [|done]); cbn [fst]; apply Hemit.
  - intros s. right. by left.
  - intros s s' E1 E2. simpl. by rewrite E1, E2.
  - intros s. right. by right.
  - intros s s' E1 E2. simpl. by rewrite E1, E2.
Qed.

Lemma emitSentences_agree (sentences : list jsstring)
    (tr1 tr2 : ResponseTranslator.t) (w : world) :
  agree tr1 tr2 ->
  agree (ResponseTranslator.emitSentences sentences tr1 w).1
        (ResponseTranslator.emitSentences sentences tr2 w).1
  /\ (ResponseTranslator.emitSentences sentences tr1 w).2
     = (ResponseTranslator.emitSentences sentences tr2 w).2.
Proof.
  revert tr1 tr2 w. induction sentences as [|s rest IH]; intros tr1 tr2 w Hag.
  - done.
  - cbn [ResponseTranslator.emitSentences].
    destruct (translateAndEmit_agree s tr1 tr2 w Hag) as [G1 G2].
    destruct (ResponseTranslator.translateAndEmit s tr1 w) as [tr1' w1].
    destruct (ResponseTranslator.translateAndEmit s tr2 w) as [tr2' w2].
    simpl in G1, G2. subst w2. by apply IH.
Qed.

Lemma emitSentences_app (ss1 ss2 : list jsstring) (tr : ResponseTranslator.t)
    (w : world) :
  ResponseTranslator.emitSentences (ss1 ++ ss2) tr w
  = ResponseTranslator.emitSentences ss2
      (ResponseTranslator.emitSentences ss1 tr w).1
      (ResponseTranslator.emitSentences ss1 tr w).2.
Proof.
  revert tr w. induction ss1 as [|s rest IH]; intros tr w; [done|].
  cbn [app ResponseTranslator.emitSentences].
  destruct (ResponseTranslator.translateAndEmit s tr w) as [tr1 w1]. apply IH.
Qed.

(** A text delta inside a text block: its text goes to the buffer and the
    sentences it completes are translated and emitted. *)
Lemma processEvent_text (props : list (jsstring * jv)) (t : jsstring)
    (tr : ResponseTranslator.t) (w : world) :
  ResponseTranslator.enabled tr = true ->
  is_str "text" (ResponseTranslator.currentBlockType tr) = true ->
  is_text_event props t ->
  exists tr0,
    agree tr tr0
    /\ ResponseTranslator.processEvent props tr w
       = ResponseTranslator.emitSentences
           (SentenceBuffer.add (JStr t) (ResponseTranslator.sentenceBuffer tr)).1
           tr0 w
    /\ ResponseTranslator.sentenceBuffer tr0
       = (SentenceBuffer.add (JStr t) (ResponseTranslator.sentenceBuffer tr)).2.
Proof.
  intros He Hty (Hd & Htext & Hne). unfold ResponseTranslator.processEvent.
  set (tr0 := ResponseTranslator.with_stats _ tr).
  assert (ResponseTranslator.enabled tr0 = true
          /\ ResponseTranslator.currentBlockType tr0
             = ResponseTranslator.currentBlockType tr
          /\ ResponseTranslator.sentenceBuffer tr0
             = ResponseTranslator.sentenceBuffer tr
          /\ agree tr tr0) as (He0 & Hty0 & Hb0 & Hag0) by (by repeat split).
  clearbody tr0. rewrite He0, Hd.
  rewrite (is_str_other "content_block_delta" "content_block_start") by done.
  cbn [negb]. unfold ResponseTranslator.handleDelta. rewrite Hty0, Hty.
  apply is_str_true in Hty as Hty'.
  rewrite (is_str_other "text" "tool_use") by done.
  rewrite Htext. destruct t as [|c t]; [done|]. cbn [truthy andb].
  set (tr1 := ResponseTranslator.with_stats _ tr0).
  assert (ResponseTranslator.sentenceBuffer tr1
          = ResponseTranslator.sentenceBuffer tr /\ agree tr tr1)
    as [Hb1 Hag1].
  { split; [done|]. eapply agree_trans; [exact Hag0|]. by repeat split. }
  clearbody tr1. rewrite Hb1.
  destruct (SentenceBuffer.add _ _) as [sentences buffer1]. cbn [fst snd].
  exists (ResponseTranslator.with_buffer buffer1 tr1).
  split; [|done]. eapply agree_trans; [exact Hag1|]. by repeat split.
Qed.

(** The text deltas of a text block: in all, the sentences of their texts
    are translated and emitted, one after the other. *)
Lemma processEvents_text (events : list (list (jsstring * jv)))
    (texts : list jsstring) :
  Forall2 is_text_event events texts ->
  forall (tr : ResponseTranslator.t) (w : world),
  ResponseTranslator.enabled tr = true ->
  is_str "text" (ResponseTranslator.currentBlockType tr) = true ->
  agree (ResponseTranslator.processEvents events tr w).1
        (ResponseTranslator.emitSentences
           (SentenceBuffer.add_all (JStr <$> texts)
              (ResponseTranslator.sentenceBuffer tr)).1 tr w).1
  /\ (ResponseTranslator.processEvents events tr w).2
     = (ResponseTranslator.emitSentences
          (SentenceBuffer.add_all (JStr <$> texts)
             (ResponseTranslator.sentenceBuffer tr)).1 tr w).2
  /\ ResponseTranslator.sentenceBuffer
       (ResponseTranslator.processEvents events tr w).1
     = (SentenceBuffer.add_all (JStr <$> texts)
          (ResponseTranslator.sentenceBuffer tr)).2.
Proof.
  induction 1 as [|props t events texts Ht _ IH]; intros tr w He Hty.
  - simpl. split; [apply agree_refl|done].
  - cbn [ResponseTranslator.processEvents fmap list_fmap SentenceBuffer.add_all].
    destruct (processEvent_text props t tr w He Hty Ht) as (tr0 & Hag & -> & Hb0).
    destruct (SentenceBuffer.add (JStr t) (ResponseTranslator.sentenceBuffer tr))
      as [ss1 b1]. cbn [fst snd] in *.
    pose proof (emitSentences_same_block ss1 tr0 w) as (G1 & G2 & _ & G3 & _).
    pose proof (emitSentences_agree ss1 tr tr0 w Hag) as [Hag1 Hw1].
    destruct (ResponseTranslator.emitSentences ss1 tr0 w) as [tr1 w1].
    cbn [fst snd] in *.
    destruct (agree_sym _ _ Hag) as (_ & Hen & Hty0 & _).
    destruct (IH tr1 w1) as (Hag2 & Hw2 & Hb2).
    { by rewrite G1, Hen. }
    { by rewrite G2, Hty0. }
    rewrite G3, Hb0 in Hag2, Hw2, Hb2.
    destruct (SentenceBuffer.add_all (JStr <$> texts) b1) as [ss2 b2].
    cbn [fst snd] in *. rewrite emitSentences_app.
    destruct (ResponseTranslator.emitSentences ss1 tr w) as [tr1' w1'].
    cbn [fst snd] in *. subst w1'.
    destruct (emitSentences_agree ss2 tr1' tr1 w1 Hag1) as [Hag3 Hw3].
    split; [|split; [|done]].
    + eapply agree_trans; [exact Hag2|]. by apply agree_sym.
    + by rewrite Hw2, Hw3.
Qed.

(** X11: what an enabled translator writes for the text of a text block does
    not depend on how the upstream cut the text into deltas: processing the
    deltas one by one writes the events, makes the translation calls and
    leaves the buffer that processing one delta with the whole text does. *)
Theorem response_chunking_independent (events : list (list (jsstring * jv)))
    (texts : list jsstring) (props : list (jsstring * jv))
    (tr : ResponseTranslator.t) (w : world) :
  ResponseTranslator.enabled tr = true ->
  is_str "text" (ResponseTranslator.currentBlockType tr) = true ->
  no_terminator (ResponseTranslator.sentenceBuffer tr) ->
  Forall2 is_text_event events texts ->
  is_text_event props (concat texts) ->
  ResponseTranslator.outputStream (ResponseTranslator.processEvents events tr w).1
  = ResponseTranslator.outputStream (ResponseTranslator.processEvent props tr w).1
  /\ (ResponseTranslator.processEvents events tr w).2
     = (ResponseTranslator.processEvent props tr w).2
  /\ ResponseTranslator.sentenceBuffer
       (ResponseTranslator.processEvents events tr w).1
     = ResponseTranslator.sentenceBuffer
         (ResponseTranslator.processEvent props tr w).1
  /\ ResponseTranslator.sentencesTranslated
       (ResponseTranslator.counters
          (ResponseTranslator.processEvents events tr w).1)
     = ResponseTranslator.sentencesTranslated
         (ResponseTranslator.counters
            (ResponseTranslator.processEvent props tr w).1)
  /\ ResponseTranslator.translationErrors
       (ResponseTranslator.counters
          (ResponseTranslator.processEvents events tr w).1)
     = ResponseTranslator.translationErrors
         (ResponseTranslator.counters
            (ResponseTranslator.processEvent props tr w).1).
Proof.
  intros He Hty Hno Hevents Hprops.
  destruct (processEvents_text events texts Hevents tr w He Hty)
    as (Hag1 & Hw1 & Hb1).
  destruct (processEvents_text [props] [concat texts]
              ltac:(constructor; [exact Hprops|constructor]) tr w He Hty)
    as (Hag2 & Hw2 & Hb2).
  cbn [ResponseTranslator.processEvents] in Hag2, Hw2, Hb2.
  destruct (ResponseTranslator.processEvent props tr w) as [tr2 w2].
  cbn [fst snd] in *.
  assert (SentenceBuffer.add_all (JStr <$> [concat texts])
            (ResponseTranslator.sentenceBuffer tr)
          = SentenceBuffer.add_all (JStr <$> texts)
              (ResponseTranslator.sentenceBuffer tr)) as E.
  { rewrite !add_all_as_one by done. simpl. by rewrite app_nil_r. }
  rewrite E in Hag2, Hw2, Hb2.
  destruct (agree_trans _ _ _ Hag1 (agree_sym _ _ Hag2)) as (?&?&?&?&?&?).
  repeat split; congruence.
Qed.




End ResponseTranslatorText.


Lemma closed_stream_gets_nothing_witness :
  ResponseTranslator.outputStream
    (ResponseTranslator.finalize
       (@ResponseTranslator.processEvents bare_builtins
          (fixed_reply (Some (str "ZH"))) sample_events
          (ResponseTranslator.new enabled_account closed_stream) []).1)
  = closed_stream.
Proof.
  exact (@closed_stream_gets_nothing bare_builtins (fixed_reply (Some (str "ZH")))
           sample_events (ResponseTranslator.new enabled_account closed_stream) []
           eq_refl).
Defined.

Lemma translator_off_copies_events_witness :
  ResponseTranslator.isEnabled
    (ResponseTranslator.new numeric_flag_account open_stream) = false
  /\ (@ResponseTranslator.processEvents bare_builtins
        (fixed_reply (Some (str "ZH"))) sample_events
        (ResponseTranslator.new numeric_flag_account open_stream) []).2 = []
  /\ ResponseTranslator.written
       (ResponseTranslator.outputStream
          (@ResponseTranslator.processEvents bare_builtins
             (fixed_reply (Some (str "ZH"))) sample_events
             (ResponseTranslator.new numeric_flag_account open_stream) []).1)
     = ResponseTranslator.written open_stream ++ (JObj <$> sample_events)
  /\ ResponseTranslator.sentenceBuffer
       (@ResponseTranslator.processEvents bare_builtins
          (fixed_reply (Some (str "ZH"))) sample_events
          (ResponseTranslator.new numeric_flag_account open_stream) []).1 = [].
Proof.
  refine (@translator_off_copies_events bare_builtins
            (fixed_reply (Some (str "ZH"))) numeric_flag_account open_stream
            sample_events [] _ _ eq_refl); vm_compute; discriminate.
Defined.

Lemma tool_use_block_is_copied_witness :
  (@ResponseTranslator.processEvents bare_builtins (fixed_reply (Some (str "ZH")))
     (ev_block_start 1 "tool_use" :: [ev_json 1 "{}"] ++ [ev_block_stop 1])
     (ResponseTranslator.new enabled_account open_stream) []).2 = []
  /\ ResponseTranslator.written
       (ResponseTranslator.outputStream
          (@ResponseTranslator.processEvents bare_builtins
             (fixed_reply (Some (str "ZH")))
             (ev_block_start 1 "tool_use" :: [ev_json 1 "{}"] ++ [ev_block_stop 1])
             (ResponseTranslator.new enabled_account open_stream) []).1)
     = ResponseTranslator.written
         (ResponseTranslator.outputStream
            (ResponseTranslator.new enabled_account open_stream))
       ++ (JObj <$> ev_block_start 1 "tool_use"
                    :: [ev_json 1 "{}"] ++ [ev_block_stop 1]).
Proof.
  refine (@tool_use_block_is_copied bare_builtins (fixed_reply (Some (str "ZH")))
            (ev_block_start 1 "tool_use") (ev_block_stop 1) [ev_json 1 "{}"]
            (ResponseTranslator.new enabled_account open_stream) []
            eq_refl eq_refl eq_refl eq_refl _ eq_refl).
  constructor; [reflexivity|constructor].
Defined.

Lemma response_chunking_independent_witness :
  ResponseTranslator.outputStream
    (@ResponseTranslator.processEvents bare_builtins (fixed_reply (Some (str "ZH")))
       [ev_text 0 "Hi. "; ev_text 0 "Bye."] in_text_block []).1
  = ResponseTranslator.outputStream
      (@ResponseTranslator.processEvent bare_builtins
         (fixed_reply (Some (str "ZH"))) (ev_text 0 "Hi. Bye.") in_text_block []).1
  /\ (@ResponseTranslator.processEvents bare_builtins
        (fixed_reply (Some (str "ZH")))
        [ev_text 0 "Hi. "; ev_text 0 "Bye."] in_text_block []).2
     = (@ResponseTranslator.processEvent bare_builtins
          (fixed_reply (Some (str "ZH"))) (ev_text 0 "Hi. Bye.") in_text_block []).2
  /\ ResponseTranslator.sentenceBuffer
       (@ResponseTranslator.processEvents bare_builtins
          (fixed_reply (Some (str "ZH")))
          [ev_text 0 "Hi. "; ev_text 0 "Bye."] in_text_block []).1
     = ResponseTranslator.sentenceBuffer
         (@ResponseTranslator.processEvent bare_builtins
            (fixed_reply (Some (str "ZH"))) (ev_text 0 "Hi. Bye.")
            in_text_block []).1
  /\ ResponseTranslator.sentencesTranslated
       (ResponseTranslator.counters
          (@ResponseTranslator.processEvents bare_builtins
             (fixed_reply (Some (str "ZH")))
             [ev_text 0 "Hi. "; ev_text 0 "Bye."] in_text_block []).1)
     = ResponseTranslator.sentencesTranslated
         (ResponseTranslator.counters
            (@ResponseTranslator.processEvent bare_builtins
               (fixed_reply (Some (str "ZH"))) (ev_text 0 "Hi. Bye.")
               in_text_block []).1)
  /\ ResponseTranslator.translationErrors
       (ResponseTranslator.counters
          (@ResponseTranslator.processEvents bare_builtins
             (fixed_reply (Some (str "ZH")))
             [ev_text 0 "Hi. "; ev_text 0 "Bye."] in_text_block []).1)
     = ResponseTranslator.translationErrors
         (ResponseTranslator.counters
            (@ResponseTranslator.processEvent bare_builtins
               (fixed_reply (Some (str "ZH"))) (ev_text 0 "Hi. Bye.")
               in_text_block []).1).
Proof.
  refine (@response_chunking_independent bare_builtins
            (fixed_reply (Some (str "ZH")))
            [ev_text 0 "Hi. "; ev_text 0 "Bye."] [str "Hi. "; str "Bye."]
            (ev_text 0 "Hi. Bye.") in_text_block [] eq_refl eq_refl eq_refl _ _).
  - repeat (constructor; [by repeat split|]). constructor.
  - by repeat split.
Defined.


(** ** openaiResponsesRelayService.js: the streamed response *)

Lemma scan_app (s t : jsstring) (st : list jsstring * jsstring) :
  scan (s ++ t) st = scan t (scan s st).
Proof. apply foldl_app. Qed.

Lemma scan_step_events (ev0 : list jsstring) (racc : jsstring) (c : N) :
  scan_step (ev0, racc) c
  = (ev0 ++ (scan_step ([], racc) c).1, (scan_step ([], racc) c).2).
Proof.
  unfold scan_step. simpl. destruct racc as [|d racc]; [by rewrite app_nil_r|].
  destruct (_ && _)%N; simpl; [done|by rewrite app_nil_r].
Qed.

Lemma scan_events (s : jsstring) (ev0 : list jsstring) (racc : jsstring) :
  scan s (ev0, racc)
  = (ev0 ++ (scan s ([], racc)).1, (scan s ([], racc)).2).
Proof.
  revert ev0 racc. induction s as [|c s IH]; intros ev0 racc.
  - simpl. by rewrite app_nil_r.
  - unfold scan in *. cbn [foldl].
    rewrite scan_step_events.
    destruct (scan_step ([], racc) c) as [e racc'] eqn:E. cbn [fst snd].
    rewrite IH. rewrite (IH e racc'). cbn [fst snd]. by rewrite app_assoc.
Qed.

(** [split] on a blank line is the scanner. *)
Lemma split_go_scan (fuel : nat) (s acc : jsstring) :
  length s < fuel ->
  ~ (head acc = Some 10%N /\ head s = Some 10%N) ->
  split_go fuel [10; 10]%N s acc
  = (scan s ([], acc)).1 ++ [rev (scan s ([], acc)).2].
Proof.
  revert s acc. induction fuel as [|fuel IH]; intros s acc Hfuel Hinv; [lia|].
  destruct s as [|c rest]; [done|].
  cbn [split_go starts_with]. simpl in Hfuel.
  destruct (N.eqb_spec 10 c) as [<-|Hc].
  - destruct rest as [|d rest'].
    + simpl. rewrite IH; [|simpl; lia|by intros [_ ?]].
      unfold scan, scan_step. simpl.
      destruct acc as [|a acc]; [done|].
      destruct (N.eqb_spec a 10) as [->|Ha]; [|done].
      exfalso. by apply Hinv.
    + cbn [starts_with]. destruct (N.eqb_spec 10 d) as [<-|Hd].
      * cbn [andb drop length]. rewrite IH; [|simpl in *; rewrite length_drop; lia|by intros [? _]].
        unfold scan at 3 4. cbn [foldl].
        assert (scan_step ([], acc) 10%N = ([], 10%N :: acc)) as ->.
        { unfold scan_step. simpl. destruct acc as [|a acc]; [done|].
          destruct (N.eqb_spec a 10) as [->|Ha]; [|done].
          exfalso. by apply Hinv. }
        assert (scan_step ([], 10%N :: acc) 10%N = ([rev acc], [])) as -> by done.
        fold (scan rest' ([rev acc], [])).
        rewrite (scan_events rest' [rev acc] []). by rewrite drop_0.
      * cbn [andb]. rewrite IH; [|simpl in *; lia|].
        2:{ intros [_ Hhead]. simpl in Hhead. by injection Hhead as ->. }
        unfold scan at 3 4. cbn [foldl].
        assert (scan_step ([], acc) 10%N = ([], 10%N :: acc)) as ->.
        { unfold scan_step. simpl. destruct acc as [|a acc]; [done|].
          destruct (N.eqb_spec a 10) as [->|Ha]; [|done].
          exfalso. by apply Hinv. }
        done.
  - cbn [andb]. rewrite IH; [|lia|].
    2:{ intros [Hhead _]. simpl in Hhead. by injection Hhead as ->. }
    unfold scan at 3 4. cbn [foldl].
    assert (scan_step ([], acc) c = ([], c :: acc)) as ->.
    { unfold scan_step. simpl. destruct acc as [|a acc]; [done|].
      destruct (N.eqb_spec c 10) as [->|Hc']; [done|].
      by rewrite andb_false_r. }
    done.
Qed.

Lemma split_scan (s : jsstring) :
  split [10; 10]%N s = (scan s ([], [])).1 ++ [rev (scan s ([], [])).2].
Proof.
  unfold split. apply split_go_scan; [lia|]. by intros [? _].
Qed.

Lemma includes_false (p s : jsstring) (k : nat) :
  Relay.includes p s = false -> starts_with p (drop k s) = false.
Proof.
  revert k. induction s as [|c s IH]; intros k; simpl.
  - rewrite orb_false_r. by destruct k.
  - intros [Hhead Htail]%orb_false_iff. destruct k as [|k]; [done|].
    by apply IH.
Qed.

Lemma split_go_no_match (sep : jsstring) (fuel : nat) (s acc : jsstring) :
  (forall k, starts_with sep (drop k s) = false) ->
  split_go fuel sep s acc = [rev acc ++ s].
Proof.
  revert s acc. induction fuel as [|fuel IH]; intros s acc Hno; [done|].
  destruct s as [|c rest]; [by rewrite app_nil_r|].
  cbn [split_go]. pose proof (Hno 0) as Hhead. simpl in Hhead. rewrite Hhead.
  rewrite IH; [|intros k; apply (Hno (S k))].
  simpl. by rewrite <- app_assoc.
Qed.

Lemma scan_step_uncut (st : list jsstring * jsstring) (c : N) :
  uncut st.2 -> uncut (scan_step st c).2.
Proof.
  unfold uncut. destruct st as [ev racc]. cbn [snd]. intros Hracc.
  unfold scan_step. cbn [fst snd].
  destruct racc as [|d racc]; [done|].
  destruct ((d =? 10) && (c =? 10))%N eqn:E; [done|]. cbn [snd].
  change (rev (c :: d :: racc)) with (rev (d :: racc) ++ [c]).
  rewrite scan_app, Hracc. unfold scan, scan_step. simpl. by rewrite E.
Qed.

Lemma scan_uncut (s : jsstring) (st : list jsstring * jsstring) :
  uncut st.2 -> uncut (scan s st).2.
Proof.
  revert st. induction s as [|c s IH]; intros st Hst; [done|].
  unfold scan. cbn [foldl]. apply IH. by apply scan_step_uncut.
Qed.

Section StreamResponseProps.
Context `{Builtins}.
Variable toString : list Byte.byte -> jsstring.

Lemma parseEvents_app (ev1 ev2 : list jsstring) (c : StreamResponse.capture) :
  StreamResponse.parseEvents (ev1 ++ ev2) c
  = StreamResponse.parseEvents ev2 (StreamResponse.parseEvents ev1 c).
Proof. apply foldl_app. Qed.

(** One chunk: the buffer and the text of the chunk are cut at the blank
    lines, the events before the last cut are parsed, the rest is the new
    buffer. *)
Lemma onData_scan (destroyed : bool) (chunk : list Byte.byte)
    (st : StreamResponse.state) :
  StreamResponse.captured (StreamResponse.onData toString destroyed chunk st)
  = StreamResponse.parseEvents
      (scan (StreamResponse.buffer st ++ toString chunk) ([], [])).1
      (StreamResponse.captured st)
  /\ StreamResponse.buffer (StreamResponse.onData toString destroyed chunk st)
     = rev (scan (StreamResponse.buffer st ++ toString chunk) ([], [])).2.
Proof.
  unfold StreamResponse.onData.
  pose proof (split_scan (StreamResponse.buffer st ++ toString chunk)) as Hsplit.
  destruct (Relay.includes _ _) eqn:E; cbn [StreamResponse.captured
    StreamResponse.buffer].
  - rewrite Hsplit, removelast_last, last_snoc. done.
  - unfold split in Hsplit.
    rewrite split_go_no_match in Hsplit
      by (intros k; by apply includes_false).
    simpl in Hsplit.
    destruct (scan _ _) as [ev racc]. cbn [fst snd] in *.
    destruct ev as [|e ev].
    + simpl in Hsplit. by injection Hsplit as ->.
    + simpl in Hsplit. injection Hsplit as _ Hnil. by destruct ev.
Qed.

(** After any chunks: what was captured and what is buffered are read off the
    scanner run over the texts of the chunks, one after the other. *)
Lemma chunks_scan (chunks : list (bool * list Byte.byte)) :
  let st :=
    foldl (fun st dc => StreamResponse.onData toString dc.1 dc.2 st)
      StreamResponse.start chunks in
  StreamResponse.captured st
  = StreamResponse.parseEvents
      (scan (concat (toString <$> chunks.*2)) ([], [])).1
      (StreamResponse.captured StreamResponse.start)
  /\ StreamResponse.buffer st
     = rev (scan (concat (toString <$> chunks.*2)) ([], [])).2.
Proof.
  induction chunks as [|[d chunk] chunks IH] using rev_ind; [done|].
  cbn zeta in *. rewrite foldl_app. cbn [foldl fst snd].
  destruct IH as [Hc Hb].
  destruct (onData_scan d chunk
              (foldl (fun st dc => StreamResponse.onData toString dc.1 dc.2 st)
                 StreamResponse.start chunks)) as [-> ->].
  rewrite Hc, Hb, !fmap_app, concat_app. simpl. rewrite app_nil_r.
  rewrite !scan_app.
  assert (uncut (scan (concat (toString <$> chunks.*2)) ([], [])).2) as Hun
    by (by apply scan_uncut).
  rewrite Hun. destruct (scan (concat (toString <$> chunks.*2)) ([], []))
    as [ev racc].
  cbn [fst snd]. rewrite (scan_events (toString chunk) ev racc). cbn [fst snd].
  by rewrite parseEvents_app.
Qed.

(** X13: as long as no chunk ends inside a character, so that the chunks
    decoded one by one give the text of the whole, what the relay captures
    from a streamed response (usage, model, rate limit and its reset delay)
    does not depend on how the network cut the stream into chunks, nor on
    whether the client is still connected: after the [end] of the stream it
    is what one chunk with all the bytes would have given. *)
Theorem usage_capture_chunking_independent
    (chunks : list (bool * list Byte.byte)) (destroyed : bool) :
  concat (toString <$> chunks.*2) = toString (concat chunks.*2) ->
  StreamResponse.captured
    (StreamResponse.onEnd
       (foldl (fun st dc => StreamResponse.onData toString dc.1 dc.2 st)
          StreamResponse.start chunks))
  = StreamResponse.captured
      (StreamResponse.onEnd
         (StreamResponse.onData toString destroyed (concat chunks.*2)
            StreamResponse.start)).
Proof.
  intros Hwhole.
  destruct (chunks_scan chunks) as [Hc Hb].
  destruct (chunks_scan [(destroyed, concat chunks.*2)]) as [Hc' Hb'].
  cbn [foldl fst snd fmap list_fmap concat] in Hc', Hb'.
  rewrite app_nil_r, <- Hwhole in Hc', Hb'.
  unfold StreamResponse.onEnd. cbn [StreamResponse.captured].
  by rewrite Hc, Hb, Hc', Hb'.
Qed.

End StreamResponseProps.

(** A completed response cut in the middle of an event, the client gone
    before the second chunk: the model is captured all the same. *)
Lemma usage_capture_chunking_independent_witness :
  let completed :=
    JObj [(str "type", JStr (str "response.completed"));
          (str "response", JObj [(str "model", JStr (str "gpt-5"))])] in
  let runtime := builtins_with_json [(str "{'type':'response.completed'}", completed)] in
  let chunks :=
    [(false, String.list_byte_of_string "data: {'type':'respon");
     (true, String.list_byte_of_string "se.completed'}" ++ [Byte.x0a; Byte.x0a])] in
  StreamResponse.captured
    (StreamResponse.onEnd
       (foldl (fun st dc =>
                 @StreamResponse.onData runtime ascii_toString dc.1 dc.2 st)
          StreamResponse.start chunks))
  = StreamResponse.captured
      (StreamResponse.onEnd
         (@StreamResponse.onData runtime ascii_toString false (concat chunks.*2)
            StreamResponse.start))
  /\ StreamResponse.actualModel
       (StreamResponse.captured
          (StreamResponse.onEnd
             (foldl (fun st dc =>
                       @StreamResponse.onData runtime ascii_toString dc.1 dc.2 st)
                StreamResponse.start chunks)))
     = JStr (str "gpt-5").
Proof.
  intros completed runtime chunks. split; [|vm_compute; reflexivity].
  apply (@usage_capture_chunking_independent runtime ascii_toString chunks false).
  vm_compute. reflexivity.
Defined.

(** ** languageDetector.js *)

(** A positive threshold is not below the quotient of zero by anything: the
    quotient is a zero or NaN. *)
Lemma zero_ratio (threshold y : PrimFloat.float) (m : positive) (e : Z) :
  FloatOps.Prim2SF threshold = SpecFloat.S754_finite false m e ->
  PrimFloat.ltb threshold (PrimFloat.div (LanguageDetector.number 0) y) = false.
Proof.
  intros Ht. rewrite FloatAxioms.ltb_spec, FloatAxioms.div_spec, Ht.
  change (FloatOps.Prim2SF (LanguageDetector.number 0))
    with (SpecFloat.S754_zero false).
  unfold FloatAxioms.SF64div, SpecFloat.SFdiv.
  by destruct (FloatOps.Prim2SF y) as [s|s| |s m' e'].
Qed.

Lemma count_none (class : N -> bool) (text : jsstring) :
  existsb class text = false -> LanguageDetector.count class text = 0.
Proof.
  unfold LanguageDetector.count. induction text as [|c t IH]; simpl; [done|].
  intros [-> Ht]%orb_false_iff. by apply IH.
Qed.

Lemma count_some (class : N -> bool) (text : jsstring) :
  (0 <? LanguageDetector.count class text) = true -> existsb class text = true.
Proof.
  destruct (existsb class text) eqn:E; [done|].
  by rewrite count_none.
Qed.

Lemma isPrimarilyChinese_contains (text : jsstring) :
  LanguageDetector.isPrimarilyChinese text = true ->
  LanguageDetector.containsChinese text = true.
Proof.
  unfold LanguageDetector.isPrimarilyChinese, LanguageDetector.containsChinese.
  destruct text as [|c t]; [done|]. cbn zeta.
  destruct (_ =? 0); [done|].
  destruct (existsb LanguageDetector.chineseRegex (c :: t)) eqn:E; [done|].
  rewrite (count_none _ _ E).
  by rewrite (zero_ratio _ _ 5404319552844595 (-54)).
Qed.

Lemma isPrimarilyEnglish_contains (text : jsstring) :
  LanguageDetector.isPrimarilyEnglish text = true ->
  LanguageDetector.containsEnglish text = true.
Proof.
  unfold LanguageDetector.isPrimarilyEnglish, LanguageDetector.containsEnglish.
  destruct text as [|c t]; [done|]. cbn zeta.
  destruct (_ =? 0); [done|].
  destruct (existsb LanguageDetector.englishRegex (c :: t)) eqn:E; [done|].
  rewrite (count_none _ _ E).
  by rewrite (zero_ratio _ _ 4503599627370496 (-53)).
Qed.

(** X14: [detectPrimaryLanguage] agrees with the predicates of the module:
    it answers ['chinese'] exactly for the texts that are primarily Chinese,
    ['english'] exactly for those, among the others, that are primarily
    English; a text it calls Chinese contains a Chinese character, one it
    calls English an English letter, one it calls mixed contains both. *)
Theorem detectPrimaryLanguage_agrees (text : jsstring) :
  match LanguageDetector.detectPrimaryLanguage text with
  | LanguageDetector.Chinese =>
      LanguageDetector.isPrimarilyChinese text = true
      /\ LanguageDetector.containsChinese text = true
  | LanguageDetector.English =>
      LanguageDetector.isPrimarilyChinese text = false
      /\ LanguageDetector.isPrimarilyEnglish text = true
      /\ LanguageDetector.containsEnglish text = true
  | LanguageDetector.Mixed =>
      LanguageDetector.isPrimarilyChinese text = false
      /\ LanguageDetector.isPrimarilyEnglish text = false
      /\ LanguageDetector.containsChinese text = true
      /\ LanguageDetector.containsEnglish text = true
  | LanguageDetector.Unknown =>
      LanguageDetector.isPrimarilyChinese text = false
      /\ LanguageDetector.isPrimarilyEnglish text = false
  end.
Proof.
  pose proof (isPrimarilyChinese_contains text) as Hzh.
  pose proof (isPrimarilyEnglish_contains text) as Hen.
  unfold LanguageDetector.detectPrimaryLanguage, LanguageDetector.getLanguageStats,
    LanguageDetector.isPrimarilyChinese, LanguageDetector.isPrimarilyEnglish in *.
  destruct text as [|c t]; [done|].
  cbn [LanguageDetector.total LanguageDetector.chineseRatio
       LanguageDetector.englishRatio LanguageDetector.chinese
       LanguageDetector.english] in *. cbn zeta in *.
  destruct (LanguageDetector.totalChars (c :: t)) as [|n] eqn:Etotal; [done|].
  cbn [Nat.eqb Nat.ltb Nat.leb] in *.
  match goal with
  | |- context [if ?b then LanguageDetector.Chinese else _] => destruct b eqn:Ezh
  end; [by split; [|apply Hzh]|].
  match goal with
  | |- context [if ?b then LanguageDetector.English else _] => destruct b eqn:Een
  end; [by repeat split; apply Hen|].
  destruct (_ && _) eqn:Eboth; [|done].
  apply andb_true_iff in Eboth as [E1 E2].
  repeat split; try done.
  - by apply count_some.
  - by apply count_some.
Qed.

(** ** openaiResponsesRelayService.js: the cost estimate *)

Lemma starts_with_app_l (p q s : jsstring) :
  starts_with (p ++ q) s = true -> starts_with p s = true.
Proof.
  revert s. induction p as [|a p IH]; intros s; [done|].
  destruct s as [|b s]; simpl; [done|].
  intros [-> ?]%andb_true_iff. by apply IH.
Qed.

Lemma includes_app_l (p q s : jsstring) :
  Relay.includes (p ++ q) s = true -> Relay.includes p s = true.
Proof.
  induction s as [|c s IH]; simpl.
  - rewrite !orb_false_r. apply starts_with_app_l.
  - intros [Hhead|Htail]%orb_true_iff.
    + by rewrite (starts_with_app_l _ _ _ Hhead).
    + rewrite (IH Htail). by rewrite orb_true_r.
Qed.

(** X15: the price of [gpt-4-turbo] is never charged: a model whose
    lower-cased name includes [gpt-4-turbo] includes [gpt-4] too, the loop
    over the rates stops at that first key, and the estimate is the one made
    for [gpt-4], at the rates the table holds under that key. *)
Theorem turbo_is_charged_as_gpt4 (toLowerCase : jsstring -> jsstring)
    (model : jsstring) (inputTokens outputTokens : PrimFloat.float) :
  toLowerCase (str "gpt-4") = str "gpt-4" ->
  Relay.includes (str "gpt-4-turbo") (toLowerCase model) = true ->
  assoc (str "gpt-4") Cost.rates = Some (Cost.rateFor toLowerCase model)
  /\ assoc (str "gpt-4-turbo") Cost.rates <> Some (Cost.rateFor toLowerCase model)
  /\ Cost.estimateCost toLowerCase model inputTokens outputTokens
     = Cost.estimateCost toLowerCase (str "gpt-4") inputTokens outputTokens.
Proof.
  intros Hkey Hturbo.
  assert (forall m, Relay.includes (str "gpt-4") (toLowerCase m) = true ->
            assoc (str "gpt-4") Cost.rates = Some (Cost.rateFor toLowerCase m))
    as Hrate.
  { intros m Hm. unfold Cost.rateFor, Cost.rates. cbn [List.find fst].
    by rewrite Hkey, Hm. }
  pose proof (Hrate model
                (includes_app_l (str "gpt-4") (str "-turbo") _ Hturbo)) as E1.
  assert (Relay.includes (str "gpt-4") (toLowerCase (str "gpt-4")) = true) as Hself.
  { by rewrite Hkey. }
  pose proof (Hrate (str "gpt-4") Hself) as E2.
  split; [done|]. split.
  - rewrite <- E1. intros E. vm_compute in E. discriminate E.
  - unfold Cost.estimateCost. rewrite E1 in E2. by injection E2 as ->.
Qed.

Lemma turbo_is_charged_as_gpt4_witness :
  assoc (str "gpt-4") Cost.rates
  = Some (Cost.rateFor ascii_lower (str "GPT-4-Turbo-2024"))
  /\ assoc (str "gpt-4-turbo") Cost.rates
     <> Some (Cost.rateFor ascii_lower (str "GPT-4-Turbo-2024"))
  /\ Cost.estimateCost ascii_lower (str "GPT-4-Turbo-2024")
       (LanguageDetector.number 2000) (LanguageDetector.number 1000)
     = Cost.estimateCost ascii_lower (str "gpt-4")
         (LanguageDetector.number 2000) (LanguageDetector.number 1000).
Proof.
  exact (turbo_is_charged_as_gpt4 ascii_lower (str "GPT-4-Turbo-2024")
           (LanguageDetector.number 2000) (LanguageDetector.number 1000)
           eq_refl eq_refl).
Defined.

(** ** openaiResponsesRelayService.js: the error statuses *)



Section ErrorStatusProps.
Context `{Builtins}.



End ErrorStatusProps.


(** A streamed error body that holds [data: ] but no payload line: the
    loop assigns nothing, [errorData] is still the stream, and the answer is
    the 500 of the [catch] block, not the upstream status. *)
Example stream_without_payload :
  @Handler.handleRequestError bare_builtins 503 enabled_account JNull (JObj [])
    (Relay.DStream (str "Invalid data: x") false)
    (str "Converting circular structure to JSON") false
  = ([Relay.Abort;
      Relay.Respond 500
        (JObj [(str "error",
                JObj [(str "message", JStr (str "Internal server error"));
                      (str "type", JStr (str "internal_error"));
                      (str "details",
                       JStr (str "Converting circular structure to JSON"))])])],
     Handler.Returned).
Proof. reflexivity. Qed.

(** ** translationService.js *)

Section TranslationServiceMore.
Context `{Builtins} `{TranslationEnv}.

(** X17: with a cache that keeps its entries, a translation that succeeded
    with a text that is not empty is served again without a new request to
    the translator account: the same call in the state the first one left
    returns the same text, and touches nothing but the cache. *)
Theorem translate_again_is_served_from_cache (text sourceLang targetLang : jsstring)
    (w w1 : world) (translated : jsstring) :
  cache_keeps ->
  translated <> [] ->
  TranslationService.translate text sourceLang targetLang w = (Ok translated, w1) ->
  (TranslationService.translate text sourceLang targetLang w1).1 = Ok translated
  /\ ((TranslationService.translate text sourceLang targetLang w1).2 = w1
      \/ (TranslationService.translate text sourceLang targetLang w1).2
         = (cache_get (TranslationService.getCacheKey text sourceLang targetLang)
              w1).2).
Proof.
  intros [Hset Hget] Hne. unfold TranslationService.translate.
  destruct (trim text); [intros [= <- <-]; by split; [|left]|].
  destruct (_ || _); [done|].
  destruct (decide (sourceLang = targetLang)); [intros [= <- <-]; by split; [|left]|].
  set (key := TranslationService.getCacheKey text sourceLang targetLang).
  destruct (cache_get key w) as [cached w0] eqn:Ecache.
  assert (forall value w2,
            (cache_get key w2).1 = Some value -> value <> [] ->
            (match cache_get key w2 with
             | (Some (c :: cached), w3) => (Ok (c :: cached), w3)
             | (_, w3) =>
                 match TranslationService.callTranslationAPI text sourceLang
                         targetLang w3 with
                 | (Ok translated, w4) =>
                     (Ok translated, cache_set key translated w4)
                 | (Throw e, w4) => (Throw e, w4)
                 end
             end) = (Ok value, (cache_get key w2).2)) as Hhit.
  { intros value w2 Hvalue Hvne. destruct (cache_get key w2) as [c w3].
    simpl in Hvalue. subst c. by destruct value. }
  assert (forall w0',
            match TranslationService.callTranslationAPI text sourceLang targetLang
                    w0' with
            | (Ok translated, w2) => (Ok translated, cache_set key translated w2)
            | (Throw e, w2) => (Throw e, w2)
            end = (Ok translated, w1) ->
            (cache_get key w1).1 = Some translated) as Hmiss.
  { intros w0'.
    destruct (TranslationService.callTranslationAPI _ _ _ w0') as [[t|e] w2];
      [|done].
    intros [= -> <-]. apply Hset. }
  intros Hfirst.
  assert ((cache_get key w1).1 = Some translated) as Hnow.
  { destruct cached as [[|c cached]|].
    - by apply (Hmiss w0).
    - injection Hfirst as <- <-. pose proof (Hget key (c :: cached) w) as Hagain.
      rewrite Ecache in Hagain. by apply Hagain.
    - by apply (Hmiss w0). }
  rewrite (Hhit translated w1 Hnow Hne). by split; [|right].
Qed.

End TranslationServiceMore.

Lemma assoc_obj_set {V : Type} (key : jsstring) (v : V) (o : list (jsstring * V)) :
  assoc key (CodeBlockProtector.obj_set key v o) = Some v.
Proof.
  induction o as [|[k x] o IH]; simpl.
  - by rewrite decide_True.
  - destruct (decide (k = key)) as [->|Hne]; simpl.
    + by rewrite decide_True.
    + by rewrite decide_False.
Qed.

Lemma fixed_reply_keeps (reply : option jsstring) :
  @cache_keeps (fixed_reply reply).
Proof. split; [intros key value w; apply assoc_obj_set|done]. Qed.

Lemma translate_again_is_served_from_cache_witness :
  (@TranslationService.translate bare_builtins (fixed_reply (Some (str "ZH")))
     (str "Hello.") (str "en") (str "zh")
     [(str "trans:en:zh:Hello.", str "ZH")]).1 = Ok (str "ZH")
  /\ ((@TranslationService.translate bare_builtins (fixed_reply (Some (str "ZH")))
         (str "Hello.") (str "en") (str "zh")
         [(str "trans:en:zh:Hello.", str "ZH")]).2
      = [(str "trans:en:zh:Hello.", str "ZH")]
      \/ (@TranslationService.translate bare_builtins
            (fixed_reply (Some (str "ZH")))
            (str "Hello.") (str "en") (str "zh")
            [(str "trans:en:zh:Hello.", str "ZH")]).2
         = (@cache_get (fixed_reply (Some (str "ZH")))
              (@TranslationService.getCacheKey bare_builtins
                 (str "Hello.") (str "en") (str "zh"))
              [(str "trans:en:zh:Hello.", str "ZH")]).2).
Proof.
  refine (@translate_again_is_served_from_cache bare_builtins
            (fixed_reply (Some (str "ZH")))
            (str "Hello.") (str "en") (str "zh") []
            [(str "trans:en:zh:Hello.", str "ZH")] (str "ZH")
            (fixed_reply_keeps _) _ _).
  - discriminate.
  - vm_compute. reflexivity.
Defined.

(** ** requestTranslator.js: the translation, on JSON *)

Lemma den_weaken (P Q : nat -> Prop) (h : list RT.cell) :
  (forall l, P l -> Q l) ->
  (forall v j, den P h v j -> den Q h v j)
  /\ (forall vs js, dens P h vs js -> dens Q h vs js).
Proof.
  intros HPQ. apply den_mutind; intros; econstructor; eauto.
Qed.

Lemma den_frame (P : nat -> Prop) (h h' : list RT.cell) :
  (forall l, P l -> h' !! l = h !! l) ->
  (forall v j, den P h v j -> den P h' v j)
  /\ (forall vs js, dens P h vs js -> dens P h' vs js).
Proof.
  intros Hsame. apply den_mutind; intros; econstructor; eauto.
  - by rewrite Hsame.
  - by rewrite Hsame.
Qed.

(** A value moved to a changed heap and a wider set of addresses. *)
Lemma den_move (P Q : nat -> Prop) (h h' : list RT.cell) (v : RT.val) (j : json) :
  (forall l, P l -> Q l /\ h' !! l = h !! l) ->
  den P h v j -> den Q h' v j.
Proof.
  intros HPQ Hden.
  apply (proj1 (den_weaken P Q h' ltac:(intros l Hl; by apply HPQ))).
  apply (proj1 (den_frame P h h' ltac:(intros l Hl; by apply HPQ))). done.
Qed.

Lemma dens_move (P Q : nat -> Prop) (h h' : list RT.cell) (vs : list RT.val)
    (js : list json) :
  (forall l, P l -> Q l /\ h' !! l = h !! l) ->
  dens P h vs js -> dens Q h' vs js.
Proof.
  intros HPQ Hden.
  apply (proj2 (den_weaken P Q h' ltac:(intros l Hl; by apply HPQ))).
  apply (proj2 (den_frame P h h' ltac:(intros l Hl; by apply HPQ))). done.
Qed.

Lemma dens_app (P : nat -> Prop) (h : list RT.cell) (vs1 vs2 : list RT.val)
    (js1 js2 : list json) :
  dens P h vs1 js1 -> dens P h vs2 js2 -> dens P h (vs1 ++ vs2) (js1 ++ js2).
Proof.
  intros H1 H2. revert js1 H1. induction vs1 as [|v vs1 IH]; intros js1 H1;
    inversion H1; subst; simpl; [done|].
  constructor; [done|]. by apply IH.
Qed.

(** The layout of [JSON.parse] is one way of reading as a JSON text. *)
Lemma repr_den (h : list RT.cell) :
  (forall lo hi v j, repr h lo hi v j -> den (fun l => lo <= l < hi) h v j)
  /\ (forall lo hi vs js, reprs h lo hi vs js ->
        dens (fun l => lo <= l < hi) h vs js).
Proof.
  apply repr_mutind; try (by constructor).
  - intros lo l vs js Hreprs Hdens Hl. apply (den_arr _ _ _ vs); [|done|].
    + apply repr_bounds in Hreprs. lia.
    + eapply dens_move; [|exact Hdens]. intros l' Hl'. simpl in Hl'.
      split; [lia|done].
  - intros lo l ps jps Hreprs Hdens Hkeys Hl.
    apply (den_obj _ _ _ ps []); [|by rewrite app_nil_r|done| |done].
    + apply repr_bounds in Hreprs. lia.
    + eapply dens_move; [|exact Hdens]. intros l' Hl'. simpl in Hl'.
      split; [lia|done].
  - intros lo mid hi v vs j js Hrepr Hden Hreprs Hdens.
    apply repr_bounds in Hrepr as Hb1. apply repr_bounds in Hreprs as Hb2.
    constructor.
    + eapply den_move; [|exact Hden]. intros l' Hl'. simpl in Hl'.
      split; [lia|done].
    + eapply dens_move; [|exact Hdens]. intros l' Hl'. simpl in Hl'.
      split; [lia|done].
Qed.

Lemma stringify_props_undef_tail (f : RT.val -> option (option json))
    (ps us : list (jsstring * RT.val)) (jps : list (jsstring * json)) :
  f RT.VUndef = Some None ->
  RT.stringify_props f ps = Some jps ->
  Forall (fun kv => kv.2 = RT.VUndef) us ->
  RT.stringify_props f (ps ++ us) = Some jps.
Proof.
  intros Hundef. revert jps. induction ps as [|[k v] ps IH]; intros jps; simpl.
  - intros [= <-]. induction 1 as [|[k v] us Hv _ IHus]; simpl; [done|].
    simpl in Hv. subst v. by rewrite Hundef, IHus.
  - intros E Hus. destruct (f v) as [[j|]|]; [| |done].
    + destruct (RT.stringify_props f ps) as [js|] eqn:Eps; [|done].
      by rewrite (IH js).
    + destruct (RT.stringify_props f ps) as [js|] eqn:Eps; [|done].
      by rewrite (IH js).
Qed.

Lemma den_stringify (P : nat -> Prop) (h : list RT.cell) :
  (forall v j, den P h v j ->
     exists n, forall m, n <= m -> RT.stringify m h v = Some (Some j))
  /\ (forall vs js, dens P h vs js ->
        exists n, forall m, n <= m ->
          Forall2 (fun v j => RT.stringify m h v = Some (Some j)) vs js).
Proof.
  apply den_mutind.
  - exists 1. intros [|m] Hm; [lia|done].
  - intros b. exists 1. intros [|m] Hm; [lia|done].
  - intros z. exists 1. intros [|m] Hm; [lia|done].
  - intros s. exists 1. intros [|m] Hm; [lia|done].
  - intros l vs js _ Hl _ [n Hn]. exists (S n). intros [|m] Hm; [lia|].
    simpl. rewrite Hl.
    rewrite (mapM_Forall2 _ vs js); [done|].
    eapply Forall2_impl; [apply (Hn m); lia|].
    intros v j Hv. simpl in Hv. by rewrite Hv.
  - intros l ps us jps _ Hl Hkeys _ [n Hn] Hus. exists (S (S n)).
    intros [|m] Hm; [lia|]. simpl. rewrite Hl.
    rewrite (stringify_props_undef_tail _ ps us jps); [done| | |done].
    + destruct m; [lia|done].
    + apply stringify_props_Forall2; [done|]. apply Hn. lia.
  - by exists 0.
  - intros v vs j js _ [n1 H1] _ [n2 H2]. exists (Nat.max n1 n2). intros m Hm.
    constructor; [apply H1; lia|apply H2; lia].
Qed.

Lemma den_stringify_heap (P : nat -> Prop) (h : list RT.cell) (v : RT.val)
    (j : json) :
  den P h v j -> RT.stringify (S (length h)) h v = Some (Some j).
Proof.
  intros [n Hn]%den_stringify. eapply stringify_fuel_enough. by apply (Hn n).
Qed.

(** *** What is read off an object of the copy *)

Lemma repr_truthy (h : list RT.cell) (lo hi : nat) (v : RT.val) (j : json) :
  repr h lo hi v j -> RT.vtruthy v = jtruthy j.
Proof. by inversion 1. Qed.

Lemma repr_vis_str (lit : string) (h : list RT.cell) (lo hi : nat) (v : RT.val)
    (j : json) :
  repr h lo hi v j -> RT.vis_str lit v = json_is_str lit (Some j).
Proof. by inversion 1. Qed.

Lemma reprs_app (h : list RT.cell) (lo mid hi : nat) (vs1 vs2 : list RT.val)
    (js1 js2 : list json) :
  reprs h lo mid vs1 js1 -> reprs h mid hi vs2 js2 ->
  reprs h lo hi (vs1 ++ vs2) (js1 ++ js2).
Proof.
  intros H1 H2. revert lo js1 H1. induction vs1 as [|v vs1 IH]; intros lo js1 H1;
    inversion H1; subst; simpl; [done|].
  econstructor; [done|]. by apply IH.
Qed.

(** The first property with a given key, in the object and in its JSON
    text. *)
Lemma reprs_assoc_split (h : list RT.cell) (key : jsstring) :
  forall (ps : list (jsstring * RT.val)) (jps : list (jsstring * json))
         (lo hi : nat),
    ps.*1 = jps.*1 -> reprs h lo hi ps.*2 jps.*2 ->
    match assoc key ps with
    | Some x =>
        exists ps1 ps2 jps1 jx jps2 a b,
          ps = ps1 ++ (key, x) :: ps2 /\ jps = jps1 ++ (key, jx) :: jps2
          /\ (key ∉ ps1.*1) /\ ps1.*1 = jps1.*1 /\ ps2.*1 = jps2.*1
          /\ reprs h lo a ps1.*2 jps1.*2 /\ repr h a b x jx
          /\ reprs h b hi ps2.*2 jps2.*2
    | None => key ∉ ps.*1
    end.
Proof.
  induction ps as [|[k v] ps IH]; intros [|[k' j] jps] lo hi Hkeys Hreprs;
    try done; simpl in *.
  - apply not_elem_of_nil.
  - injection Hkeys as <- Hkeys. inversion Hreprs as [|? mid ? ? ? ? ? Hv Hrest]; subst.
    destruct (decide (k = key)) as [->|Hne].
    + exists [], ps, [], j, jps, lo, mid. repeat split; try done.
      * apply not_elem_of_nil.
      * constructor.
    + specialize (IH jps mid hi Hkeys Hrest).
      destruct (assoc key ps) as [x|].
      * destruct IH as (ps1 & ps2 & jps1 & jx & jps2 & a & b & -> & -> & Hnot
                        & Hk1 & Hk2 & Hr1 & Hx & Hr2).
        exists ((k, v) :: ps1), ps2, ((k, j) :: jps1), jx, jps2, a, b.
        repeat split; try done.
        -- simpl. apply not_elem_of_cons. by split.
        -- simpl. by f_equal.
        -- simpl. by econstructor.
      * apply not_elem_of_cons. by split.
Qed.

Lemma assoc_split {V : Type} (key : jsstring) (o1 o2 : list (jsstring * V)) (x : V) :
  key ∉ o1.*1 -> assoc key (o1 ++ (key, x) :: o2) = Some x.
Proof.
  induction o1 as [|[k v] o1 IH]; simpl; intros Hnot.
  - by rewrite decide_True.
  - apply not_elem_of_cons in Hnot as [Hne Hnot].
    rewrite decide_False by done. by apply IH.
Qed.

Lemma assoc_None {V : Type} (key : jsstring) (o : list (jsstring * V)) :
  key ∉ o.*1 -> assoc key o = None.
Proof.
  induction o as [|[k v] o IH]; simpl; intros Hnot; [done|].
  apply not_elem_of_cons in Hnot as [Hne Hnot].
  rewrite decide_False by done. by apply IH.
Qed.

Lemma obj_set_split {V : Type} (key : jsstring) (o1 o2 : list (jsstring * V))
    (x v : V) :
  key ∉ o1.*1 ->
  CodeBlockProtector.obj_set key v (o1 ++ (key, x) :: o2) = o1 ++ (key, v) :: o2.
Proof.
  induction o1 as [|[k y] o1 IH]; simpl; intros Hnot.
  - by rewrite decide_True.
  - apply not_elem_of_cons in Hnot as [Hne Hnot].
    rewrite decide_False by done. by rewrite IH.
Qed.

Section OnJsonProps.
Context `{Builtins} `{TranslationEnv}.

Lemma translateText_str (s : jsstring) (h : list RT.cell) (w : world) :
  RT.translateText (RT.VStr s) h w
  = (Ok (RT.VStr (text_result s w).1), h, (text_result s w).2).
Proof.
  unfold RT.translateText, text_result, RT.catch, RT.bind, RT.lift, RT.ret.
  repeat case_match; simplify_eq; done.
Qed.

End OnJsonProps.

Section BlockProps.
Context `{Builtins} `{TranslationEnv}.

Lemma getv_is_str (lit key : string) (h : list RT.cell) (lo l : nat)
    (jps : list (jsstring * json)) :
  repr h lo (S l) (RT.VRef l) (Jobj jps) ->
  RT.vis_str lit (RT.getv key (RT.VRef l) h)
  = json_is_str lit (assoc (str key) jps).
Proof.
  inversion 1 as [| | | | |? ? ps ? Hreprs Hkeys Hl]; subst. simpl. rewrite Hl.
  pose proof (reprs_assoc_split h (str key) ps jps lo l Hkeys Hreprs) as Hsplit.
  destruct (assoc (str key) ps) as [x|].
  - destruct Hsplit as (ps1 & ps2 & jps1 & jx & jps2 & a & b & -> & -> & Hnot
                        & Hk1 & _ & _ & Hx & _).
    rewrite assoc_split by (by rewrite <- Hk1). simpl.
    by apply (repr_vis_str lit) in Hx.
  - rewrite assoc_None by (by rewrite <- Hkeys). done.
Qed.

(** Pushing a block of the copy as it is. *)
Lemma push_block (h : list RT.cell) (a b0 b1 : nat) (acc : list RT.val)
    (block : RT.val) (jb : json) :
  repr h b0 b1 block jb -> b1 <= a -> h !! a = Some (RT.CArr acc) ->
  length h <= length (alter (pushed block) a h)
  /\ (forall l, l < length h -> l <> a ->
        alter (pushed block) a h !! l = h !! l)
  /\ exists elem,
       alter (pushed block) a h !! a = Some (RT.CArr (acc ++ [elem]))
       /\ den (fun l => b0 <= l < b1
                        \/ length h <= l < length (alter (pushed block) a h))
              (alter (pushed block) a h) elem jb.
Proof.
  intros Hrepr Hb Ha. rewrite length_alter. split; [done|]. split.
  { intros l _ Hne. by rewrite list_lookup_alter_ne. }
  exists block. split; [rewrite list_lookup_alter_eq, Ha; reflexivity|].
  eapply den_move; [|by apply repr_den].
  intros l Hl. simpl in Hl. split; [by left|].
  rewrite list_lookup_alter_ne; [done|lia].
Qed.

(** One content block, against its JSON text. *)
Lemma translateBlock_refines (h : list RT.cell) (w : world) (a b0 b1 : nat)
    (acc : list RT.val) (block : RT.val) (jb : json) :
  repr h b0 b1 block jb -> b1 <= a -> h !! a = Some (RT.CArr acc) ->
  exists r h',
    RT.translateBlock (RT.VRef a) block h w = (r, h', (block_result jb w).2)
    /\ match (block_result jb w).1 with
       | Ok jb' =>
           r = Ok tt /\ length h <= length h'
           /\ (forall l, l < length h -> l <> a -> h' !! l = h !! l)
           /\ exists elem,
                h' !! a = Some (RT.CArr (acc ++ [elem]))
                /\ den (fun l => b0 <= l < b1 \/ length h <= l < length h')
                       h' elem jb'
       | Throw _ => exists e, r = Throw e
       end.
Proof.
  intros Hrepr Hb Ha.
  pose proof (push_block h a b0 b1 acc block jb Hrepr Hb Ha) as Hpush.
  assert (RT.vis_str "text" (RT.getv "type" block h) = false ->
          block <> RT.VNull ->
          RT.translateBlock (RT.VRef a) block h w
          = (Ok tt, alter (pushed block) a h, w)) as Hplain.
  { intros Hty Hnull. unfold RT.translateBlock, RT.bind, RT.get_strict, RT.read.
    inversion Hrepr; subst; try done; by rewrite Hty. }
  inversion Hrepr as [| | | |lo l vs js Hvs Hl|lo l ps jps Hreprs Hkeys Hl]; subst.
  - eexists _, _. split; [reflexivity|]. by eexists.
  - eexists _, _. split; [by apply Hplain|]. done.
  - eexists _, _. split; [by apply Hplain|]. done.
  - eexists _, _. split; [by apply Hplain|]. done.
  - eexists _, _. split; [apply Hplain; [|done]|done]. simpl. by rewrite Hl.
  - pose proof (getv_is_str "text" "type" h b0 l jps Hrepr) as Htype.
    unfold block_result.
    destruct (json_is_str "text" (assoc (str "type") jps)) eqn:Ety.
    2:{ eexists _, _. split; [by apply Hplain|]. done. }
    assert (forall text,
              RT.getv "text" (RT.VRef l) h = text -> RT.vtruthy text = false ->
              RT.translateBlock (RT.VRef a) (RT.VRef l) h w
              = (Ok tt, alter (pushed (RT.VRef l)) a h, w)) as Hfalsy.
    { intros text Htext Hfalse.
      unfold RT.translateBlock, RT.bind, RT.get_strict, RT.read.
      by rewrite Htype, Htext, Hfalse. }
    assert (forall text,
              RT.getv "text" (RT.VRef l) h = text -> RT.vtruthy text = true ->
              (forall s, text <> RT.VStr s) ->
              exists h',
                RT.translateBlock (RT.VRef a) (RT.VRef l) h w
                = (Throw TypeError, h', w)) as Hbad.
    { intros text Htext Htrue Hstr.
      unfold RT.translateBlock, RT.bind, RT.get_strict, RT.read, RT.spread,
        RT.alloc.
      rewrite Htype, Htext, Htrue. cbn [andb]. cbv beta iota. rewrite Hl.
      cbv beta iota.
      unfold RT.translateText. destruct text; try done.
      - rewrite Htrue. by eexists.
      - rewrite Htrue. by eexists.
      - by destruct (Hstr s).
      - by eexists. }
    pose proof (reprs_assoc_split h (str "text") ps jps b0 l Hkeys Hreprs)
      as Hsplit.
    assert (RT.getv "text" (RT.VRef l) h
            = default RT.VUndef (assoc (str "text") ps)) as Hget.
    { simpl. by rewrite Hl. }
    destruct (assoc (str "text") ps) as [x|] eqn:Ex.
    2:{ rewrite assoc_None by (by rewrite <- Hkeys).
        eexists _, _. split; [by apply (Hfalsy RT.VUndef)|]. done. }
    destruct Hsplit as (ps1 & ps2 & jps1 & jx & jps2 & a1 & a2 & -> & -> & Hnot
                        & Hk1 & Hk2 & Hr1 & Hx & Hr2).
    rewrite assoc_split by (by rewrite <- Hk1).
    pose proof (repr_truthy _ _ _ _ _ Hx) as Htruthy.
    change (RT.getv "text" (RT.VRef l) h = x) in Hget.
    assert (forall jx',
              jx = jx' -> (forall c s, jx' <> Jstr (c :: s)) ->
              exists r h',
                RT.translateBlock (RT.VRef a) (RT.VRef l) h w = (r, h', w)
                /\ (if jtruthy jx' then exists e, r = Throw e
                    else r = Ok tt /\ length h <= length h'
                         /\ (forall l', l' < length h -> l' <> a ->
                               h' !! l' = h !! l')
                         /\ exists elem,
                              h' !! a = Some (RT.CArr (acc ++ [elem]))
                              /\ den (fun l' => b0 <= l' < S l
                                                \/ length h <= l' < length h')
                                     h' elem
                                     (Jobj (jps1 ++ (str "text", jx) :: jps2))))
      as Hother.
    { intros jx' <- Hnostr. destruct (jtruthy jx) eqn:Ej.
      - destruct (Hbad x Hget) as [h' Hh']; [by rewrite Htruthy| |].
        + intros s ->. assert (jx = Jstr s) as -> by (by inversion Hx).
          destruct s as [|c s']; [done|]. by destruct (Hnostr c s').
        + eexists _, _. split; [exact Hh'|by eexists].
      - eexists _, _. split; [apply (Hfalsy x Hget); by rewrite Htruthy|].
        done. }
    destruct jx as [|b|z|[|c s]|elems|props].
    + destruct (Hother Jnull) as (r & h' & -> & Hr); [done..|].
      exists r, h'. by split.
    + destruct (Hother (Jbool b)) as (r & h' & -> & Hr); [done..|].
      exists r, h'. simpl jtruthy in *. by destruct b.
    + destruct (Hother (Jnum z)) as (r & h' & -> & Hr); [done..|].
      exists r, h'. simpl jtruthy in *. by destruct (negb _).
    + destruct (Hother (Jstr [])) as (r & h' & -> & Hr); [done..|].
      exists r, h'. by split.
    + assert (x = RT.VStr (c :: s)) as -> by (by inversion Hx).
      destruct (text_result (c :: s) w) as [translated w1] eqn:Etext.
      unfold RT.translateBlock, RT.bind, RT.get_strict, RT.read, RT.spread,
        RT.alloc, RT.set_prop, RT.push.
      rewrite Htype, Hget. cbn [andb RT.vtruthy]. cbv beta iota. rewrite Hl.
      cbv beta iota. rewrite translateText_str, Etext. cbn [fst snd].
      fold (assigned "text" (RT.VStr translated)).
      fold (pushed (RT.VRef (length h))).
      eexists _, _. split; [reflexivity|].
      assert (a < length h) as Halt by (by eapply lookup_lt_Some).
      rewrite !length_alter, length_app. simpl.
      split; [done|]. split; [lia|]. split.
      { intros l' Hl' Hne. rewrite !list_lookup_alter_ne by lia.
        by rewrite lookup_app_l. }
      exists (RT.VRef (length h)). split.
      { rewrite list_lookup_alter_eq, list_lookup_alter_ne by lia.
        by rewrite lookup_app_l, Ha. }
      rewrite !obj_set_split by (by rewrite <- ?Hk1).
      apply (den_obj _ _ _ (ps1 ++ (str "text", RT.VStr translated) :: ps2) []).
      * right. lia.
      * rewrite list_lookup_alter_ne, list_lookup_alter_eq by lia.
        rewrite lookup_app_r, Nat.sub_diag by lia. simpl.
        rewrite obj_set_split by done. by rewrite app_nil_r.
      * rewrite !fmap_app, !fmap_cons. simpl. by rewrite Hk1, Hk2.
      * apply repr_bounds in Hr1 as Hb1. apply repr_bounds in Hr2 as Hb2.
        apply repr_bounds in Hx as Hbx.
        rewrite !fmap_app, !fmap_cons. simpl.
        apply dens_app; [|constructor; [constructor|]].
        -- eapply dens_move; [|by apply repr_den]. intros l' Hl'. simpl in Hl'.
           split; [left; lia|].
           rewrite !list_lookup_alter_ne by lia. apply lookup_app_l. lia.
        -- eapply dens_move; [|by apply repr_den]. intros l' Hl'. simpl in Hl'.
           split; [left; lia|].
           rewrite !list_lookup_alter_ne by lia. apply lookup_app_l. lia.
      * done.
    + destruct (Hother (Jarr elems)) as (r & h' & -> & Hr); [done..|].
      exists r, h'. by split.
    + destruct (Hother (Jobj props)) as (r & h' & -> & Hr); [done..|].
      exists r, h'. by split.
Qed.

End BlockProps.

Section ContentProps.
Context `{Builtins} `{TranslationEnv}.

Lemma reprs_agree_below (h h2 : list RT.cell) (lo hi : nat) (vs : list RT.val)
    (js : list json) :
  reprs h lo hi vs js ->
  (forall l, lo <= l < hi -> l < length h -> h2 !! l = h !! l) ->
  reprs h2 lo hi vs js.
Proof.
  intros Hreprs Hsame. apply (proj2 (repr_agree h) _ _ _ _ Hreprs).
  intros l Hl. apply Hsame; [done|].
  apply repr_in_heap in Hreprs as [->|Hhi]; lia.
Qed.

(** The loop over the blocks of an array content. *)
Lemma forM_blocks_refine (a : nat) (bs : list RT.val) :
  forall (jbs : list json) (b0 b1 : nat) (h : list RT.cell) (w : world)
         (acc : list RT.val),
    reprs h b0 b1 bs jbs -> b1 <= a -> h !! a = Some (RT.CArr acc) ->
    exists r h',
      RT.forM bs (RT.translateBlock (RT.VRef a)) h w
      = (r, h', (each block_result jbs w).2)
      /\ match (each block_result jbs w).1 with
         | Ok jbs' =>
             r = Ok tt /\ length h <= length h'
             /\ (forall l, l < length h -> l <> a -> h' !! l = h !! l)
             /\ exists new,
                  h' !! a = Some (RT.CArr (acc ++ new))
                  /\ dens (fun l => b0 <= l < b1 \/ length h <= l < length h')
                          h' new jbs'
         | Throw _ => exists e, r = Throw e
         end.
Proof.
  induction bs as [|b bs IH]; intros jbs b0 b1 h w acc Hreprs Hb Ha;
    inversion Hreprs as [|? mid ? ? ? jb jbs' Hrepr Hrest]; subst.
  - exists (Ok tt), h. split; [done|]. simpl. repeat split; try done.
    exists []. rewrite app_nil_r. split; [done|constructor].
  - apply repr_bounds in Hrepr as Hb0. apply repr_bounds in Hrest as Hb1.
    assert (a < length h) as Halt by (by eapply lookup_lt_Some).
    destruct (translateBlock_refines h w a b0 mid acc b jb Hrepr) as
      (r1 & h1 & E1 & Hr1); [lia|done|].
    cbn [RT.forM each]. unfold RT.bind at 1. rewrite E1.
    destruct (block_result jb w) as [[jb'|e] w1]; cbn [fst snd] in *.
    2:{ destruct Hr1 as [e' ->]. eexists _, _. split; [done|]. by eexists. }
    destruct Hr1 as (-> & Hlen1 & Hsame1 & elem & Ha1 & Helem).
    destruct (IH jbs' mid b1 h1 w1 (acc ++ [elem])) as (r2 & h2 & E2 & Hr2);
      [|done|done|].
    { eapply reprs_agree_below; [done|]. intros l Hl Hlt. apply Hsame1; lia. }
    rewrite E2. exists r2, h2.
    destruct (each block_result jbs' w1) as [[jbs2|e] w2]; cbn [fst snd] in *;
      [|done].
    split; [done|].
    destruct Hr2 as (-> & Hlen2 & Hsame2 & new & Ha2 & Hnew).
    split; [done|]. split; [lia|]. split.
    { intros l Hl Hne. rewrite Hsame2 by lia. by apply Hsame1. }
    exists (elem :: new). split.
    { rewrite Ha2. by rewrite <- app_assoc. }
    constructor.
    + eapply den_move; [|exact Helem]. intros l Hl. simpl in Hl.
      split; [lia|]. apply Hsame2; lia.
    + eapply dens_move; [|exact Hnew]. intros l Hl. simpl in Hl.
      split; [lia|done].
Qed.

Lemma translateContent_array (l : nat) (vs : list RT.val) (h : list RT.cell)
    (w : world) :
  h !! l = Some (RT.CArr vs) ->
  RT.translateContent (RT.VRef l) h w
  = match RT.forM vs (RT.translateBlock (RT.VRef (length h)))
            (h ++ [RT.CArr []]) w with
    | (Ok _, h', w') => (Ok (RT.VRef (length h)), h', w')
    | (Throw e, h', w') => (Throw e, h', w')
    end.
Proof.
  intros Hl. assert (l < length h) as Hlt by (by eapply lookup_lt_Some).
  unfold RT.translateContent, RT.bind, RT.read, RT.alloc, RT.elements, RT.ret.
  simpl. rewrite Hl, lookup_app_l, Hl by done.
  by destruct (RT.forM _ _ _ _) as [[[[]|e] h'] w'].
Qed.

(** The content of a user message, against its JSON text. *)
Lemma translateContent_refines (h : list RT.cell) (w : world) (c0 c1 : nat)
    (content : RT.val) (jc : json) :
  repr h c0 c1 content jc ->
  exists r h',
    RT.translateContent content h w = (r, h', (content_result jc w).2)
    /\ match (content_result jc w).1 with
       | Ok jc' =>
           length h <= length h'
           /\ (forall l, l < length h -> h' !! l = h !! l)
           /\ exists tv,
                r = Ok tv
                /\ den (fun l => c0 <= l < c1 \/ length h <= l < length h')
                       h' tv jc'
       | Throw _ => exists e, r = Throw e
       end.
Proof.
  intros Hrepr.
  assert (RT.isArray content h = false ->
          (forall s, content <> RT.VStr s) ->
          RT.translateContent content h w = (Ok content, h, w)) as Hplain.
  { intros Harr Hstr. unfold RT.translateContent.
    destruct content; try done; try (by destruct (Hstr s));
      unfold RT.bind, RT.read, RT.ret; by rewrite ?Harr. }
  assert (den (fun l => c0 <= l < c1 \/ length h <= l < length h) h content jc)
    as Hden.
  { eapply den_move; [|by apply repr_den]. intros l Hl. simpl in Hl.
    split; [by left|done]. }
  inversion Hrepr as [| | | |lo l vs js Hvs Hl|lo l ps jps Hreprs Hkeys Hl]; subst.
  - eexists _, _. split; [by apply Hplain|]. simpl. repeat split; try done.
    by eexists.
  - eexists _, _. split; [by apply Hplain|]. simpl. repeat split; try done.
    by eexists.
  - eexists _, _. split; [by apply Hplain|]. simpl. repeat split; try done.
    by eexists.
  - unfold RT.translateContent, content_result. rewrite translateText_str.
    destruct (text_result s w) as [translated w1]. cbn [fst snd].
    eexists _, _. split; [done|]. repeat split; try done.
    eexists. split; [done|]. constructor.
  - assert (l < length h) as Hlt by (by eapply lookup_lt_Some).
    destruct (forM_blocks_refine (length h) vs js c0 l (h ++ [RT.CArr []]) w [])
      as (r & h' & E & Hr); [by apply reprs_app_heap_list|lia| |].
    { by rewrite lookup_app_r, Nat.sub_diag by lia. }
    rewrite (translateContent_array l vs h w Hl), E. unfold content_result.
    destruct (each block_result js w) as [[jbs'|e] w1]; cbn [fst snd] in *.
    2:{ destruct Hr as [e' ->]. eexists _, _. split; [done|]. by eexists. }
    destruct Hr as (-> & Hlen & Hsame & new & Ha & Hnew).
    rewrite length_app in Hlen, Hsame, Hnew. simpl in Hlen, Hsame, Hnew.
    eexists _, _. split; [done|].
    split; [lia|]. split.
    { intros l' Hl'. rewrite Hsame by lia. by apply lookup_app_l. }
    eexists. split; [done|].
    apply (den_arr _ _ _ new); [right; lia|done|].
    eapply dens_move; [|exact Hnew]. intros l' Hl'. simpl in Hl'.
    split; [lia|done].
  - eexists _, _. split; [apply Hplain; [|done]|].
    + simpl. by rewrite Hl.
    + simpl. repeat split; try done. by eexists.
Qed.

(** One message, against its JSON text. *)
Lemma translateMessage_refines (h : list RT.cell) (w : world) (lo hi : nat)
    (message : RT.val) (jm : json) :
  repr h lo hi message jm ->
  exists r h',
    RT.translateMessage message h w = (r, h', (message_result jm w).2)
    /\ match (message_result jm w).1 with
       | Ok jm' =>
           r = Ok tt /\ length h <= length h'
           /\ (forall l, l < length h -> ~ (lo <= l < hi) -> h' !! l = h !! l)
           /\ den (fun l => lo <= l < hi \/ length h <= l < length h') h'
                  message jm'
       | Throw _ => exists e, r = Throw e
       end.
Proof.
  intros Hrepr.
  assert (RT.vis_str "user" (RT.getv "role" message h) = false ->
          message <> RT.VNull ->
          RT.translateMessage message h w = (Ok tt, h, w)) as Hplain.
  { intros Hrole Hnull. unfold RT.translateMessage, RT.bind, RT.get_strict,
      RT.read, RT.ret.
    inversion Hrepr; subst; try done; by rewrite Hrole. }
  assert (den (fun l => lo <= l < hi \/ length h <= l < length h) h message jm)
    as Hden.
  { eapply den_move; [|by apply repr_den]. intros l Hl. simpl in Hl.
    split; [by left|done]. }
  inversion Hrepr as [| | | |lo' l vs js Hvs Hl|lo' l ps jps Hreprs Hkeys Hl]; subst.
  - eexists _, _. split; [reflexivity|]. by eexists.
  - eexists _, _. split; [by apply Hplain|]. done.
  - eexists _, _. split; [by apply Hplain|]. done.
  - eexists _, _. split; [by apply Hplain|]. done.
  - eexists _, _. split; [apply Hplain; [|done]|done]. simpl. by rewrite Hl.
  - pose proof (getv_is_str "user" "role" h lo l jps Hrepr) as Hrole.
    unfold message_result.
    destruct (json_is_str "user" (assoc (str "role") jps)) eqn:Euser.
    2:{ eexists _, _. split; [by apply Hplain|]. done. }
    assert (l < length h) as Hlt by (by eapply lookup_lt_Some).
    unfold RT.translateMessage, RT.bind at 1, RT.get_strict, RT.read at 1.
    rewrite Hrole. unfold RT.bind at 1, RT.read at 1.
    assert (RT.getv "content" (RT.VRef l) h
            = default RT.VUndef (assoc (str "content") ps)) as ->.
    { simpl. by rewrite Hl. }
    pose proof (reprs_assoc_split h (str "content") ps jps lo l Hkeys Hreprs)
      as Hsplit.
    destruct (assoc (str "content") ps) as [x|] eqn:Ex.
    + destruct Hsplit as (ps1 & ps2 & jps1 & jx & jps2 & a1 & a2 & -> & -> & Hnot
                          & Hk1 & Hk2 & Hr1 & Hx & Hr2).
      rewrite assoc_split by (by rewrite <- Hk1).
      apply repr_bounds in Hr1 as Hb1. apply repr_bounds in Hr2 as Hb2.
      apply repr_bounds in Hx as Hbx.
      destruct (translateContent_refines h w a1 a2 x jx Hx) as (r & h1 & E & Hr).
      change (default RT.VUndef (Some x)) with x. unfold RT.bind at 1.
      rewrite E.
      destruct (content_result jx w) as [[jc'|e] w1]; cbn [fst snd] in *.
      2:{ destruct Hr as [e' ->]. eexists _, _. split; [done|]. by eexists. }
      destruct Hr as (Hlen & Hsame & tv & -> & Htv).
      unfold RT.set_prop. fold (assigned "content" tv).
      eexists _, _. split; [done|]. rewrite length_alter.
      split; [done|]. split; [done|]. split.
      { intros l' Hl' Hout. rewrite list_lookup_alter_ne by lia. by apply Hsame. }
      rewrite obj_set_split by (by rewrite <- Hk1).
      apply (den_obj _ _ _ (ps1 ++ (str "content", tv) :: ps2) []).
      * left. lia.
      * rewrite list_lookup_alter_eq, Hsame, Hl by done. simpl.
        rewrite obj_set_split by done. by rewrite app_nil_r.
      * rewrite !fmap_app, !fmap_cons. simpl. by rewrite Hk1, Hk2.
      * rewrite !fmap_app, !fmap_cons. simpl.
        apply dens_app; [|constructor].
        -- eapply dens_move; [|by apply repr_den]. intros l' Hl'. simpl in Hl'.
           split; [left; lia|].
           rewrite list_lookup_alter_ne by lia. apply Hsame. lia.
        -- eapply den_move; [|exact Htv]. intros l' Hl'. simpl in Hl'.
           split; [lia|]. by rewrite list_lookup_alter_ne by lia.
        -- eapply dens_move; [|by apply repr_den]. intros l' Hl'. simpl in Hl'.
           split; [left; lia|].
           rewrite list_lookup_alter_ne by lia. apply Hsame. lia.
      * done.
    + rewrite assoc_None by (by rewrite <- Hkeys).
      apply repr_bounds in Hreprs as Hbl.
      change (default RT.VUndef None) with RT.VUndef.
      unfold RT.bind at 1.
      assert (RT.translateContent RT.VUndef h w = (Ok RT.VUndef, h, w)) as ->
        by done.
      unfold RT.set_prop. fold (assigned "content" RT.VUndef).
      eexists _, _. split; [done|]. rewrite length_alter. cbn [fst snd].
      split; [done|]. split; [done|]. split.
      { intros l' Hl' Hout. rewrite list_lookup_alter_ne by lia. done. }
      apply (den_obj _ _ _ ps [(str "content", RT.VUndef)]).
      * left. lia.
      * rewrite list_lookup_alter_eq, Hl. simpl.
        by rewrite obj_set_fresh by done.
      * done.
      * eapply dens_move; [|by apply repr_den]. intros l' Hl'. simpl in Hl'.
        split; [left; lia|]. by rewrite list_lookup_alter_ne by lia.
      * by constructor.
Qed.

(** The loop over the messages. *)
Lemma forM_messages_refine (ms : list RT.val) :
  forall (jms : list json) (lo hi : nat) (h : list RT.cell) (w : world),
    reprs h lo hi ms jms ->
    exists r h',
      RT.forM ms RT.translateMessage h w
      = (r, h', (each message_result jms w).2)
      /\ match (each message_result jms w).1 with
         | Ok jms' =>
             r = Ok tt /\ length h <= length h'
             /\ (forall l, l < length h -> ~ (lo <= l < hi) -> h' !! l = h !! l)
             /\ dens (fun l => lo <= l < hi \/ length h <= l < length h') h'
                     ms jms'
         | Throw _ => exists e, r = Throw e
         end.
Proof.
  induction ms as [|m ms IH]; intros jms lo hi h w Hreprs;
    inversion Hreprs as [|? mid ? ? ? jm jms' Hrepr Hrest]; subst.
  - exists (Ok tt), h. split; [done|]. simpl. repeat split; try done. constructor.
  - apply repr_bounds in Hrepr as Hb0. apply repr_bounds in Hrest as Hb1.
    destruct (translateMessage_refines h w lo mid m jm Hrepr) as
      (r1 & h1 & E1 & Hr1).
    cbn [RT.forM each]. unfold RT.bind at 1. rewrite E1.
    destruct (message_result jm w) as [[jm'|e] w1]; cbn [fst snd] in *.
    2:{ destruct Hr1 as [e' ->]. eexists _, _. split; [done|]. by eexists. }
    destruct Hr1 as (-> & Hlen1 & Hsame1 & Hm).
    destruct (IH jms' mid hi h1 w1) as (r2 & h2 & E2 & Hr2).
    { eapply reprs_agree_below; [done|]. intros l Hl Hlt. apply Hsame1; lia. }
    rewrite E2. exists r2, h2.
    destruct (each message_result jms' w1) as [[jms2|e] w2]; cbn [fst snd] in *;
      [|done].
    split; [done|].
    destruct Hr2 as (-> & Hlen2 & Hsame2 & Hrest2).
    split; [done|]. split; [lia|]. split.
    { intros l Hl Hout. rewrite Hsame2 by lia. apply Hsame1; lia. }
    assert (mid = hi \/ hi <= length h) as Hhi.
    { apply repr_in_heap in Hrest. lia. }
    assert (lo = mid \/ mid <= length h) as Hmid.
    { apply repr_in_heap in Hrepr. lia. }
    constructor.
    + eapply den_move; [|exact Hm]. intros l Hl. simpl in Hl.
      split; [lia|]. apply Hsame2; lia.
    + eapply dens_move; [|exact Hrest2]. intros l Hl. simpl in Hl.
      split; [lia|done].
Qed.

End ContentProps.

Lemma stringify_ext_heap (h h' : list RT.cell) :
  ext (length h) h h' ->
  forall n v r, RT.stringify n h v = Some r -> RT.stringify n h' v = Some r.
Proof.
  intros [Hlen Hsame]. induction n as [|n IH]; intros v r; [done|].
  destruct v as [| | | | |l]; simpl; try done.
  destruct (h !! l) as [c|] eqn:El; [|done].
  rewrite Hsame by (by eapply lookup_lt_Some). rewrite El.
  destruct c as [props|elems].
  - destruct (RT.stringify_props (RT.stringify n h) props) as [js|] eqn:Ep;
      [|done].
    intros E.
    rewrite (stringify_props_ext (RT.stringify n h) (RT.stringify n h') props js);
      [done| |done].
    intros x rx _ Hx. by apply IH.
  - destruct (RT.mapM _ elems) as [js|] eqn:Em; [|done].
    intros E.
    rewrite (mapM_ext (fun e => default Jnull <$> RT.stringify n h e)
               (fun e => default Jnull <$> RT.stringify n h' e) elems js);
      [done| |done].
    intros x rx _ Hx. destruct (RT.stringify n h x) as [y|] eqn:Ey; [|done].
    by rewrite (IH x y Ey).
Qed.

Lemma stringify_props_assoc (f : RT.val -> option (option json)) (key : jsstring) :
  forall (ps : list (jsstring * RT.val)) (jps : list (jsstring * json))
         (v : RT.val) (jv : json),
    assoc key ps = Some v -> f v = Some (Some jv) ->
    RT.stringify_props f ps = Some jps -> assoc key jps = Some jv.
Proof.
  induction ps as [|[k x] ps IH]; intros jps v jv; simpl; [done|].
  destruct (decide (k = key)) as [->|Hne].
  - intros [= ->] ->. destruct (RT.stringify_props f ps); [|done].
    intros [= <-]. simpl. by rewrite decide_True.
  - intros Hv Hfv. destruct (f x) as [[jx|]|]; [| |done];
      destruct (RT.stringify_props f ps) as [js|] eqn:Eps; try done;
      intros [= <-].
    + simpl. rewrite decide_False by done. by eapply IH.
    + by eapply IH.
Qed.

(** A request whose [messages] is an array serialises to an object whose
    [messages] is an array. *)
Lemma stringify_messages (n : nat) (h : list RT.cell) (requestBody : RT.val)
    (j : json) :
  RT.isArray (RT.getv "messages" requestBody h) h = true ->
  RT.stringify n h requestBody = Some (Some j) ->
  exists jps jmsgs,
    j = Jobj jps /\ assoc (str "messages") jps = Some (Jarr jmsgs).
Proof.
  intros Harr Hj. destruct requestBody as [| | | | |root]; try done.
  simpl in Harr. destruct n as [|n]; [done|]. simpl in Hj.
  destruct (h !! root) as [[ps|elems]|] eqn:Eroot; try done.
  destruct (assoc (str "messages") ps) as [x|] eqn:Ex; [|done].
  simpl in Harr. destruct x as [| | | | |lm]; try done. simpl in Harr.
  destruct (h !! lm) as [[?|ms]|] eqn:Elm; try done.
  destruct (RT.stringify_props (RT.stringify n h) ps) as [jps|] eqn:Eps; [|done].
  injection Hj as <-.
  assert (is_Some (RT.stringify n h (RT.VRef lm))) as [rm Hrm].
  { eapply stringify_props_is_Some; [by rewrite Eps|].
    by eapply assoc_elem_of. }
  destruct n as [|n]; [done|]. simpl in Hrm. rewrite Elm in Hrm.
  destruct (RT.mapM _ ms) as [jmsgs|] eqn:Ems; [|done].
  exists jps, jmsgs. split; [done|].
  eapply (stringify_props_assoc _ _ ps jps (RT.VRef lm)); [done| |done].
  simpl. by rewrite Elm, Ems.
Qed.

Section RequestProps.
Context `{Builtins} `{TranslationEnv}.

(** The [try] block of [translateRequest], against the JSON text of the
    request. *)
Lemma translateMessages_on_json (requestBody : RT.val) (h0 : list RT.cell)
    (w : world) (j : json) :
  RT.isArray (RT.getv "messages" requestBody h0) h0 = true ->
  RT.stringify (S (length h0)) h0 requestBody = Some (Some j) ->
  exists jps jmsgs r h',
    j = Jobj jps /\ assoc (str "messages") jps = Some (Jarr jmsgs)
    /\ RT.translateMessages requestBody h0 w = (r, h', (request_result j w).2)
    /\ match r with
       | Ok ret =>
           den (fun _ => True) h' ret (request_result j w).1
           /\ exists jms, (each message_result jmsgs w).1 = Ok jms
       | Throw _ =>
           (request_result j w).1 = j
           /\ exists e, (each message_result jmsgs w).1 = Throw e
       end.
Proof.
  intros Harr Hj.
  destruct (stringify_messages _ _ _ _ Harr Hj) as (jps & jmsgs & -> & Hmsgs).
  unfold RT.translateMessages, RT.bind at 1, RT.deepCopy. rewrite Hj.
  destruct (RT.parse (Jobj jps) h0) as [v1 h1] eqn:Eparse.
  destruct (parse_spec (Jobj jps) h0 v1 h1 Eparse) as (_ & Hrepr & _).
  inversion Hrepr as [| | | | |lo root ps ? Hreprs Hkeys Hroot]; subst.
  pose proof (reprs_assoc_split h1 (str "messages") ps jps (length h0) root
                Hkeys Hreprs) as Hsplit.
  destruct (assoc (str "messages") ps) as [x|] eqn:Ex.
  2:{ rewrite assoc_None in Hmsgs; [done|]. by rewrite <- Hkeys. }
  destruct Hsplit as (ps1 & ps2 & jps1 & jx & jps2 & a1 & a2 & -> & -> & Hnot
                      & Hk1 & Hk2 & Hr1 & Hx & Hr2).
  rewrite assoc_split in Hmsgs by (by rewrite <- Hk1). injection Hmsgs as ->.
  inversion Hx as [| | | |? lm ms ? Hms Hlm|]; subst.
  apply repr_bounds in Hr1 as Hb1. apply repr_bounds in Hr2 as Hb2.
  apply repr_bounds in Hms as Hbm.
  assert (root < length h1) as Hrootlt by (by eapply lookup_lt_Some).
  unfold RT.bind at 1, RT.read at 1.
  assert (RT.getv "messages" (RT.VRef root) h1 = RT.VRef lm) as ->.
  { simpl. by rewrite Hroot, Ex. }
  unfold RT.bind at 1, RT.elements at 1. rewrite Hlm.
  destruct (forM_messages_refine ms jmsgs a1 lm h1 w Hms) as (r & h2 & E & Hr).
  unfold RT.bind at 1. rewrite E. unfold request_result.
  rewrite assoc_split by (by rewrite <- Hk1).
  destruct (each message_result jmsgs w) as [[jms'|e] w1] eqn:Eeach;
    cbn [fst snd] in *.
  2:{ destruct Hr as [e' ->]. eexists _, jmsgs, _, _.
      split; [reflexivity|]. split; [by rewrite assoc_split by (by rewrite <- Hk1)|].
      split; [done|]. split; [done|]. exists e. by rewrite Eeach. }
  destruct Hr as (-> & Hlen & Hsame & Hdens).
  unfold RT.ret. eexists _, jmsgs, _, _.
  split; [reflexivity|]. split; [by rewrite assoc_split by (by rewrite <- Hk1)|].
  split; [done|]. split; [|exists jms'; by rewrite Eeach].
  rewrite obj_set_split by (by rewrite <- Hk1).
  apply (den_obj _ _ _ (ps1 ++ (str "messages", RT.VRef lm) :: ps2) []).
  - done.
  - rewrite Hsame by lia. by rewrite app_nil_r.
  - rewrite !fmap_app, !fmap_cons. simpl. by rewrite Hk1, Hk2.
  - rewrite !fmap_app, !fmap_cons. simpl.
    apply dens_app; [|constructor].
    + eapply dens_move; [|by apply repr_den]. intros l Hl. simpl in Hl.
      split; [done|]. apply Hsame; lia.
    + apply (den_arr _ _ _ ms); [done| |].
      * rewrite Hsame by lia. done.
      * eapply dens_move; [|exact Hdens]. by intros l Hl.
    + eapply dens_move; [|by apply repr_den]. intros l Hl. simpl in Hl.
      split; [done|]. apply Hsame; lia.
  - done.
Qed.

(** [translateRequest] for an account with translation on and a request with
    a [messages] array, against the JSON text of the request. *)
Lemma translateRequest_on_json (requestBody : RT.val) (account : jv)
    (h0 : list RT.cell) (w : world) (j : json) :
  truthy (get "enableTranslation" account) = true ->
  RT.isArray (RT.getv "messages" requestBody h0) h0 = true ->
  RT.stringify (S (length h0)) h0 requestBody = Some (Some j) ->
  exists ret h',
    RT.translateRequest requestBody account h0 w
    = (Ok ret, h', (request_result j w).2)
    /\ RT.stringify (S (length h')) h' ret = Some (Some (request_result j w).1).
Proof.
  intros Hon Harr Hj.
  destruct (translateMessages_on_json requestBody h0 w j Harr Hj)
    as (jps & jmsgs & r & h' & _ & _ & E & Hr).
  pose proof (translateMessages_spec requestBody h0 w r h' _ E) as [Hext _].
  unfold RT.translateRequest. rewrite Hon. cbn [negb].
  unfold RT.bind, RT.read. rewrite Harr.
  assert (RT.vtruthy (RT.getv "messages" requestBody h0) = true) as ->.
  { by destruct (RT.getv "messages" requestBody h0). }
  cbn [negb orb]. unfold RT.catch. rewrite E.
  destruct r as [ret|e].
  - exists ret, h'. split; [done|]. eapply den_stringify_heap. apply Hr.
  - exists requestBody, h'. split; [done|]. rewrite (proj1 Hr).
    eapply stringify_fuel_enough. by eapply stringify_ext_heap.
Qed.

End RequestProps.

(** *** What the translation leaves as it is *)

Lemma obj_set_same {V : Type} (key : jsstring) (v : V) (o : list (jsstring * V)) :
  assoc key o = Some v -> CodeBlockProtector.obj_set key v o = o.
Proof.
  induction o as [|[k x] o IH]; simpl; [done|].
  destruct (decide (k = key)) as [->|Hne]; [by intros [= ->]|].
  intros Hv. by rewrite IH.
Qed.

Lemma forallb_all {A : Type} (f : A -> bool) (l : list A) :
  forallb f l = true -> Forall (fun x => f x = true) l.
Proof.
  induction l as [|a l IH]; simpl; [by constructor|].
  intros [Ha Hl]%andb_true_iff. constructor; [done|by apply IH].
Qed.

Lemma all_forallb {A : Type} (f : A -> bool) (l : list A) :
  Forall (fun x => f x = true) l -> forallb f l = true.
Proof. induction 1 as [|a l Ha _ IH]; simpl; [done|by rewrite Ha, IH]. Qed.

Lemma all_strings_assoc (K : jsstring -> bool) (key : jsstring)
    (props : list (jsstring * json)) (v : json) :
  forallb (fun kv => let '(_, v) := kv in all_strings K v) props = true ->
  assoc key props = Some v -> all_strings K v = true.
Proof.
  induction props as [|[k x] props IH]; simpl; [done|].
  intros [Hx Hrest]%andb_true_iff.
  destruct (decide (k = key)); [by intros [= <-]|by apply IH].
Qed.

Section KeepsProps.
Context `{Builtins} `{TranslationEnv}.
Variable K : jsstring -> bool.
Variable untouched : Prop.
Hypothesis text_kept : forall s w, K s = true -> (text_result s w).1 = s.
Hypothesis service_kept :
  untouched -> forall s w, K s = true -> (text_result s w).2 = w.

(** A step that gives back what it was given, or throws. *)
Definition keeps {A : Type} (f : A -> world -> outcome A * world) (a : A) : Prop :=
  forall w,
    match (f a w).1 with
    | Ok b => b = a
    | Throw _ => True
    end
    /\ (untouched -> (f a w).2 = w).

Lemma each_keeps {A : Type} (f : A -> world -> outcome A * world) (l : list A) :
  Forall (keeps f) l -> keeps (each f) l.
Proof.
  induction 1 as [|a l Ha _ IH]; intros w; [done|].
  cbn [each]. destruct (Ha w) as [Ha1 Ha2].
  destruct (f a w) as [[b|e] w1]; [|done]. cbn [fst snd] in *. subst b.
  destruct (IH w1) as [Hl1 Hl2].
  destruct (each f l w1) as [[bs|e] w2]; cbn [fst snd] in *.
  - subst bs. split; [done|]. intros Hu. by rewrite Hl2, Ha2.
  - split; [done|]. intros Hu. by rewrite Hl2, Ha2.
Qed.

Lemma block_result_keeps (block : json) :
  all_strings K block = true -> keeps block_result block.
Proof using text_kept service_kept.
  intros Hall w. unfold block_result.
  destruct block as [| | | | |props]; try done.
  destruct (json_is_str "text" _); [|done].
  destruct (assoc (str "text") props) as [text|] eqn:Etext; [|done].
  destruct text as [|b|z|[|c s]|elems|ps]; try (by destruct (jtruthy _)).
  assert (K (c :: s) = true) as Hs.
  { by apply (all_strings_assoc K (str "text") props (Jstr (c :: s))). }
  pose proof (text_kept (c :: s) w Hs) as H1.
  pose proof (fun Hu => service_kept Hu (c :: s) w Hs) as H2.
  destruct (text_result (c :: s) w) as [translated w1]. cbn [fst snd] in *.
  subst translated. by rewrite obj_set_same.
Qed.

Lemma content_result_keeps (content : json) :
  all_strings K content = true -> keeps content_result content.
Proof using text_kept service_kept.
  intros Hall w. unfold content_result.
  destruct content as [| | |s|blocks|]; try done.
  - pose proof (text_kept s w Hall) as H1.
    pose proof (fun Hu => service_kept Hu s w Hall) as H2.
    destruct (text_result s w) as [translated w1]. cbn [fst snd] in *.
    by subst translated.
  - assert (keeps (each block_result) blocks) as Hblocks.
    { apply each_keeps. simpl in Hall. apply forallb_all in Hall.
      eapply Forall_impl; [exact Hall|]. apply block_result_keeps. }
    destruct (Hblocks w) as [Hb1 Hb2].
    destruct (each block_result blocks w) as [[bs|e] w1]; cbn [fst snd] in *;
      [by subst bs|done].
Qed.

Lemma message_result_keeps (message : json) :
  all_strings K message = true -> keeps message_result message.
Proof using text_kept service_kept.
  intros Hall w. unfold message_result.
  destruct message as [| | | | |props]; try done.
  destruct (json_is_str "user" _); [|done].
  destruct (assoc (str "content") props) as [content|] eqn:Econtent; [|done].
  assert (all_strings K content = true) as Hc.
  { by apply (all_strings_assoc K (str "content") props content). }
  destruct (content_result_keeps content Hc w) as [Hc1 Hc2].
  destruct (content_result content w) as [[translated|e] w1]; cbn [fst snd] in *;
    [|done].
  subst translated. by rewrite obj_set_same.
Qed.

Lemma request_result_keeps (request : json) (w : world) :
  all_strings K request = true ->
  (request_result request w).1 = request
  /\ (untouched -> (request_result request w).2 = w).
Proof using text_kept service_kept.
  intros Hall. unfold request_result.
  destruct request as [| | | | |props]; try done.
  destruct (assoc (str "messages") props) as [[| | | |messages|]|] eqn:Emsgs;
    try done.
  assert (keeps (each message_result) messages) as Hmsgs.
  { apply each_keeps.
    pose proof (all_strings_assoc K _ props _ Hall Emsgs) as Hm.
    simpl in Hm. apply forallb_all in Hm.
    eapply Forall_impl; [exact Hm|]. apply message_result_keeps. }
  destruct (Hmsgs w) as [H1 H2].
  destruct (each message_result messages w) as [[translated|e] w1];
    cbn [fst snd] in *; [|done].
  subst translated. by rewrite obj_set_same.
Qed.

End KeepsProps.

Section RequestExtras.
Context `{Builtins} `{TranslationEnv}.

Lemma text_result_plain (s : jsstring) (w : world) :
  LanguageDetector.containsChinese s = false -> text_result s w = (s, w).
Proof.
  intros Hs. unfold text_result. destruct s as [|c s]; [done|].
  destruct (trim _); [done|]. by rewrite Hs.
Qed.

Lemma text_result_fails (s : jsstring) (w : world) :
  request_translation_fails -> (text_result s w).1 = s.
Proof.
  intros Hfail. unfold text_result. destruct s as [|c s]; [done|].
  destruct (trim (c :: s)); [done|]. destruct (negb _); [done|].
  destruct (trim (CodeBlockProtector.cleanText _)) eqn:E; [done|].
  destruct (Hfail (CodeBlockProtector.cleanText
                     (CodeBlockProtector.extract (c :: s))) w) as (e & w' & ->);
    [by rewrite E|done].
Qed.

Lemma all_strings_true (j : json) : all_strings (fun _ => true) j = true.
Proof.
  induction j as [| | | |elems IH|props IH] using json_ind'; try done; simpl.
  - by apply all_forallb.
  - apply all_forallb. eapply Forall_impl; [exact IH|]. by intros [k x].
Qed.

(** X18: for an account with translation on and a request whose [messages]
    is an array, [translateRequest] returns an object graph that reads as
    the JSON text [request_result] computes from the text of the request, and
    leaves the translation service as [request_result] does: every user
    message has its string content, or the [text] of each of its text
    blocks, replaced by what [_translateText] returns, in order; everything
    else is as it was; any exception gives the request back. *)
Theorem translateRequest_refines (requestBody : RT.val) (account : jv)
    (h0 : list RT.cell) (w : world) (j : json) :
  truthy (get "enableTranslation" account) = true ->
  RT.isArray (RT.getv "messages" requestBody h0) h0 = true ->
  RT.stringify (S (length h0)) h0 requestBody = Some (Some j) ->
  exists ret h',
    RT.translateRequest requestBody account h0 w
    = (Ok ret, h', (request_result j w).2)
    /\ RT.stringify (S (length h')) h' ret = Some (Some (request_result j w).1).
Proof. apply translateRequest_on_json. Qed.

(** X19: a request without a Chinese character in any of its strings goes
    through untouched: what [translateRequest] returns reads as the same
    JSON text, and the translation service is not called. *)
Theorem request_without_chinese_is_unchanged (requestBody : RT.val)
    (account : jv) (h0 : list RT.cell) (w : world) (j : json) :
  truthy (get "enableTranslation" account) = true ->
  RT.isArray (RT.getv "messages" requestBody h0) h0 = true ->
  RT.stringify (S (length h0)) h0 requestBody = Some (Some j) ->
  chinese_free j = true ->
  exists ret h',
    RT.translateRequest requestBody account h0 w = (Ok ret, h', w)
    /\ RT.stringify (S (length h')) h' ret = Some (Some j).
Proof.
  intros Hon Harr Hj Hfree.
  destruct (translateRequest_on_json requestBody account h0 w j Hon Harr Hj)
    as (ret & h' & E & Hret).
  destruct (request_result_keeps
              (fun s => negb (LanguageDetector.containsChinese s)) True) with
    (request := j) (w := w) as [E1 E2]; try done.
  - intros s w0 Hs%negb_true_iff. by rewrite text_result_plain.
  - intros _ s w0 Hs%negb_true_iff. by rewrite text_result_plain.
  - rewrite E1 in Hret. rewrite (E2 I) in E. by exists ret, h'.
Qed.

(** X20: when the translation service rejects every request, what
    [translateRequest] returns reads as the JSON text of the request it was
    given: nothing is lost or altered. *)
Theorem failed_translation_keeps_request (requestBody : RT.val) (account : jv)
    (h0 : list RT.cell) (w : world) (j : json) :
  request_translation_fails ->
  truthy (get "enableTranslation" account) = true ->
  RT.isArray (RT.getv "messages" requestBody h0) h0 = true ->
  RT.stringify (S (length h0)) h0 requestBody = Some (Some j) ->
  exists ret h' w',
    RT.translateRequest requestBody account h0 w = (Ok ret, h', w')
    /\ RT.stringify (S (length h')) h' ret = Some (Some j).
Proof.
  intros Hfail Hon Harr Hj.
  destruct (translateRequest_on_json requestBody account h0 w j Hon Harr Hj)
    as (ret & h' & E & Hret).
  destruct (request_result_keeps (fun _ => true) False) with
    (request := j) (w := w) as [E1 _]; try done.
  - intros s w0 _. by apply text_result_fails.
  - apply all_strings_true.
  - rewrite E1 in Hret. by exists ret, h', (request_result j w).2.
Qed.

End RequestExtras.

(** *** What the translation can reach *)

Lemma same_but_refl (key : string) (j : json) : same_but key j j.
Proof.
  destruct j as [| | | | |props]; try done. simpl.
  apply Forall_Forall2_diag, Forall_forall. by intros kv _.
Qed.

Lemma same_but_obj_set (key : string) (v x : json)
    (props : list (jsstring * json)) :
  assoc (str key) props = Some x ->
  same_but key (Jobj props) (Jobj (CodeBlockProtector.obj_set (str key) v props)).
Proof.
  simpl. induction props as [|[k y] props IH]; simpl; [done|].
  destruct (decide (k = str key)) as [->|Hne].
  - intros _. constructor; [by split|].
    apply Forall_Forall2_diag, Forall_forall. by intros kv _.
  - intros Hx. constructor; [by split|by apply IH].
Qed.

Section FieldsProps.
Context `{Builtins} `{TranslationEnv}.

Lemma each_related {A B : Type} (R : A -> B -> Prop)
    (f : A -> world -> outcome B * world) (l : list A) (w : world) :
  (forall a w, match (f a w).1 with Ok b => R a b | Throw _ => True end) ->
  match (each f l w).1 with
  | Ok bs => Forall2 R l bs
  | Throw _ => True
  end.
Proof.
  intros Hf. revert w. induction l as [|a l IH]; intros w; cbn [each].
  - constructor.
  - pose proof (Hf a w) as Ha. destruct (f a w) as [[b|e] w1]; [|done].
    pose proof (IH w1) as Hl. destruct (each f l w1) as [[bs|e] w2]; [|done].
    by constructor.
Qed.

Lemma message_result_fields (message : json) (w : world) :
  match (message_result message w).1 with
  | Ok m' => only_content_differs message m'
  | Throw _ => True
  end.
Proof.
  assert (only_content_differs message message) as Hrefl.
  { split; [apply same_but_refl|done]. }
  unfold message_result. destruct message as [| | | | |props]; try done.
  destruct (json_is_str "user" _) eqn:Euser; [|done].
  destruct (assoc (str "content") props) as [content|] eqn:Econtent; [|done].
  destruct (content_result content w) as [[translated|e] w1]; [|done].
  cbn [fst]. split; [by eapply same_but_obj_set|].
  intros Hnot. destruct Hnot. unfold is_user, json_get.
  destruct (assoc (str "role") props) as [[| | |s| |]|]; try done.
  simpl in Euser. by apply bool_decide_eq_true in Euser as ->.
Qed.

Lemma request_result_fields (props : list (jsstring * json))
    (messages : list json) (w : world) :
  assoc (str "messages") props = Some (Jarr messages) ->
  same_but "messages" (Jobj props) (request_result (Jobj props) w).1
  /\ exists messages',
       json_get "messages" (request_result (Jobj props) w).1
       = Some (Jarr messages')
       /\ Forall2 only_content_differs messages messages'.
Proof.
  intros Hmsgs. unfold request_result. rewrite Hmsgs.
  pose proof (each_related only_content_differs message_result messages w
                message_result_fields) as Heach.
  destruct (each message_result messages w) as [[translated|e] w1]; cbn [fst] in *.
  - split; [by eapply same_but_obj_set|]. exists translated. split; [|done].
    simpl. apply assoc_obj_set.
  - split; [apply same_but_refl|]. exists messages. split; [done|].
    apply Forall_Forall2_diag, Forall_forall. intros m _.
    split; [apply same_but_refl|done].
Qed.

(** X21: the translation reaches nothing but the [content] of user
    messages.  What [translateRequest] returns reads as an object with the
    properties of the request, under the same names and in the same order,
    each with the same value but for [messages]; its [messages] is an array
    with one message for each message of the request, in order; each
    message has the properties of the original, under the same names and in
    the same order, with the same values but for [content], and is the same
    as the original when its [role] is not ["user"]. *)
Theorem only_user_content_is_translated (requestBody : RT.val) (account : jv)
    (h0 : list RT.cell) (w : world) (j : json) :
  truthy (get "enableTranslation" account) = true ->
  RT.isArray (RT.getv "messages" requestBody h0) h0 = true ->
  RT.stringify (S (length h0)) h0 requestBody = Some (Some j) ->
  exists ret h' w' j' messages messages',
    RT.translateRequest requestBody account h0 w = (Ok ret, h', w')
    /\ RT.stringify (S (length h')) h' ret = Some (Some j')
    /\ same_but "messages" j j'
    /\ json_get "messages" j = Some (Jarr messages)
    /\ json_get "messages" j' = Some (Jarr messages')
    /\ Forall2 only_content_differs messages messages'.
Proof.
  intros Hon Harr Hj.
  destruct (translateRequest_on_json requestBody account h0 w j Hon Harr Hj)
    as (ret & h' & E & Hret).
  destruct (stringify_messages _ _ _ _ Harr Hj) as (jps & jmsgs & -> & Hmsgs).
  destruct (request_result_fields jps jmsgs w Hmsgs)
    as (Hsame & messages' & Hget & Hall).
  by exists ret, h', (request_result (Jobj jps) w).2,
            (request_result (Jobj jps) w).1, jmsgs, messages'.
Qed.

End FieldsProps.

Lemma no_service_rejects : @request_translation_fails bare_builtins no_service.
Proof.
  intros text w Hne. unfold TranslationService.translate.
  destruct (trim text); [done|]. by eexists _, _.
Qed.

Lemma translateRequest_refines_witness :
  exists ret h',
    @RT.translateRequest bare_builtins (fixed_reply (Some (str "Hello")))
      sample_request enabled_account sample_heap []
    = (Ok ret, h',
       (@request_result bare_builtins (fixed_reply (Some (str "Hello")))
          sample_body []).2)
    /\ RT.stringify (S (length h')) h' ret
       = Some (Some (@request_result bare_builtins
                       (fixed_reply (Some (str "Hello"))) sample_body []).1).
Proof.
  refine (@translateRequest_refines bare_builtins
            (fixed_reply (Some (str "Hello")))
            sample_request enabled_account sample_heap [] sample_body
            eq_refl _ _); vm_compute; reflexivity.
Defined.

Lemma request_without_chinese_is_unchanged_witness :
  exists ret h',
    @RT.translateRequest bare_builtins (fixed_reply (Some (str "Hello")))
      english_request enabled_account english_heap []
    = (Ok ret, h', [])
    /\ RT.stringify (S (length h')) h' ret = Some (Some english_body).
Proof.
  refine (@request_without_chinese_is_unchanged bare_builtins
            (fixed_reply (Some (str "Hello")))
            english_request enabled_account english_heap [] english_body
            eq_refl _ _ _); vm_compute; reflexivity.
Defined.

Lemma failed_translation_keeps_request_witness :
  exists ret h' w',
    @RT.translateRequest bare_builtins no_service
      sample_request enabled_account sample_heap tt
    = (Ok ret, h', w')
    /\ RT.stringify (S (length h')) h' ret = Some (Some sample_body).
Proof.
  refine (@failed_translation_keeps_request bare_builtins no_service
            sample_request enabled_account sample_heap tt sample_body
            no_service_rejects eq_refl _ _); vm_compute; reflexivity.
Defined.

Lemma only_user_content_is_translated_witness :
  exists ret h' w' j' messages messages',
    @RT.translateRequest bare_builtins (fixed_reply (Some (str "Hello")))
      sample_request enabled_account sample_heap []
    = (Ok ret, h', w')
    /\ RT.stringify (S (length h')) h' ret = Some (Some j')
    /\ same_but "messages" sample_body j'
    /\ json_get "messages" sample_body = Some (Jarr messages)
    /\ json_get "messages" j' = Some (Jarr messages')
    /\ Forall2 only_content_differs messages messages'.
Proof.
  refine (@only_user_content_is_translated bare_builtins
            (fixed_reply (Some (str "Hello")))
            sample_request enabled_account sample_heap [] sample_body
            eq_refl _ _); vm_compute; reflexivity.
Defined.

(** ** requestTranslator.js: the envelope returned *)

Section EnvelopeProps.
Context `{Builtins} `{TranslationEnv}.

Lemma each_outcome {A B : Type} (f : A -> world -> outcome B * world)
    (ok : A -> bool) (l : list A) (w : world) :
  (forall a w, match (f a w).1 with
               | Ok _ => ok a = true
               | Throw _ => ok a = false
               end) ->
  match (each f l w).1 with
  | Ok _ => forallb ok l = true
  | Throw _ => forallb ok l = false
  end.
Proof.
  intros Hf. revert w. induction l as [|a l IH]; intros w; cbn [each forallb].
  - done.
  - pose proof (Hf a w) as Ha. destruct (f a w) as [[b|e] w1]; cbn [fst] in *.
    + rewrite Ha. cbn [andb]. pose proof (IH w1) as Hl.
      by destruct (each f l w1) as [[bs|e] w2].
    + by rewrite Ha.
Qed.

Lemma block_result_outcome (block : json) (w : world) :
  match (block_result block w).1 with
  | Ok _ => block_translates block = true
  | Throw _ => block_translates block = false
  end.
Proof.
  unfold block_result, block_translates.
  destruct block as [| | | | |props]; try done.
  destruct (json_is_str "text" _); [|done].
  destruct (assoc (str "text") props) as [[|b|z|[|c s]|elems|ps]|]; try done.
  - by destruct b.
  - simpl. by destruct (negb _).
  - by destruct (text_result (c :: s) w).
Qed.

Lemma message_result_outcome (message : json) (w : world) :
  match (message_result message w).1 with
  | Ok _ => message_translates message = true
  | Throw _ => message_translates message = false
  end.
Proof.
  unfold message_result, message_translates.
  destruct message as [| | | | |props]; try done.
  destruct (json_is_str "user" _); [|done].
  destruct (assoc (str "content") props) as [content|]; [|done].
  unfold content_result.
  destruct content as [| | |s|blocks|]; try done.
  - by destruct (text_result s w).
  - pose proof (each_outcome block_result block_translates blocks w
                  block_result_outcome) as Hblocks.
    by destruct (each block_result blocks w) as [[bs|e] w1].
Qed.

(** C7, amended.  [translateRequest] always returns, and never changes a
    cell of the input.  When translation is on for the account, [messages]
    is an array, the request serialises and no message raises an exception,
    the envelope returned is made of cells allocated by the call, so that no
    assignment through it changes a cell of the input, and every message
    whose role is not ["user"] serialises in the output to what it
    serialises to in the input.  In every other case the envelope returned
    is the input itself. *)
Theorem translateRequest_copy (requestBody : RT.val) (account : jv)
    (h0 : list RT.cell) (w : world) :
  exists ret h' w',
    RT.translateRequest requestBody account h0 w = (Ok ret, h', w')
    /\ take (length h0) h' = h0
    /\ (truthy (get "enableTranslation" account) = false -> h' = h0 /\ w' = w)
    /\ (~ returns_copy requestBody account h0 -> ret = requestBody)
    /\ (returns_copy requestBody account h0 ->
        (forall l, reach h' ret l -> length h0 <= l)
        /\ (forall l c, reach h' ret l -> take (length h0) (<[l:=c]> h') = h0)
        /\ exists j jmsgs ms lm,
             RT.stringify (S (length h0)) h0 requestBody = Some (Some j)
             /\ json_get "messages" j = Some (Jarr jmsgs)
             /\ RT.getv "messages" ret h' = RT.VRef lm
             /\ h' !! lm = Some (RT.CArr ms)
             /\ length ms = length jmsgs
             /\ forall i m jm,
                  ms !! i = Some m -> jmsgs !! i = Some jm -> ~ is_user jm ->
                  RT.stringify (S (length h')) h' m = Some (Some jm)).
Proof.
  assert (take (length h0) h0 = h0) as Hid by (by apply take_ge).
  unfold RT.translateRequest.
  destruct (truthy (get "enableTranslation" account)) eqn:Hon; cbn [negb].
  2:{ exists requestBody, h0, w. unfold RT.ret.
      split; [done|]. split; [done|]. split; [done|]. split; [done|].
      intros (Hon' & _). congruence. }
  unfold RT.bind, RT.read.
  destruct (RT.isArray (RT.getv "messages" requestBody h0) h0) eqn:Harr.
  2:{ rewrite orb_true_r. exists requestBody, h0, w. unfold RT.ret.
      split; [done|]. split; [done|]. split; [done|]. split; [done|].
      intros (_ & Harr' & _). congruence. }
  assert (RT.vtruthy (RT.getv "messages" requestBody h0) = true) as ->.
  { by destruct (RT.getv "messages" requestBody h0). }
  cbn [negb orb]. unfold RT.catch.
  destruct (RT.translateMessages requestBody h0 w) as [[[ret|e] h'] w'] eqn:E;
    pose proof E as E0;
    apply translateMessages_spec in E as [Hext Hok];
    apply ext_prefix in Hext.
  - destruct (Hok ret eq_refl) as (Hfresh & j & jmsgs & ms & lm & Hj & Hmsgs & Hrest).
    destruct (translateMessages_on_json requestBody h0 w j Harr Hj)
      as (jps & jmsgs' & r & h'' & -> & Hm' & E' & Hr).
    rewrite E0 in E'. injection E' as <- <- _.
    simpl in Hmsgs. rewrite Hm' in Hmsgs. injection Hmsgs as ->.
    destruct Hr as (_ & jms & Heach).
    pose proof (each_outcome message_result message_translates jmsgs w
                  message_result_outcome) as Hall.
    rewrite Heach in Hall.
    exists ret, h', w'. split; [done|]. split; [done|]. split; [done|].
    split.
    { intros Hnot. destruct Hnot. split; [done|]. split; [done|].
      by exists (Jobj jps), jmsgs. }
    intros _. split; [done|]. split.
    { intros l c Hreach. rewrite take_insert_ge; [done|]. by apply Hfresh. }
    by exists (Jobj jps), jmsgs, ms, lm.
  - exists requestBody, h', w'. unfold RT.ret.
    split; [done|]. split; [done|]. split; [done|]. split; [done|].
    intros (_ & _ & j & jmsgs & Hj & Hmsgs & Hall).
    destruct (translateMessages_on_json requestBody h0 w j Harr Hj)
      as (jps & jmsgs' & r & h'' & -> & Hm' & E' & Hr).
    rewrite E0 in E'. injection E' as <- <- _.
    simpl in Hmsgs. rewrite Hm' in Hmsgs. injection Hmsgs as ->.
    destruct Hr as (_ & e' & Heach).
    pose proof (each_outcome message_result message_translates jmsgs w
                  message_result_outcome) as Hall'.
    rewrite Heach in Hall'. congruence.
Qed.

(** C1: for an account whose [enableTranslation] is the string ["false"],
    [translateRequest] does not return at its first guard: for a request
    with an array of messages it returns an envelope that reads as the
    request with its user messages translated (the JSON text and the state
    of the translation service are those [request_result] gives: every
    string content and every text block of a user message has gone through
    [_translateText]), as it does for an account with
    [enableTranslation: true].  The response translator for the same account
    is constructed disabled and writes every event it is given as it came,
    without a call to the translation service. *)
Theorem string_false_request_and_response (account : jv) :
  get "enableTranslation" account = JStr (str "false") ->
  (forall body h w j,
     RT.isArray (RT.getv "messages" body h) h = true ->
     RT.stringify (S (length h)) h body = Some (Some j) ->
     exists ret h',
       RT.translateRequest body account h w
       = (Ok ret, h', (request_result j w).2)
       /\ RT.stringify (S (length h')) h' ret
          = Some (Some (request_result j w).1))
  /\ (forall body h w,
        RT.translateRequest body account h w
        = RT.translateRequest body enabled_account h w)
  /\ (forall out,
        ResponseTranslator.enabled (ResponseTranslator.new account out) = false)
  /\ (forall out events w,
        ResponseTranslator.writable out = true ->
        ResponseTranslator.written
          (ResponseTranslator.outputStream
             (fst (ResponseTranslator.processEvents events
                     (ResponseTranslator.new account out) w)))
        = ResponseTranslator.written out ++ (JObj <$> events)
        /\ snd (ResponseTranslator.processEvents events
                  (ResponseTranslator.new account out) w) = w).
Proof.
  intros Hfalse.
  assert (forall out,
    ResponseTranslator.enabled (ResponseTranslator.new account out) = false)
    as Hdisabled.
  { intros out. unfold ResponseTranslator.new. simpl. by rewrite Hfalse. }
  split; [|split; [|split]].
  - intros body h w j Harr Hj. apply translateRequest_on_json; [|done..].
    by rewrite Hfalse.
  - intros body h w. unfold RT.translateRequest. by rewrite Hfalse.
  - done.
  - intros out events w Hw. by apply processEvents_disabled.
Qed.

End EnvelopeProps.

(** The sample request goes all the way through. *)
Example sample_request_returns_copy :
  returns_copy sample_request enabled_account sample_heap.
Proof.
  split; [done|]. split; [done|].
  eexists sample_body, _. by repeat split.
Qed.

(** Scenario S4 with the string ["false"]: the user message of the sample
    request comes back translated, and the translation is in the cache;
    the same account gives a response translator that is off. *)
Lemma string_false_request_and_response_witness :
  (exists ret h',
     @RT.translateRequest bare_builtins (fixed_reply (Some (str "Hello")))
       sample_request string_false_account sample_heap []
     = (Ok ret, h',
        [(@TranslationService.getCacheKey bare_builtins
            [20320%N; 22909%N] (str "zh") (str "en"), str "Hello")])
     /\ RT.stringify (S (length h')) h' ret
        = Some (Some
            (Jobj [(str "model", Jstr (str "m"));
                   (str "messages",
                    Jarr [Jobj [(str "role", Jstr (str "system"));
                                (str "content", Jstr (str "Be brief"))];
                          Jobj [(str "role", Jstr (str "user"));
                                (str "content", Jstr (str "Hello"))]])])))
  /\ (forall out,
        ResponseTranslator.enabled
          (ResponseTranslator.new string_false_account out) = false).
Proof.
  pose proof (@string_false_request_and_response bare_builtins
                (fixed_reply (Some (str "Hello"))) string_false_account eq_refl)
    as (Hreq & _ & Hresp & _).
  split; [|done].
  exact (Hreq sample_request sample_heap [] sample_body eq_refl eq_refl).
Defined.
